(** * VITS2 flow stack of icefall's LJSpeech recipe

    A shallow embedding of

      - egs/ljspeech/TTS/vits2/residual_coupling.py
      - egs/ljspeech/TTS/vits2/duration_predictor.py
      - egs/ljspeech/TTS/local_fbank/compute_fbank_ljspeech.py

    Tensors are nested lists of real numbers (batch, channels, time): the
    arithmetic of the source is read over the reals, so an equation proved
    here is the exact identity that the floating-point code approximates.
    Every PyTorch operation that can raise (broadcasting, [split], [cat],
    tuple unpacking) returns in the error monad [res]. *)

From Stdlib Require Import Reals Lra Lia.
From stdpp Require Import base tactics option list strings gmap.

(** ** Python exceptions and the error monad *)

Inductive exn :=
| AssertionError (msg : string)
| AttributeError (attr : string)
| RuntimeError (msg : string)
| ValueError (msg : string)
| TypeError (msg : string)
| IndexError (msg : string).

Inductive res (A : Type) :=
| Ok (a : A)
| Raise (e : exn).
Arguments Ok {A} a.
Arguments Raise {A} e.

#[export] Instance res_ret : MRet res := λ A a, Ok a.
#[export] Instance res_bind : MBind res :=
  λ A B f m, match m with Ok a => f a | Raise e => Raise e end.
#[export] Instance res_fmap : FMap res :=
  λ A B f m, match m with Ok a => Ok (f a) | Raise e => Raise e end.

Definition is_Raise {A} (m : res A) : Prop := ∃ e, m = Raise e.

(** The specification's error kind, read on the exceptions of the code: a
    missing required tensor is a failed [assert], a channel count that does
    not split in two is a failed unpacking, a shape mismatch is PyTorch's
    [RuntimeError]. *)
Definition InvalidInputError (e : exn) : Prop :=
  match e with
  | AssertionError _ | ValueError _ | RuntimeError _ => True
  | AttributeError _ | TypeError _ | IndexError _ => False
  end.

(** ** Tensors *)

(** Rank 3, [(B, C, T)]: batch outermost, then channels, then time. *)
Abbreviation tensor := (list (list (list R))).
(** Rank 1, [(B,)]: one number per batch element. *)
Abbreviation vec := (list R).

Definition has_shape (B C T : nat) (x : tensor) : Prop :=
  length x = B ∧
  Forall (λ ch, length ch = C ∧ Forall (λ row : list R, length row = T) ch) x.

Definition get (x : tensor) (b c t : nat) : R :=
  nth t (nth c (nth b x []) []) 0%R.

(** The tensor of shape [(B, C, T)] with entries [f b c t]. *)
Definition mk (B C T : nat) (f : nat → nat → nat → R) : tensor :=
  (λ b, (λ c, f b c <$> seq 0 T) <$> seq 0 C) <$> seq 0 B.

Definition sum_list (l : list R) : R := foldr Rplus 0%R l.

(** [a, b = chunks] *)
Definition unpack2 {A} (chunks : list A) : res (A * A) :=
  match chunks with
  | [a; b] => Ok (a, b)
  | [] | [_] => Raise (ValueError "not enough values to unpack (expected 2)")
  | _ => Raise (ValueError "too many values to unpack (expected 2)")
  end.

(** The PyTorch operations the three files use. *)
Module torch.

(** [x.size(0)], [x.size(1)], [x.size(2)]: the inner sizes are read off the
    first batch element and its first channel, so a tensor with no batch
    element (or no channel) has size 0 there. *)
Definition size0 (x : tensor) : nat := length x.
Definition size1 (x : tensor) : nat := length (hd [] x).
Definition size2 (x : tensor) : nat := length (hd [] (hd [] x)).

(** Broadcasting along one dimension: equal sizes are zipped, a size of
    one is expanded, anything else is a [RuntimeError]. *)
Definition broadcast {A B C} (f : A → B → res C)
    (xs : list A) (ys : list B) : res (list C) :=
  if decide (length xs = length ys) then mapM (uncurry f) (zip xs ys)
  else match xs, ys with
       | [x], _ => mapM (f x) ys
       | _, [y] => mapM (λ x, f x y) xs
       | _, _ => Raise (RuntimeError "The size of tensor a must match the size of tensor b")
       end.

Definition pointwise (op : R → R → R) : tensor → tensor → res tensor :=
  broadcast (broadcast (broadcast (λ a b, Ok (op a b)))).

(** [x + y], [x - y], [x * y] *)
Definition add := pointwise Rplus.
Definition sub := pointwise Rminus.
Definition mul := pointwise Rmult.

Definition vpointwise (op : R → R → R) : vec → vec → res vec :=
  broadcast (λ a b, Ok (op a b)).
Definition vadd := vpointwise Rplus.
Definition vsub := vpointwise Rminus.

Definition tmap (u : R → R) (x : tensor) : tensor :=
  (λ ch : list (list R), (λ row : list R, u <$> row) <$> ch) <$> x.

Definition exp (x : tensor) : tensor := tmap Rtrigo_def.exp x.
(** [-x] *)
Definition neg (x : tensor) : tensor := tmap Ropp x.
Definition zeros_like (x : tensor) : tensor := tmap (λ _, 0%R) x.
(** [x * k] for a Python float [k] *)
Definition scale (k : R) (x : tensor) : tensor := tmap (λ a, (a * k)%R) x.

(** [torch.sum(x, [1, 2])] *)
Definition sum12 (x : tensor) : vec :=
  (λ ch : list (list R), sum_list (concat ch)) <$> x.

(** [x.split(split_size, dim=1)]: chunks of [split_size] channels, the
    last one possibly shorter. *)
Definition split (split_size : nat) (x : tensor) : res (list tensor) :=
  if decide (split_size = 0) then
    if decide (size1 x = 0) then Ok [x]
    else Raise (RuntimeError "split_size can only be 0 if dimension size is 0")
  else
    Ok ((λ k, (λ ch : list (list R), take split_size (drop (k * split_size) ch)) <$> x)
          <$> seq 0 (((size1 x + split_size - 1) / split_size) `max` 1)).

(** [torch.split(x, [n1, n2], 1)] *)
Definition split_sizes (n1 n2 : nat) (x : tensor) : res (list tensor) :=
  if decide (n1 + n2 = size1 x) then
    Ok [(λ ch : list (list R), take n1 ch) <$> x;
        (λ ch : list (list R), take n2 (drop n1 ch)) <$> x]
  else Raise (RuntimeError "split_with_sizes expects split_sizes to sum exactly to the dimension size").

(** [torch.cat([xa, xb], 1)] *)
Definition cat (xa xb : tensor) : res tensor :=
  if decide (size0 xa = size0 xb ∧ size2 xa = size2 xb)
  then Ok (zip_with app xa xb)
  else Raise (RuntimeError "Sizes of tensors must match except in dimension 1").

(** [x.new_zeros(n)] *)
Definition new_zeros (n : nat) : vec := replicate n 0%R.

(** [torch.flip(x, [1])] *)
Definition flip (x : tensor) : tensor :=
  (λ ch : list (list R), reverse ch) <$> x.

(** [x.transpose(1, 2)] *)
Definition transpose (x : tensor) : tensor :=
  (λ ch : list (list R),
     (λ t, (λ row : list R, nth t row 0%R) <$> ch) <$> seq 0 (length (hd [] ch))) <$> x.

(** A tensor whose rank is only known at run time, as [torch.squeeze]
    returns it. *)
Inductive ndarray (A : Type) :=
| Rank0 (v : A)
| Rank1 (v : list A)
| Rank2 (v : list (list A))
| Rank3 (v : list (list (list A))).
Arguments Rank0 {A} v.
Arguments Rank1 {A} v.
Arguments Rank2 {A} v.
Arguments Rank3 {A} v.

(** [torch.squeeze(x)]: every dimension of size one is dropped. *)
Definition squeeze (x : tensor) : ndarray R :=
  match bool_decide (size0 x = 1), bool_decide (size1 x = 1),
        bool_decide (size2 x = 1) with
  | true, true, true => Rank0 (get x 0 0 0)
  | true, true, false => Rank1 (hd [] (hd [] x))
  | true, false, true => Rank1 ((λ row : list R, hd 0%R row) <$> hd [] x)
  | false, true, true => Rank1 ((λ ch : list (list R), hd 0%R (hd [] ch)) <$> x)
  | true, false, false => Rank2 (hd [] x)
  | false, true, false => Rank2 ((λ ch : list (list R), hd [] ch) <$> x)
  | false, false, true =>
      Rank2 ((λ ch : list (list R), (λ row : list R, hd 0%R row) <$> ch) <$> x)
  | false, false, false => Rank3 x
  end.

(** [torch.where(a > 0, True, False)] *)
Definition where_gt0 (a : ndarray R) : ndarray bool :=
  let pos (v : R) : bool := if Rlt_dec 0 v then true else false in
  match a with
  | Rank0 v => Rank0 (pos v)
  | Rank1 v => Rank1 (pos <$> v)
  | Rank2 v => Rank2 ((λ r : list R, pos <$> r) <$> v)
  | Rank3 v => Rank3 ((λ c : list (list R), (λ r : list R, pos <$> r) <$> c) <$> v)
  end.

(** [torch.sigmoid], [F.logsigmoid] *)
Definition sigmoid (v : R) : R := (1 / (1 + Rtrigo_def.exp (- v)))%R.
Definition logsigmoid (v : R) : R := ln (sigmoid v).

(** [x.detach()] cuts the gradient and keeps the values. *)
Definition detach (x : tensor) : tensor := x.

(** [torch.nn.Conv1d(in_channels, out_channels, 1)]: the weight, one row of
    [in_channels] numbers per output channel (the kernel has size one), and
    the bias. *)
Record Conv1d := {
  in_channels : nat;
  out_channels : nat;
  weight : list (list R);
  bias : list R;
}.

(** [conv(x)]: at every frame, output channel [o] is
    [bias[o] + sum_i weight[o][i] * x[i]]. *)
Definition conv1d (conv : Conv1d) (x : tensor) : res tensor :=
  if decide (size1 x = in_channels conv) then
    Ok ((λ ch : list (list R),
           (λ '(w, b),
              (λ t, (b + sum_list
                         (zip_with (λ wi (row : list R), wi * nth t row 0) w ch))%R)
              <$> seq 0 (length (hd [] ch)))
           <$> zip (weight conv) (bias conv)) <$> x)
  else Raise (RuntimeError "expected input to have in_channels channels").

(** [conv.weight.data.zero_()] and [conv.bias.data.zero_()] on a freshly
    built [Conv1d(in_channels, out_channels, 1)] *)
Definition zeroed_conv1d (in_channels out_channels : nat) : Conv1d :=
  {| in_channels := in_channels;
     out_channels := out_channels;
     weight := replicate out_channels (replicate in_channels 0%R);
     bias := replicate out_channels 0%R |}.

(** [torch.nn.Dropout(p)] with the mask it draws: in training mode the
    entries where the mask is zero are dropped and the others scaled by
    [1 / (1 - p)]; in evaluation mode the input is returned. *)
Definition dropout (p : R) (training : bool) (mask x : tensor) : res tensor :=
  if training then scale (1 / (1 - p)) <$> mul x mask else Ok x.

(** [torch.relu] *)
Definition relu (x : tensor) : tensor := tmap (Rmax 0) x.

(** The mean of a row. *)
Definition mean (row : list R) : R := (sum_list row / INR (length row))%R.

(** [F.layer_norm(x, (n,), gamma, beta, eps)], on the last dimension: every
    row is centred, divided by the root of its variance plus [eps], scaled by
    [gamma] and shifted by [beta].  A row, a [gamma] or a [beta] of another
    length than [n] is a [RuntimeError]. *)
Definition layer_norm_row (gamma beta : list R) (eps : R) (row : list R)
    : list R :=
  let m := mean row in
  let v := mean ((λ a, (a - m) ^ 2)%R <$> row) in
  zip_with (λ '(g, b) a, ((a - m) / sqrt (v + eps) * g + b)%R)
    (zip gamma beta) row.

Definition layer_norm (n : nat) (gamma beta : list R) (eps : R) (x : tensor)
    : res tensor :=
  mapM (mapM (λ row : list R,
          if decide (length row = n ∧ length gamma = n ∧ length beta = n)
          then Ok (layer_norm_row gamma beta eps row)
          else Raise (RuntimeError "Given normalized_shape, expected input with matching shape")))
    x.

End torch.

(** ** Flows *)

(** A flow returns the tensor with its log-determinant, or the tensor alone
    when it is inverted. *)
Inductive flow_out :=
| WithLogdet (x : tensor) (logdet : vec)
| Plain (x : tensor).

(** [x, logdet = flow(...)].  No flow returns a bare tensor when it is not
    inverted, so the second case is never reached. *)
Definition unpack_pair (o : flow_out) : res (tensor * vec) :=
  match o with
  | WithLogdet x logdet => Ok (x, logdet)
  | Plain _ => Raise (ValueError "a tensor was returned where a pair is unpacked")
  end.

(** [x = flow(...)], with [x] used as a tensor afterwards.  No flow returns a
    pair when it is inverted, so the second case is never reached. *)
Definition as_tensor (o : flow_out) : res tensor :=
  match o with
  | Plain x => Ok x
  | WithLogdet _ _ => Raise (TypeError "a pair was returned where a tensor is used")
  end.

(** A Python [for] loop over a list, the loop variables threaded as state;
    an exception in the body ends it. *)
Fixpoint for_ {A S : Type} (l : list A) (body : S → A → res S) (s : S) : res S :=
  match l with
  | [] => Ok s
  | a :: l => s' ← body s a; for_ l body s'
  end.

(** *** residual_coupling.py: ResidualAffineCouplingLayer

    The convolutions and the WaveNet encoder are modules defined outside the
    three files; a layer holds them as the maps they compute. *)
Module ResidualAffineCouplingLayer.

Record t := {
  half_channels : nat;
  use_only_mean : bool;
  input_conv : tensor → res tensor;
  encoder : tensor → tensor → option tensor → res tensor;
  proj : tensor → res tensor;
}.

Definition forward (self : t) (x x_mask : tensor) (g : option tensor)
    (inverse : bool) : res flow_out :=
  '(xa, xb) ← torch.split (torch.size1 x / 2) x ≫= unpack2;
  h ← input_conv self xa ≫= (λ h, torch.mul h x_mask);
  h ← encoder self h x_mask g;
  stats ← proj self h ≫= (λ s, torch.mul s x_mask);
  '(m, logs) ← (if negb (use_only_mean self)
                then torch.split (torch.size1 stats / 2) stats ≫= unpack2
                else Ok (stats, torch.zeros_like stats));
  if negb inverse then
    xb ← (p ← torch.mul xb (torch.exp logs);
          q ← torch.mul p x_mask;
          torch.add m q);
    x ← torch.cat xa xb;
    let logdet := torch.sum12 logs in
    Ok (WithLogdet x logdet)
  else
    xb ← (d ← torch.sub xb m;
          r ← torch.mul d (torch.exp (torch.neg logs));
          torch.mul r x_mask);
    x ← torch.cat xa xb;
    Ok (Plain x).

(** Lines 237-239 up to the projection: what the layer computes from [xa]
    before the result is masked. *)
Definition statistics (self : t) (xa x_mask : tensor) (g : option tensor)
    : res tensor :=
  h ← input_conv self xa ≫= (λ h, torch.mul h x_mask);
  h ← encoder self h x_mask g;
  proj self h.

(** Channels of the projection: the mean, or the mean and the log-scale. *)
Definition stats_channels (self : t) : nat :=
  if use_only_mean self then half_channels self else 2 * half_channels self.

(** The shape contract of the three modules: from [xa] of shape
    [(B, half_channels, T)] the projection, when it is computed, has shape
    [(B, stats_channels, T)] (a [Conv1d] of kernel size one keeps batch and
    time, the WaveNet keeps the shape). *)
Definition shape_contract (self : t) : Prop :=
  ∀ B T xa x_mask g s,
    has_shape B (half_channels self) T xa → has_shape B 1 T x_mask →
    statistics self xa x_mask g = Ok s →
    has_shape B (stats_channels self) T s.

(** [__init__], lines 169-214.  [input_weight] and [input_bias] are the
    parameters [Conv1d(half_channels, hidden_channels, 1)] is created with,
    [new_encoder] is the WaveNet it builds; the projection is zeroed. *)
Definition init (in_channels hidden_channels : nat) (use_only_mean : bool)
    (input_weight : list (list R)) (input_bias : list R)
    (new_encoder : tensor → tensor → option tensor → res tensor) : res t :=
  if decide (in_channels mod 2 = 0) then
    let half_channels := in_channels / 2 in
    Ok {| half_channels := half_channels;
          use_only_mean := use_only_mean;
          input_conv :=
            torch.conv1d
              {| torch.in_channels := half_channels;
                 torch.out_channels := hidden_channels;
                 torch.weight := input_weight;
                 torch.bias := input_bias |};
          encoder := new_encoder;
          proj :=
            torch.conv1d
              (torch.zeroed_conv1d hidden_channels
                 (if use_only_mean then half_channels else half_channels * 2)) |}
  else Raise (AssertionError "in_channels should be divisible by 2").

End ResidualAffineCouplingLayer.

(** *** residual_coupling.py: ResidualCouplingTransformersLayer *)
Module ResidualCouplingTransformersLayer.

(** The Transformer of text_encoder.py, as the map it computes on a
    [(B, T, C)] tensor and a padding mask. *)
Abbreviation transformer := (tensor → torch.ndarray bool → res tensor).

Record t := {
  half_channels : nat;
  use_only_mean : bool;
  use_post_transformer : bool;
  pre_transformer : transformer;
  input_conv : tensor → res tensor;
  encoder : tensor → tensor → option tensor → res tensor;
  post_transformer : option transformer;
  proj : tensor → res tensor;
}.

Definition forward (self : t) (x x_mask : tensor) (g : option tensor)
    (inverse : bool) : res flow_out :=
  '(xa, xb) ← torch.split (torch.size1 x / 2) x ≫= unpack2;
  let transformer_mask := torch.where_gt0 (torch.squeeze x_mask) in
  xa_trans ← torch.transpose
             <$> pre_transformer self (torch.transpose xa) transformer_mask;
  xa ← torch.add xa xa_trans;
  h ← input_conv self xa ≫= (λ h, torch.mul h x_mask);
  h ← encoder self h x_mask g;
  h ← (if use_post_transformer self then
         match post_transformer self with
         | Some post =>
             p ← torch.transpose <$> post (torch.transpose h) transformer_mask;
             torch.add h p
         | None => Raise (AttributeError "post_transformer")
         end
       else Ok h);
  stats ← proj self h ≫= (λ s, torch.mul s x_mask);
  '(m, logs) ← (if negb (use_only_mean self)
                then torch.split (torch.size1 stats / 2) stats ≫= unpack2
                else Ok (stats, torch.zeros_like stats));
  if negb inverse then
    xb ← (p ← torch.mul xb (torch.exp logs);
          q ← torch.mul p x_mask;
          torch.add m q);
    x ← torch.cat xa xb;
    let logdet := torch.sum12 logs in
    Ok (WithLogdet x logdet)
  else
    xb ← (d ← torch.sub xb m;
          r ← torch.mul d (torch.exp (torch.neg logs));
          torch.mul r x_mask);
    x ← torch.cat xa xb;
    Ok (Plain x).

(** The affine coupling layer that lines 387-410 amount to, once [xa] is
    refined: the same convolutions, and for encoder the WaveNet followed by
    the post Transformer when it is used. *)
Definition affine_part (self : t) : ResidualAffineCouplingLayer.t :=
  {| ResidualAffineCouplingLayer.half_channels := half_channels self;
     ResidualAffineCouplingLayer.use_only_mean := use_only_mean self;
     ResidualAffineCouplingLayer.input_conv := input_conv self;
     ResidualAffineCouplingLayer.encoder := λ h x_mask g,
       let transformer_mask := torch.where_gt0 (torch.squeeze x_mask) in
       h ← encoder self h x_mask g;
       if use_post_transformer self then
         match post_transformer self with
         | Some post =>
             p ← torch.transpose <$> post (torch.transpose h) transformer_mask;
             torch.add h p
         | None => Raise (AttributeError "post_transformer")
         end
       else Ok h;
     ResidualAffineCouplingLayer.proj := proj self |}.

End ResidualCouplingTransformersLayer.

(** *** flow.py: FlipFlow *)
Module FlipFlow.

(** Modelled from the spec: flow.py, which defines FlipFlow, is not among the
    sources.  Section 4.3: forward and inverse are identical and reverse the
    channel-axis order; the log-determinant is 0 always. *)
Definition forward (x x_mask : tensor) (g : option tensor) (inverse : bool)
    : res flow_out :=
  let x := torch.flip x in
  if negb inverse then
    let logdet := torch.new_zeros (torch.size0 x) in
    Ok (WithLogdet x logdet)
  else Ok (Plain x).

End FlipFlow.

(** The members of a [ModuleList] of flows.  The elementwise affine flow and
    the convolutional flow of flow.py are held as the two maps they compute,
    forward with log-determinant and inverse. *)
Inductive Flow :=
| FlipFlow
| ResidualAffineCouplingLayer (layer : ResidualAffineCouplingLayer.t)
| ResidualCouplingTransformersLayer (layer : ResidualCouplingTransformersLayer.t)
| ElementwiseAffineFlow
    (fwd : tensor → tensor → option tensor → res (tensor * vec))
    (inv : tensor → tensor → option tensor → res tensor)
| ConvFlow
    (fwd : tensor → tensor → option tensor → res (tensor * vec))
    (inv : tensor → tensor → option tensor → res tensor).

(** [flow(x, x_mask, g=g, inverse=inverse)] *)
Definition call (flow : Flow) (x x_mask : tensor) (g : option tensor)
    (inverse : bool) : res flow_out :=
  match flow with
  | FlipFlow => FlipFlow.forward x x_mask g inverse
  | ResidualAffineCouplingLayer l =>
      ResidualAffineCouplingLayer.forward l x x_mask g inverse
  | ResidualCouplingTransformersLayer l =>
      ResidualCouplingTransformersLayer.forward l x x_mask g inverse
  | ElementwiseAffineFlow fwd inv | ConvFlow fwd inv =>
      if negb inverse then
        '(y, logdet) ← fwd x x_mask g; Ok (WithLogdet y logdet)
      else Plain <$> inv x x_mask g
  end.

(** *** residual_coupling.py: ResidualCouplingBlock *)
Module ResidualCouplingBlock.

Record t := { flows : list Flow }.

(** [__init__]: [flows] coupling layers, each followed by a flip; [affine i]
    and [transformers i] are the layers the [i]-th round constructs. *)
Definition init (flows : nat) (use_transformer_flows : bool)
    (affine : nat → ResidualAffineCouplingLayer.t)
    (transformers : nat → ResidualCouplingTransformersLayer.t) : t :=
  {| flows :=
       flat_map (λ i,
         [ if negb use_transformer_flows
           then ResidualAffineCouplingLayer (affine i)
           else ResidualCouplingTransformersLayer (transformers i);
           FlipFlow ]) (seq 0 flows) |}.

Definition forward (self : t) (x x_mask : tensor) (g : option tensor)
    (inverse : bool) : res tensor :=
  if negb inverse then
    for_ (flows self)
      (λ x flow, '(x, _) ← call flow x x_mask g inverse ≫= unpack_pair; Ok x) x
  else
    for_ (reverse (flows self))
      (λ x flow, call flow x x_mask g inverse ≫= as_tensor) x.

End ResidualCouplingBlock.

(** ** duration_predictor.py: StochasticDurationPredictor *)

(** A log-determinant accumulator: the Python number it starts as, or the
    [(B,)] tensor it becomes. *)
Inductive num :=
| Float (r : R)
| Tensor1 (v : vec).

(** [acc + v] and [v - acc] for a [(B,)] tensor [v] *)
Definition num_add (acc : num) (v : vec) : res num :=
  match acc with
  | Float r => Ok (Tensor1 ((λ y, (r + y)%R) <$> v))
  | Tensor1 u => Tensor1 <$> torch.vadd u v
  end.
Definition num_rsub (v : vec) (acc : num) : res vec :=
  match acc with
  | Float r => Ok ((λ y, (y - r)%R) <$> v)
  | Tensor1 u => torch.vsub v u
  end.

(** *** duration_predictor.py: LayerNorm *)
Module LayerNorm.

Record t := {
  channels : nat;
  eps : R;
  gamma : list R;
  beta : list R;
}.

(** [eps=1e-5], the default of [__init__] *)
Definition default_eps : R := (1 / 100000)%R.

(** [__init__]: [gamma] starts at ones, [beta] at zeros. *)
Definition init (channels : nat) (eps : R) : t :=
  {| channels := channels;
     eps := eps;
     gamma := replicate channels 1%R;
     beta := replicate channels 0%R |}.

(** [forward], on a [(B, C, T)] tensor, for which [x.transpose(1, -1)] is
    [x.transpose(1, 2)]. *)
Definition forward (self : t) (x : tensor) : res tensor :=
  let x := torch.transpose x in
  x ← torch.layer_norm (channels self) (gamma self) (beta self) (eps self) x;
  Ok (torch.transpose x).

End LayerNorm.

(** *** duration_predictor.py: DurationDiscriminator

    The convolutions and the linear layer are held as the maps they compute;
    the normalisations are the LayerNorm above. *)
Module DurationDiscriminator.

Record t := {
  conv_1 : tensor → res tensor;
  norm_1 : LayerNorm.t;
  conv_2 : tensor → res tensor;
  norm_2 : LayerNorm.t;
  dur_proj : tensor → res tensor;
  pre_out_conv_1 : tensor → res tensor;
  pre_out_norm_1 : LayerNorm.t;
  pre_out_conv_2 : tensor → res tensor;
  pre_out_norm_2 : LayerNorm.t;
  output_linear : tensor → res tensor;
}.

(** [self.output_layer]: [Sequential(Linear(filter_channels, 1), Sigmoid())] *)
Definition output_layer (self : t) (x : tensor) : res tensor :=
  torch.tmap torch.sigmoid <$> output_linear self x.

Definition forward_probability (self : t) (x x_mask dur : tensor) : res tensor :=
  dur ← dur_proj self dur;
  x ← torch.cat x dur;
  x ← torch.mul x x_mask ≫= pre_out_conv_1 self;
  let x := torch.relu x in
  x ← LayerNorm.forward (pre_out_norm_1 self) x;
  x ← torch.mul x x_mask ≫= pre_out_conv_2 self;
  let x := torch.relu x in
  x ← LayerNorm.forward (pre_out_norm_2 self) x;
  x ← torch.mul x x_mask;
  let x := torch.transpose x in
  output_prob ← output_layer self x;
  Ok output_prob.

Definition forward (self : t) (x x_mask dur_r dur_hat : tensor)
    : res (list (list tensor)) :=
  let x := torch.detach x in
  x ← torch.mul x x_mask ≫= conv_1 self;
  let x := torch.relu x in
  x ← LayerNorm.forward (norm_1 self) x;
  x ← torch.mul x x_mask ≫= conv_2 self;
  let x := torch.relu x in
  x ← LayerNorm.forward (norm_2 self) x;
  let output_probs := [] in
  for_ [dur_r; dur_hat]
    (λ output_probs dur,
       output_prob ← forward_probability self x x_mask dur;
       Ok (output_probs ++ [[output_prob]]))
    output_probs.

End DurationDiscriminator.

Module StochasticDurationPredictor.

(** What [forward] returns: the negative log-likelihood [(B,)], or the
    log-duration [(B, 1, T_text)]. *)
Inductive output :=
| Nll (nll : vec)
| LogDuration (logw : tensor).

(** Modelled from the spec: the dropout of DilatedDepthSeparableConv
    (flow.py, not among the sources), section 4.5: every layer of the stack
    ends in a dropout before its residual add.  [__init__] builds [self.dds]
    and [self.post_dds] with [dropout_rate] (0.5 by default), so in training
    mode each of their calls draws one mask per layer from the generator; in
    evaluation mode, or with a rate of zero, nothing is drawn.  A stack takes
    the masks drawn for it in the call as its first argument.  The
    convolutional flows are built without a dropout rate (lines 73-78 and
    94-99) and take no mask. *)
Record dropout_masks := {
  dds_masks : list tensor;
  post_dds_masks : list tensor;
}.

Record t := {
  pre : tensor → res tensor;
  dds : list tensor → tensor → tensor → res tensor;
  proj : tensor → res tensor;
  log_flow : tensor → tensor → res (tensor * vec);
  flows : list Flow;
  post_pre : tensor → res tensor;
  post_dds : list tensor → tensor → tensor → res tensor;
  post_proj : tensor → res tensor;
  post_flows : list Flow;
  global_conv : option (tensor → res tensor);
}.

(** The modules [__init__] constructs, as the maps they compute, the two
    stacks from the dropout masks they draw. *)
Record modules := {
  new_pre : tensor → res tensor;
  new_dds : list tensor → tensor → tensor → res tensor;
  new_proj : tensor → res tensor;
  new_log_flow : tensor → tensor → res (tensor * vec);
  new_affine_fwd : tensor → tensor → option tensor → res (tensor * vec);
  new_affine_inv : tensor → tensor → option tensor → res tensor;
  new_conv_fwd : nat → tensor → tensor → option tensor → res (tensor * vec);
  new_conv_inv : nat → tensor → tensor → option tensor → res tensor;
  new_post_pre : tensor → res tensor;
  new_post_dds : list tensor → tensor → tensor → res tensor;
  new_post_proj : tensor → res tensor;
  new_post_affine_fwd : tensor → tensor → option tensor → res (tensor * vec);
  new_post_affine_inv : tensor → tensor → option tensor → res tensor;
  new_post_conv_fwd : nat → tensor → tensor → option tensor → res (tensor * vec);
  new_post_conv_inv : nat → tensor → tensor → option tensor → res tensor;
  new_global_conv : tensor → res tensor;
}.

Definition init (new : modules) (flows : nat) (global_channels : Z) : t :=
  {| pre := new_pre new;
     dds := new_dds new;
     proj := new_proj new;
     log_flow := new_log_flow new;
     flows :=
       [ElementwiseAffineFlow (new_affine_fwd new) (new_affine_inv new)]
       ++ flat_map (λ i,
            [ConvFlow (new_conv_fwd new i) (new_conv_inv new i); FlipFlow])
            (seq 0 flows);
     post_pre := new_post_pre new;
     post_dds := new_post_dds new;
     post_proj := new_post_proj new;
     post_flows :=
       [ElementwiseAffineFlow (new_post_affine_fwd new) (new_post_affine_inv new)]
       ++ flat_map (λ i,
            [ConvFlow (new_post_conv_fwd new i) (new_post_conv_inv new i); FlipFlow])
            (seq 0 flows);
     global_conv :=
       if decide (0 < global_channels)%Z then Some (new_global_conv new)
       else None |}.

(** Lines 130-135: the conditioning feature, before the mode branch. *)
Definition condition (self : t) (masks : dropout_masks) (x x_mask : tensor)
    (g : option tensor) : res tensor :=
  let x := torch.detach x in
  x ← pre self x;
  x ← match g with
      | Some g =>
          match global_conv self with
          | Some global_conv => gx ← global_conv (torch.detach g); torch.add x gx
          | None => Raise (AttributeError "global_conv")
          end
      | None => Ok x
      end;
  x ← dds self (dds_masks masks) x x_mask;
  proj self x ≫= (λ p, torch.mul p x_mask).

(** [0.5 * (math.log(2 * math.pi) + z**2)] and its negative *)
Definition half_log_normal (v : R) : R := (0.5 * (ln (2 * PI) + v ^ 2))%R.
Definition neg_half_log_normal (v : R) : R := (- 0.5 * (ln (2 * PI) + v ^ 2))%R.

(** Lines 138-177: the likelihood branch. *)
Definition likelihood (self : t) (randn : nat → nat → nat → tensor)
    (masks : dropout_masks) (x x_mask : tensor) (w : option tensor) : res vec :=
  match w with
  | None => Raise (AssertionError "w must be provided.")
  | Some w =>
      h_w ← post_pre self w;
      h_w ← post_dds self (post_dds_masks masks) h_w x_mask;
      h_w ← post_proj self h_w ≫= (λ p, torch.mul p x_mask);
      e_q ← torch.mul (randn (torch.size0 w) 2 (torch.size2 w)) x_mask;
      let z_q := e_q in
      let logdet_tot_q := Float 0 in
      '(z_q, logdet_tot_q) ←
        for_ (post_flows self)
          (λ '(z_q, logdet_tot_q) flow,
             g ← torch.add x h_w;
             '(z_q, logdet_q) ← call flow z_q x_mask (Some g) false ≫= unpack_pair;
             logdet_tot_q ← num_add logdet_tot_q logdet_q;
             Ok (z_q, logdet_tot_q))
          (z_q, logdet_tot_q);
      '(z_u, z1) ← torch.split_sizes 1 1 z_q ≫= unpack2;
      u ← torch.mul (torch.tmap torch.sigmoid z_u) x_mask;
      z0 ← torch.sub w u ≫= (λ d, torch.mul d x_mask);
      ls ← torch.add (torch.tmap torch.logsigmoid z_u)
                     (torch.tmap torch.logsigmoid (torch.neg z_u));
      ls ← torch.mul ls x_mask;
      logdet_tot_q ← num_add logdet_tot_q (torch.sum12 ls);
      nq ← torch.mul (torch.tmap neg_half_log_normal e_q) x_mask;
      logq ← num_rsub (torch.sum12 nq) logdet_tot_q;
      let logdet_tot := Float 0 in
      '(z0, logdet) ← log_flow self z0 x_mask;
      logdet_tot ← num_add logdet_tot logdet;
      z ← torch.cat z0 z1;
      '(z, logdet_tot) ←
        for_ (flows self)
          (λ '(z, logdet_tot) flow,
             '(z, logdet) ← call flow z x_mask (Some x) false ≫= unpack_pair;
             logdet_tot ← num_add logdet_tot logdet;
             Ok (z, logdet_tot))
          (z, logdet_tot);
      nz ← torch.mul (torch.tmap half_log_normal z) x_mask;
      nll ← num_rsub (torch.sum12 nz) logdet_tot;
      torch.vadd nll logq
  end.

(** Lines 179-180: the flows of the sampling branch. *)
Definition sampling_flows (self : t) : res (list Flow) :=
  let flows := reverse (flows self) in
  match last flows with
  | Some flows_last => Ok (take (length flows - 2) flows ++ [flows_last])
  | None => Raise (IndexError "list index out of range")
  end.

(** Lines 179-193: the sampling branch. *)
Definition sampling (self : t) (randn : nat → nat → nat → tensor)
    (x x_mask : tensor) (noise_scale : R) : res tensor :=
  flows ← sampling_flows self;
  let z := torch.scale noise_scale (randn (torch.size0 x) 2 (torch.size2 x)) in
  z ← for_ flows (λ z flow, call flow z x_mask (Some x) true ≫= as_tensor) z;
  '(z0, z1) ← torch.split 1 z ≫= unpack2;
  let logw := z0 in
  Ok logw.

(** [forward]; what the generator yields in this call is given: [randn b c t]
    is the standard-normal draw that [torch.randn(b, c, t)] returns, [masks]
    holds the dropout masks. *)
Definition forward (self : t) (randn : nat → nat → nat → tensor)
    (masks : dropout_masks) (x x_mask : tensor) (w g : option tensor)
    (inverse : bool) (noise_scale : R) : res output :=
  x ← condition self masks x x_mask g;
  if negb inverse then Nll <$> likelihood self randn masks x x_mask w
  else LogDuration <$> sampling self randn x x_mask noise_scale.

End StochasticDurationPredictor.

(** ** local_fbank/compute_fbank_ljspeech.py *)

Module compute_fbank_ljspeech.

(** The calls that reach outside the process, in the order they are made. *)
Inductive event :=
| load_manifest (path : string)
| get_executor
| is_file (path : string)
| logging_info (msg : string)
| from_manifests
| resample (sampling_rate : Z)
| compute_and_store_features (storage_path : string) (num_jobs : Z)
| to_file (path : string).

Record FbankConfig := {
  num_mel_bins : Z;
  sampling_rate : Z;
  frame_length : R;
  frame_shift : R;
}.

(** [Path(a) / b] *)
Definition path_join (a b : string) : string := a +:+ "/" +:+ b.

Section script.

(** lhotse, icefall.utils and the operating system: the types of manifests,
    cut sets and file contents, and what each call computes.  Every lhotse
    call may raise; the two that write, [compute_and_store_features] and
    [to_file], give the files they leave behind whether they return or
    raise. *)
Variables manifest cut_set content executor : Type.
Variable os_cpu_count : option Z.
Variable executor_of : option executor.
Variable read_manifest : gmap string content → string → res manifest.
Variable cuts_from_manifests : manifest → manifest → res cut_set.
Variable cuts_resample : cut_set → Z → res cut_set.
Variable store_features :
  cut_set → FbankConfig → string → Z → option executor →
  gmap string content → res cut_set * gmap string content.
Variable write_cuts :
  cut_set → string → gmap string content → res () * gmap string content.

(** The regular files by path, and the calls made so far. *)
Record world := {
  files : gmap string content;
  events : list event;
}.

(** State and exceptions: a raised exception keeps the world it left. *)
Definition io (A : Type) : Type := world → res A * world.

#[local] Instance io_ret : MRet io := λ A a w, (Ok a, w).
#[local] Instance io_bind : MBind io :=
  λ A B k m w, match m w with
               | (Ok a, w') => k a w'
               | (Raise e, w') => (Raise e, w')
               end.

Definition emit (e : event) : io () :=
  λ w, (Ok (), {| files := files w; events := events w ++ [e] |}).
Definition lift {A} (r : res A) : io A := λ w, (r, w).
Definition get_files : io (gmap string content) := λ w, (Ok (files w), w).
(** A call that works on the files: its result, and the files it leaves. *)
Definition on_files {A}
    (call : gmap string content → res A * gmap string content) : io A :=
  λ w, let '(r, fs) := call (files w) in (r, {| files := fs; events := events w |}).

Definition compute_spectrogram_ljspeech : io () :=
  let src_dir := "data/manifests" in
  let output_dir := "data/fbank" in
  num_jobs ← lift (match os_cpu_count with
                    | Some n => Ok (4 `min` n)%Z
                    | None => Raise (TypeError "'<' not supported between instances of 'NoneType' and 'int'")
                    end);
  let num_mel_bins := 80%Z in
  let prefix := "ljspeech" in
  let suffix := "jsonl.gz" in
  let partition := "all" in
  let sampling_rate := 16000%Z in
  let frame_length := (1024 / IZR sampling_rate)%R in
  let frame_shift := (256 / IZR sampling_rate)%R in
  let recordings_path :=
    path_join src_dir (prefix +:+ "_recordings_" +:+ partition +:+ "." +:+ suffix) in
  emit (load_manifest recordings_path);;
  fs ← get_files;
  recordings ← lift (read_manifest fs recordings_path);
  let supervisions_path :=
    path_join src_dir (prefix +:+ "_supervisions_" +:+ partition +:+ "." +:+ suffix) in
  emit (load_manifest supervisions_path);;
  fs ← get_files;
  supervisions ← lift (read_manifest fs supervisions_path);
  let extractor :=
    {| num_mel_bins := num_mel_bins;
       sampling_rate := sampling_rate;
       frame_length := frame_length;
       frame_shift := frame_shift |} in
  emit get_executor;;
  let ex := executor_of in
  let cuts_filename := prefix +:+ "_cuts_" +:+ partition +:+ "." +:+ suffix in
  emit (is_file (path_join output_dir cuts_filename));;
  fs ← get_files;
  if bool_decide (is_Some (fs !! path_join output_dir cuts_filename)) then
    emit (logging_info (cuts_filename +:+ " already exists - skipping."));;
    mret ()
  else
    emit (logging_info ("Processing " +:+ partition));;
    emit from_manifests;;
    cut_set ← lift (cuts_from_manifests recordings supervisions);
    emit (resample sampling_rate);;
    cut_set ← lift (cuts_resample cut_set sampling_rate);
    let storage_path := output_dir +:+ "/" +:+ prefix +:+ "_feats_" +:+ partition in
    let jobs := match ex with None => num_jobs | Some _ => 80%Z end in
    emit (compute_and_store_features storage_path jobs);;
    cut_set ← on_files (store_features cut_set extractor storage_path jobs ex);
    emit (to_file (path_join output_dir cuts_filename));;
    on_files (write_cuts cut_set (path_join output_dir cuts_filename)).

End script.

(** The calls that build the output: the cut set, its features, the cuts
    file. *)
Definition builds_output (e : event) : Prop :=
  match e with
  | from_manifests | resample _ | compute_and_store_features _ _ | to_file _ => True
  | load_manifest _ | get_executor | is_file _ | logging_info _ => False
  end.

End compute_fbank_ljspeech.

(** ** Notions the statements use *)

(** The mask holds zeros and ones. *)
Definition binary_mask (B T : nat) (x_mask : tensor) : Prop :=
  ∀ b t, b < B → t < T →
    get x_mask b 0 t = 0%R ∨ get x_mask b 0 t = 1%R.

(** [x] is zero wherever the mask is. *)
Definition masked (B C T : nat) (x x_mask : tensor) : Prop :=
  ∀ b c t, b < B → c < C → t < T →
    get x_mask b 0 t = 0%R → get x b c t = 0%R.

(** The sum over [C] channels and [T] frames. *)
Definition sum_ct (C T : nat) (F : nat → nat → R) : R :=
  sum_list ((λ c, sum_list (F c <$> seq 0 T)) <$> seq 0 C).

(** A flow of a block built without Transformer flows: a flip, or an affine
    coupling layer on [2 * h] channels whose modules keep the shape. *)
Definition affine_stage (h : nat) (flow : Flow) : Prop :=
  match flow with
  | FlipFlow => True
  | ResidualAffineCouplingLayer layer =>
      ResidualAffineCouplingLayer.half_channels layer = h
      ∧ ResidualAffineCouplingLayer.shape_contract layer
  | _ => False
  end.

(** [sampled] is [chain] reversed with one interior flip removed: the
    removed flow is a [FlipFlow], with flows before and after it. *)
Definition removes_interior_flip (chain sampled : list Flow) : Prop :=
  ∃ before after,
    before ≠ [] ∧ after ≠ []
    ∧ reverse chain = before ++ FlipFlow :: after
    ∧ sampled = before ++ after.

(** Run a chain of flows forward, collecting the log-determinants. *)
Fixpoint run_chain (flows : list Flow) (z x_mask : tensor) (g : option tensor)
    : res (tensor * list vec) :=
  match flows with
  | [] => Ok (z, [])
  | flow :: flows =>
      '(z, logdet) ← call flow z x_mask g false ≫= unpack_pair;
      '(z, logdets) ← run_chain flows z x_mask g;
      Ok (z, logdet :: logdets)
  end.

(** The entry for batch element [b] of an accumulator. *)
Definition num_at (acc : num) (b : nat) : R :=
  match acc with
  | Float r => r
  | Tensor1 v => nth b v 0%R
  end.

(** The sum over the log-determinants of a chain, for batch element [b]. *)
Definition sum_logdets (logdets : list vec) (b : nat) : R :=
  sum_list ((λ logdet : vec, nth b logdet 0%R) <$> logdets).

(** An accumulator fit for a batch of [B]: a number, or a [(B,)] tensor. *)
Definition acc_ok (B : nat) (acc : num) : Prop :=
  match acc with
  | Float _ => True
  | Tensor1 v => length v = B
  end.

(** A layer that takes every [(B, C, T)] tensor to a [(B', C', T')] one. *)
Definition maps_shape (f : tensor → res tensor) (B C T B' C' T' : nat) : Prop :=
  ∀ x, has_shape B C T x → ∃ y, f x = Ok y ∧ has_shape B' C' T' y.

(** A LayerNorm built for [F] channels. *)
Definition norm_over (F : nat) (norm : LayerNorm.t) : Prop :=
  LayerNorm.channels norm = F
  ∧ length (LayerNorm.gamma norm) = F
  ∧ length (LayerNorm.beta norm) = F.

(** The layers of a discriminator built by [__init__] with [in_channels],
    [filter_channels] and an odd [kernel_size], on batches of [B] sequences
    of [T] frames: the padding [kernel_size // 2] keeps the length. *)
Definition discriminator_layers (B in_channels filter_channels T : nat)
    (self : DurationDiscriminator.t) : Prop :=
  maps_shape (DurationDiscriminator.conv_1 self)
    B in_channels T B filter_channels T
  ∧ norm_over filter_channels (DurationDiscriminator.norm_1 self)
  ∧ maps_shape (DurationDiscriminator.conv_2 self)
      B filter_channels T B filter_channels T
  ∧ norm_over filter_channels (DurationDiscriminator.norm_2 self)
  ∧ maps_shape (DurationDiscriminator.dur_proj self)
      B 1 T B filter_channels T
  ∧ maps_shape (DurationDiscriminator.pre_out_conv_1 self)
      B (2 * filter_channels) T B filter_channels T
  ∧ norm_over filter_channels (DurationDiscriminator.pre_out_norm_1 self)
  ∧ maps_shape (DurationDiscriminator.pre_out_conv_2 self)
      B filter_channels T B filter_channels T
  ∧ norm_over filter_channels (DurationDiscriminator.pre_out_norm_2 self)
  ∧ maps_shape (DurationDiscriminator.output_linear self)
      B T filter_channels B T 1.

(** ** Small instances, for evaluation *)

Module Example.

(** Two utterances of one and two frames, padded to two; two channels. *)
Definition x : tensor :=
  [ [ [1%R; 0%R]; [2%R; 0%R] ];
    [ [3%R; 4%R]; [5%R; 6%R] ] ].
Definition x_mask : tensor :=
  [ [ [1%R; 0%R] ];
    [ [1%R; 1%R] ] ].
Definition xa : tensor := [ [ [1%R; 0%R] ]; [ [3%R; 4%R] ] ].
Definition xb : tensor := [ [ [2%R; 0%R] ]; [ [5%R; 6%R] ] ].

(** An affine layer with one hidden channel: the convolution and the
    encoder pass their input on, the projection doubles it into mean and
    log-scale. *)
Definition affine : ResidualAffineCouplingLayer.t :=
  {| ResidualAffineCouplingLayer.half_channels := 1;
     ResidualAffineCouplingLayer.use_only_mean := false;
     ResidualAffineCouplingLayer.input_conv := λ x, Ok x;
     ResidualAffineCouplingLayer.encoder := λ h _ _, Ok h;
     ResidualAffineCouplingLayer.proj := λ h, torch.cat h h |}.

(** A transformer layer as [__init__] leaves it, the projection zeroed,
    around a Transformer that returns its input. *)
Definition transformers : ResidualCouplingTransformersLayer.t :=
  {| ResidualCouplingTransformersLayer.half_channels := 1;
     ResidualCouplingTransformersLayer.use_only_mean := true;
     ResidualCouplingTransformersLayer.use_post_transformer := false;
     ResidualCouplingTransformersLayer.pre_transformer := λ x _, Ok x;
     ResidualCouplingTransformersLayer.input_conv := λ x, Ok x;
     ResidualCouplingTransformersLayer.encoder := λ h _ _, Ok h;
     ResidualCouplingTransformersLayer.post_transformer := None;
     ResidualCouplingTransformersLayer.proj := λ h, Ok (torch.zeros_like h) |}.

(** The modules of a duration predictor on one channel: every convolution
    passes its input on, every flow of flow.py is the identity with
    log-determinant zero. *)
Definition identity_fwd (x x_mask : tensor) (g : option tensor)
    : res (tensor * vec) :=
  Ok (x, torch.new_zeros (torch.size0 x)).
Definition identity_inv (x x_mask : tensor) (g : option tensor) : res tensor :=
  Ok x.

Definition modules : StochasticDurationPredictor.modules :=
  {| StochasticDurationPredictor.new_pre := λ x, Ok x;
     StochasticDurationPredictor.new_dds := λ _ x _, Ok x;
     StochasticDurationPredictor.new_proj := λ x, Ok x;
     StochasticDurationPredictor.new_log_flow :=
       λ x _, Ok (x, torch.new_zeros (torch.size0 x));
     StochasticDurationPredictor.new_affine_fwd := identity_fwd;
     StochasticDurationPredictor.new_affine_inv := identity_inv;
     StochasticDurationPredictor.new_conv_fwd := λ _, identity_fwd;
     StochasticDurationPredictor.new_conv_inv := λ _, identity_inv;
     StochasticDurationPredictor.new_post_pre := λ x, Ok x;
     StochasticDurationPredictor.new_post_dds := λ _ x _, Ok x;
     StochasticDurationPredictor.new_post_proj := λ x, Ok x;
     StochasticDurationPredictor.new_post_affine_fwd := identity_fwd;
     StochasticDurationPredictor.new_post_affine_inv := identity_inv;
     StochasticDurationPredictor.new_post_conv_fwd := λ _, identity_fwd;
     StochasticDurationPredictor.new_post_conv_inv := λ _, identity_inv;
     StochasticDurationPredictor.new_global_conv := λ g, Ok g |}.

(** A duration discriminator on two feature channels, every kernel of size
    one: the feature convolutions pass their input on, the others start from
    zero weights.  [Linear(2, 1)] on [(B, T, 2)] is the convolution on the
    transposed tensor. *)
Definition discriminator : DurationDiscriminator.t :=
  {| DurationDiscriminator.conv_1 := λ x, Ok x;
     DurationDiscriminator.norm_1 := LayerNorm.init 2 LayerNorm.default_eps;
     DurationDiscriminator.conv_2 := λ x, Ok x;
     DurationDiscriminator.norm_2 := LayerNorm.init 2 LayerNorm.default_eps;
     DurationDiscriminator.dur_proj := torch.conv1d (torch.zeroed_conv1d 1 2);
     DurationDiscriminator.pre_out_conv_1 :=
       torch.conv1d (torch.zeroed_conv1d 4 2);
     DurationDiscriminator.pre_out_norm_1 :=
       LayerNorm.init 2 LayerNorm.default_eps;
     DurationDiscriminator.pre_out_conv_2 := λ x, Ok x;
     DurationDiscriminator.pre_out_norm_2 :=
       LayerNorm.init 2 LayerNorm.default_eps;
     DurationDiscriminator.output_linear := λ x,
       torch.transpose
         <$> torch.conv1d (torch.zeroed_conv1d 2 1) (torch.transpose x) |}.

(** A predictor in training mode.  Its stack [dds] has one layer, reduced
    to what the spec gives for every layer: dropout (rate 0.5) and residual
    add, under the mask before and after.  Its convolutional flows shift both
    channels by the conditioning feature. *)
Definition dropout_dds (masks : list tensor) (x x_mask : tensor) : res tensor :=
  match masks with
  | [mask] =>
      y ← torch.mul x x_mask ≫= torch.dropout (1 / 2) true mask;
      x ← torch.add x y;
      torch.mul x x_mask
  | _ => Raise (RuntimeError "one dropout mask for each layer")
  end.
Definition shift_inv (z x_mask : tensor) (g : option tensor) : res tensor :=
  match g with
  | Some g => torch.add z g
  | None => Ok z
  end.
Definition training_modules : StochasticDurationPredictor.modules :=
  {| StochasticDurationPredictor.new_pre := λ x, Ok x;
     StochasticDurationPredictor.new_dds := dropout_dds;
     StochasticDurationPredictor.new_proj := λ x, Ok x;
     StochasticDurationPredictor.new_log_flow :=
       λ x _, Ok (x, torch.new_zeros (torch.size0 x));
     StochasticDurationPredictor.new_affine_fwd := identity_fwd;
     StochasticDurationPredictor.new_affine_inv := identity_inv;
     StochasticDurationPredictor.new_conv_fwd := λ _, identity_fwd;
     StochasticDurationPredictor.new_conv_inv := λ _, shift_inv;
     StochasticDurationPredictor.new_post_pre := λ x, Ok x;
     StochasticDurationPredictor.new_post_dds := λ _ x _, Ok x;
     StochasticDurationPredictor.new_post_proj := λ x, Ok x;
     StochasticDurationPredictor.new_post_affine_fwd := identity_fwd;
     StochasticDurationPredictor.new_post_affine_inv := identity_inv;
     StochasticDurationPredictor.new_post_conv_fwd := λ _, identity_fwd;
     StochasticDurationPredictor.new_post_conv_inv := λ _, identity_inv;
     StochasticDurationPredictor.new_global_conv := λ g, Ok g |}.

(** Two draws of the dropout mask of [dds]: every entry kept, every entry
    dropped. *)
Definition keep_all : StochasticDurationPredictor.dropout_masks :=
  {| StochasticDurationPredictor.dds_masks := [mk 2 1 2 (λ _ _ _, 1%R)];
     StochasticDurationPredictor.post_dds_masks := [] |}.
Definition drop_all : StochasticDurationPredictor.dropout_masks :=
  {| StochasticDurationPredictor.dds_masks := [mk 2 1 2 (λ _ _ _, 0%R)];
     StochasticDurationPredictor.post_dds_masks := [] |}.

(** Another draw of the generator: zero everywhere. *)
Definition randn_zero (b c t : nat) : tensor := mk b c t (λ _ _ _, 0%R).

(** No dropout mask drawn: a module in evaluation mode. *)
Definition no_masks : StochasticDurationPredictor.dropout_masks :=
  {| StochasticDurationPredictor.dds_masks := [];
     StochasticDurationPredictor.post_dds_masks := [] |}.

(** One text feature channel for the two utterances, and their durations. *)
Definition text : tensor := [ [ [7%R; 0%R] ]; [ [8%R; 9%R] ] ].
Definition w : tensor := [ [ [2%R; 0%R] ]; [ [3%R; 1%R] ] ].

(** A draw of the generator: the same table for every shape. *)
Definition randn (b c t : nat) : tensor :=
  mk b c t (λ _ c _, if decide (c = 0) then 1%R else (-1)%R).

(** A file system that holds the cuts file and nothing else, with manifests
    read as the text of their file. *)
Definition files : gmap string string :=
  {[ "data/fbank/ljspeech_cuts_all.jsonl.gz" := "cuts" ]}.
Definition read_manifest (fs : gmap string string) (path : string) : res string :=
  match fs !! path with
  | Some text => Ok text
  | None => Raise (AssertionError ("No such path: " +:+ path))
  end.

(** A file system that holds the two manifests and no cuts file, a feature
    store that writes one file at its storage path, and a [to_file] that
    writes the cut set at its path. *)
Definition manifests : gmap string string :=
  <[ "data/manifests/ljspeech_recordings_all.jsonl.gz" := "recordings" ]>
    {[ "data/manifests/ljspeech_supervisions_all.jsonl.gz" := "supervisions" ]}.
Definition from_manifests (recordings supervisions : string) : res string :=
  Ok (recordings +:+ supervisions).
Definition resample (cuts : string) (sampling_rate : Z) : res string := Ok cuts.
Definition store_features (cuts : string)
    (extractor : compute_fbank_ljspeech.FbankConfig) (storage_path : string)
    (num_jobs : Z) (ex : option unit) (fs : gmap string string)
    : res string * gmap string string :=
  (Ok cuts, <[ storage_path := "features" ]> fs).
Definition write_cuts (cuts path : string) (fs : gmap string string)
    : res () * gmap string string :=
  (Ok (), <[ path := cuts ]> fs).

(** A disk that fills up: [to_file] leaves a part of the cuts file and
    raises. *)
Definition write_cuts_full (cuts path : string) (fs : gmap string string)
    : res () * gmap string string :=
  (Raise (RuntimeError "No space left on device"), <[ path := "rec" ]> fs).

(** The script on these, on a machine of eight cores without an executor. *)
Definition compute_spectrogram_ljspeech
    : compute_fbank_ljspeech.io string () :=
  compute_fbank_ljspeech.compute_spectrogram_ljspeech
    string string string unit (Some 8%Z) None read_manifest
    from_manifests resample store_features write_cuts.

End Example.

(** * Proofs *)

(** ** The error monad *)

Lemma mapM_fmap_Ok {I A B} (k : A → res B) (F : I → A) (H : I → B) (l : list I) :
  (∀ i, i ∈ l → k (F i) = Ok (H i)) → mapM k (F <$> l) = Ok (H <$> l).
Proof.
  induction l as [|i l IH]; intros Hk; [done|].
  cbn. rewrite Hk by left. cbn.
  rewrite IH by (intros; apply Hk; by right). done.
Qed.

Lemma bind_Ok {A B} (m : res A) (f : A → res B) (b : B) :
  m ≫= f = Ok b → ∃ a, m = Ok a ∧ f a = Ok b.
Proof. destruct m as [a|e]; [|done]. cbn. eauto. Qed.

(** Invert a chain of binds that returned. *)
Ltac inv_bind H :=
  repeat first
    [ apply bind_Ok in H as (? & ? & H)
    | match type of H with
      | (let '(_, _) := ?p in _) = _ => destruct p
      end
    | progress cbn beta iota in H ].

Lemma for_app {A S} (l1 l2 : list A) (body : S → A → res S) (s : S) :
  for_ (l1 ++ l2) body s = for_ l1 body s ≫= for_ l2 body.
Proof.
  revert s. induction l1 as [|a l1 IH]; intros s; [done|].
  cbn. destruct (body s a) as [s'|e]; cbn; [apply IH|done].
Qed.

(** ** Broadcasting on tabulated lists *)

Lemma broadcast_fmap {A B C I} (f : A → B → res C)
    (F : I → A) (G : I → B) (H : I → C) (l : list I) :
  (∀ i, i ∈ l → f (F i) (G i) = Ok (H i)) →
  torch.broadcast f (F <$> l) (G <$> l) = Ok (H <$> l).
Proof.
  intros Hf. unfold torch.broadcast.
  rewrite decide_True by (by rewrite !length_fmap).
  induction l as [|i l IH]; [done|].
  cbn. rewrite Hf by left. cbn.
  rewrite IH by (intros; apply Hf; by right). done.
Qed.

Lemma broadcast_fmap_one {A B C I} (f : A → B → res C)
    (F : I → A) (y : B) (H : I → C) (l : list I) :
  (∀ i, i ∈ l → f (F i) y = Ok (H i)) →
  torch.broadcast f (F <$> l) [y] = Ok (H <$> l).
Proof.
  intros Hf. unfold torch.broadcast.
  destruct l as [|i [|j l]].
  - by rewrite decide_False by (cbn; lia).
  - rewrite decide_True by done. cbn. rewrite Hf by left. done.
  - rewrite decide_False by (cbn; lia).
    change (F <$> i :: j :: l) with (F i :: F j :: (F <$> l)). cbv iota beta.
    change (F i :: F j :: (F <$> l)) with (F <$> i :: j :: l).
    by apply mapM_fmap_Ok.
Qed.

(** ** Tensors as tables *)

Lemma nth_fmap_seq {A} (f : nat → A) (d : A) (n i : nat) :
  i < n → nth i (f <$> seq 0 n) d = f i.
Proof.
  intros Hi. rewrite nth_lookup, list_lookup_fmap, lookup_seq_lt by done. done.
Qed.

Lemma fmap_seq_ext {A} (f g : nat → A) (n : nat) :
  (∀ i, i < n → f i = g i) → f <$> seq 0 n = g <$> seq 0 n.
Proof.
  intros Hfg. apply list_fmap_ext. intros i x [-> ?]%lookup_seq. by apply Hfg.
Qed.

Lemma list_tabulate {A} (d : A) (l : list A) (n : nat) :
  length l = n → l = (λ i, nth i l d) <$> seq 0 n.
Proof.
  intros <-. apply list_eq. intros i.
  rewrite list_lookup_fmap.
  destruct (decide (i < length l)) as [Hi|Hi].
  - rewrite lookup_seq_lt by done. cbn.
    destruct (lookup_lt_is_Some_2 l i Hi) as [a Ha].
    by rewrite (nth_lookup_Some _ _ _ _ Ha).
  - rewrite lookup_ge_None_2 by lia. by rewrite lookup_seq_ge by lia.
Qed.

Lemma seq_from (j n : nat) : seq j n = Nat.add j <$> seq 0 n.
Proof. by rewrite fmap_add_seq, Nat.add_0_r. Qed.

Lemma const_fmap_seq {A} (a : A) (n j : nat) :
  (λ _, a) <$> seq j n = replicate n a.
Proof.
  revert j. induction n as [|n IH]; intros j; [done|]. cbn. by rewrite IH.
Qed.

Lemma mk_ext (B C T : nat) (f g : nat → nat → nat → R) :
  (∀ b c t, b < B → c < C → t < T → f b c t = g b c t) →
  mk B C T f = mk B C T g.
Proof.
  intros Hfg. unfold mk.
  apply fmap_seq_ext; intros b Hb.
  apply fmap_seq_ext; intros c Hc.
  apply fmap_seq_ext; intros t Ht. by apply Hfg.
Qed.

Lemma get_mk (B C T : nat) (f : nat → nat → nat → R) (b c t : nat) :
  b < B → c < C → t < T → get (mk B C T f) b c t = f b c t.
Proof.
  intros Hb Hc Ht. unfold get, mk.
  rewrite (nth_fmap_seq _ _ B b Hb), (nth_fmap_seq _ _ C c Hc).
  by apply nth_fmap_seq.
Qed.

Lemma has_shape_mk (B C T : nat) (f : nat → nat → nat → R) :
  has_shape B C T (mk B C T f).
Proof.
  unfold has_shape, mk. split; [by rewrite length_fmap, length_seq|].
  apply Forall_fmap, Forall_forall. intros b _. cbn.
  split; [by rewrite length_fmap, length_seq|].
  apply Forall_fmap, Forall_forall. intros c _. cbn.
  by rewrite length_fmap, length_seq.
Qed.

Lemma mk_get (B C T : nat) (x : tensor) :
  has_shape B C T x → x = mk B C T (get x).
Proof.
  intros [HB HF]. unfold mk, get.
  rewrite (list_tabulate [] x B HB) at 1.
  apply fmap_seq_ext; intros b Hb.
  assert (nth b x [] ∈ x) as Hin.
  { apply list_elem_of_In, nth_In. lia. }
  rewrite Forall_forall in HF. destruct (HF _ Hin) as [HC HR].
  rewrite (list_tabulate [] (nth b x []) C HC) at 1.
  apply fmap_seq_ext; intros c Hc.
  assert (nth c (nth b x []) [] ∈ nth b x []) as Hin'.
  { apply list_elem_of_In, nth_In. lia. }
  rewrite Forall_forall in HR.
  by apply list_tabulate, HR.
Qed.

Lemma size0_mk B C T f : torch.size0 (mk B C T f) = B.
Proof. unfold torch.size0, mk. by rewrite length_fmap, length_seq. Qed.

Lemma size1_mk B C T f : 0 < B → torch.size1 (mk B C T f) = C.
Proof.
  intros HB. destruct B as [|B]; [lia|].
  unfold torch.size1, mk. cbn. by rewrite length_fmap, length_seq.
Qed.

Lemma size2_mk B C T f : 0 < B → 0 < C → torch.size2 (mk B C T f) = T.
Proof.
  intros HB HC. destruct B as [|B]; [lia|]. destruct C as [|C]; [lia|].
  unfold torch.size2, mk. cbn. by rewrite length_fmap, length_seq.
Qed.

(** ** PyTorch operations on tables *)

Lemma pointwise_mk (op : R → R → R) (B C T : nat) (f g : nat → nat → nat → R) :
  torch.pointwise op (mk B C T f) (mk B C T g)
  = Ok (mk B C T (λ b c t, op (f b c t) (g b c t))).
Proof.
  unfold torch.pointwise, mk.
  apply broadcast_fmap; intros b _.
  apply broadcast_fmap; intros c _.
  by apply broadcast_fmap.
Qed.

(** A tensor times (plus, minus) a [(B, 1, T)] tensor: the one channel is
    expanded. *)
Lemma pointwise_mk_mask (op : R → R → R) (B C T : nat)
    (f g : nat → nat → nat → R) :
  torch.pointwise op (mk B C T f) (mk B 1 T g)
  = Ok (mk B C T (λ b c t, op (f b c t) (g b 0 t))).
Proof.
  unfold torch.pointwise, mk.
  apply broadcast_fmap; intros b _. cbn.
  apply broadcast_fmap_one; intros c _.
  by apply broadcast_fmap.
Qed.

Lemma mul_mk B C T f g :
  torch.mul (mk B C T f) (mk B C T g) = Ok (mk B C T (λ b c t, f b c t * g b c t)%R).
Proof. apply pointwise_mk. Qed.

Lemma add_mk B C T f g :
  torch.add (mk B C T f) (mk B C T g) = Ok (mk B C T (λ b c t, f b c t + g b c t)%R).
Proof. apply pointwise_mk. Qed.

Lemma sub_mk B C T f g :
  torch.sub (mk B C T f) (mk B C T g) = Ok (mk B C T (λ b c t, f b c t - g b c t)%R).
Proof. apply pointwise_mk. Qed.

Lemma mul_mk_mask B C T f g :
  torch.mul (mk B C T f) (mk B 1 T g) = Ok (mk B C T (λ b c t, f b c t * g b 0%nat t)%R).
Proof. apply pointwise_mk_mask. Qed.

Lemma tmap_mk (u : R → R) (B C T : nat) (f : nat → nat → nat → R) :
  torch.tmap u (mk B C T f) = mk B C T (λ b c t, u (f b c t)).
Proof.
  unfold torch.tmap, mk.
  rewrite <- list_fmap_compose. apply fmap_seq_ext; intros b _. cbn.
  rewrite <- list_fmap_compose. apply fmap_seq_ext; intros c _. cbn.
  by rewrite <- list_fmap_compose.
Qed.

Lemma split_mk_size (B h T : nat) (f : nat → nat → nat → R) :
  0 < B → 0 < h →
  torch.split h (mk B (2 * h) T f)
  = Ok [mk B h T f; mk B h T (λ b c t, f b (h + c) t)].
Proof.
  intros HB Hh.
  unfold torch.split. rewrite decide_False by lia.
  rewrite size1_mk by done.
  replace ((2 * h + h - 1) / h) with 2
    by (apply (Nat.div_unique _ _ _ (h - 1)); lia).
  cbn [Nat.max seq fmap list_fmap]. do 3 f_equal.
  - unfold mk. rewrite <- list_fmap_compose. apply fmap_seq_ext; intros b _. cbn.
    rewrite drop_0, <- fmap_take, take_seq. by replace (h `min` (h + (h + 0))) with h by lia.
  - unfold mk. rewrite <- list_fmap_compose. apply fmap_seq_ext; intros b _. cbn.
    rewrite Nat.add_0_r, <- fmap_drop, <- fmap_take, drop_seq, take_seq.
    replace (h `min` (h + h - h)) with h by lia.
    rewrite ?Nat.add_0_l, (seq_from h h), <- list_fmap_compose. done.
Qed.

Lemma split_mk (B h T : nat) (f : nat → nat → nat → R) :
  0 < B → 0 < h →
  torch.split (torch.size1 (mk B (2 * h) T f) / 2) (mk B (2 * h) T f)
  = Ok [mk B h T f; mk B h T (λ b c t, f b (h + c) t)].
Proof.
  intros HB Hh. rewrite size1_mk by done.
  replace (2 * h / 2) with h by (apply Nat.div_unique_exact; lia).
  by apply split_mk_size.
Qed.

Lemma split_sizes_mk (B T : nat) (f : nat → nat → nat → R) :
  0 < B →
  torch.split_sizes 1 1 (mk B 2 T f)
  = Ok [mk B 1 T f; mk B 1 T (λ b c t, f b (1 + c) t)].
Proof.
  intros HB. unfold torch.split_sizes.
  rewrite size1_mk by done. rewrite decide_True by done.
  do 2 f_equal; [|f_equal];
    unfold mk; rewrite <- list_fmap_compose; by apply fmap_seq_ext.
Qed.

Lemma cat_mk (B h T : nat) (f g : nat → nat → nat → R) :
  0 < h →
  torch.cat (mk B h T f) (mk B h T g)
  = Ok (mk B (2 * h) T (λ b c t, if decide (c < h) then f b c t else g b (c - h) t)).
Proof.
  intros Hh. unfold torch.cat. rewrite !size0_mk.
  destruct (decide (0 < B)) as [HB|HB].
  - rewrite !size2_mk by done. rewrite decide_True by done. f_equal.
    unfold mk. rewrite zip_with_fmap_l, zip_with_fmap_r, zip_with_diag.
    apply fmap_seq_ext; intros b _.
    replace (2 * h) with (h + h) by lia.
    rewrite seq_app, fmap_app. f_equal.
    + apply list_fmap_ext. intros i c [-> ?]%lookup_seq. cbn.
      apply fmap_seq_ext; intros t _. by rewrite decide_True by lia.
    + rewrite ?Nat.add_0_l, (seq_from h h), <- list_fmap_compose.
      apply list_fmap_ext. intros i c [-> ?]%lookup_seq. cbn.
      apply fmap_seq_ext; intros t _.
      rewrite decide_False by lia. by replace (h + i - h) with i by lia.
  - replace B with 0 by lia. done.
Qed.

Lemma flip_mk (B C T : nat) (f : nat → nat → nat → R) :
  torch.flip (mk B C T f) = mk B C T (λ b c t, f b (C - 1 - c) t).
Proof.
  unfold torch.flip, mk.
  rewrite <- list_fmap_compose. apply fmap_seq_ext; intros b _.
  unfold compose. rewrite <- fmap_reverse.
  apply list_eq. intros i. rewrite !list_lookup_fmap.
  destruct (decide (i < C)) as [Hi|Hi].
  - rewrite reverse_lookup by (rewrite length_seq; lia).
    rewrite length_seq, !lookup_seq_lt by lia. cbn. do 3 f_equal. lia.
  - rewrite (lookup_ge_None_2 (reverse _)) by (rewrite length_reverse, length_seq; lia).
    by rewrite lookup_seq_ge by lia.
Qed.

Lemma sum_list_app (l1 l2 : list R) :
  sum_list (l1 ++ l2) = (sum_list l1 + sum_list l2)%R.
Proof.
  unfold sum_list. induction l1 as [|a l1 IH]; cbn; [lra|]. rewrite IH. lra.
Qed.

Lemma sum_list_concat (ls : list (list R)) :
  sum_list (concat ls) = sum_list (sum_list <$> ls).
Proof.
  induction ls as [|l ls IH]; [done|].
  cbn [concat fmap list_fmap]. rewrite sum_list_app, IH. done.
Qed.

Lemma sum12_mk (B C T : nat) (f : nat → nat → nat → R) :
  torch.sum12 (mk B C T f) = (λ b, sum_ct C T (f b)) <$> seq 0 B.
Proof.
  unfold torch.sum12, mk. rewrite <- list_fmap_compose.
  apply fmap_seq_ext; intros b _. cbn.
  unfold sum_ct. by rewrite sum_list_concat, <- list_fmap_compose.
Qed.

Lemma sum_ct_ext (C T : nat) (F G : nat → nat → R) :
  (∀ c t, c < C → t < T → F c t = G c t) → sum_ct C T F = sum_ct C T G.
Proof.
  intros HFG. unfold sum_ct. f_equal.
  apply fmap_seq_ext; intros c Hc. f_equal.
  apply fmap_seq_ext; intros t Ht. by apply HFG.
Qed.

Lemma sum_list_zero (l : list R) :
  Forall (λ a, a = 0%R) l → sum_list l = 0%R.
Proof.
  unfold sum_list. induction 1 as [|a l -> _ IH]; cbn; [done|]. rewrite IH. lra.
Qed.

Lemma sum_ct_zero (C T : nat) : sum_ct C T (λ _ _, 0%R) = 0%R.
Proof.
  unfold sum_ct. apply sum_list_zero, Forall_fmap, Forall_forall.
  intros c _. cbn. apply sum_list_zero, Forall_fmap, Forall_forall. done.
Qed.

(** ** ResidualAffineCouplingLayer *)

Section affine_layer.

Import ResidualAffineCouplingLayer.

Variable self : t.
Variables B T : nat.
Variable g : option tensor.
Variables fx fm fs : nat → nat → nat → R.

Let h := half_channels self.
Let x := mk B (2 * h) T fx.
Let x_mask := mk B 1 T fm.

(** The mean and the log-scale, entry by entry. *)
Let M (b c t : nat) : R := (fs b c t * fm b 0 t)%R.
Let L (b c t : nat) : R :=
  if use_only_mean self then 0%R else (fs b (h + c) t * fm b 0 t)%R.

Hypothesis HB : 0 < B.
Hypothesis Hh : 0 < h.
Hypothesis Hstats :
  statistics self (mk B h T fx) x_mask g = Ok (mk B (stats_channels self) T fs).

Lemma affine_forward_eval :
  forward self x x_mask g false
  = Ok (WithLogdet
          (mk B (2 * h) T (λ b c t,
             if decide (c < h) then fx b c t
             else (M b (c - h) t
                   + fx b (h + (c - h)) t * exp (L b (c - h) t) * fm b 0 t)%R))
          ((λ b, sum_ct h T (L b)) <$> seq 0 B)).
Proof.
  revert Hstats. unfold forward, statistics, stats_channels, L, x, x_mask. fold h.
  rewrite split_mk by done. cbn [mbind res_bind unpack2].
  destruct (input_conv self (mk B h T fx)) as [h0|]; [|done]. cbn [mbind res_bind].
  destruct (torch.mul h0 _) as [h1|]; [|done]. cbn [mbind res_bind].
  destruct (encoder self h1 _ g) as [h2|]; [|done]. cbn [mbind res_bind].
  intros ->. cbn [mbind res_bind].
  destruct (use_only_mean self); cbn [negb];
    rewrite mul_mk_mask; cbn [mbind res_bind];
    rewrite ?split_mk by done; cbn [mbind res_bind unpack2];
    unfold torch.zeros_like, torch.exp;
    rewrite !tmap_mk, mul_mk; cbn [mbind res_bind];
    rewrite mul_mk_mask; cbn [mbind res_bind];
    rewrite add_mk; cbn [mbind res_bind];
    rewrite cat_mk by done; cbn [mbind res_bind];
    by rewrite sum12_mk.
Qed.

Lemma affine_inverse_eval :
  forward self x x_mask g true
  = Ok (Plain
          (mk B (2 * h) T (λ b c t,
             if decide (c < h) then fx b c t
             else ((fx b (h + (c - h)) t - M b (c - h) t)
                   * exp (- L b (c - h) t) * fm b 0 t)%R))).
Proof.
  revert Hstats. unfold forward, statistics, stats_channels, L, x, x_mask. fold h.
  rewrite split_mk by done. cbn [mbind res_bind unpack2].
  destruct (input_conv self (mk B h T fx)) as [h0|]; [|done]. cbn [mbind res_bind].
  destruct (torch.mul h0 _) as [h1|]; [|done]. cbn [mbind res_bind].
  destruct (encoder self h1 _ g) as [h2|]; [|done]. cbn [mbind res_bind].
  intros ->. cbn [mbind res_bind].
  destruct (use_only_mean self); cbn [negb];
    rewrite mul_mk_mask; cbn [mbind res_bind];
    rewrite ?split_mk by done; cbn [mbind res_bind unpack2];
    unfold torch.zeros_like, torch.exp, torch.neg;
    rewrite !tmap_mk, sub_mk; cbn [mbind res_bind];
    rewrite mul_mk; cbn [mbind res_bind];
    rewrite mul_mk_mask; cbn [mbind res_bind];
    by rewrite cat_mk by done.
Qed.

End affine_layer.

Lemma exp_cancel (a : R) : (exp a * exp (- a))%R = 1%R.
Proof. rewrite exp_Ropp. apply Rinv_r, Rgt_not_eq, exp_pos. Qed.

Section affine_layer_shaped.

Import ResidualAffineCouplingLayer.

Variable self : t.
Variables B T : nat.
Variable g : option tensor.
Variables x x_mask : tensor.

Let h := half_channels self.

Hypothesis HB : 0 < B.
Hypothesis Hh : 0 < h.
Hypothesis Hx : has_shape B (2 * h) T x.
Hypothesis Hmask : has_shape B 1 T x_mask.
Hypothesis Hcontract : shape_contract self.

Lemma affine_split :
  torch.split (torch.size1 x / 2) x
  = Ok [mk B h T (get x); mk B h T (λ b c t, get x b (h + c) t)].
Proof. rewrite (mk_get _ _ _ _ Hx) at 1 2. by apply split_mk. Qed.

(** When [forward] returns, the statistics were computed, with the shape of
    the contract. *)
Lemma affine_forward_statistics (inverse : bool) (out : flow_out) :
  forward self x x_mask g inverse = Ok out →
  ∃ s, statistics self (mk B h T (get x)) x_mask g = Ok s
       ∧ has_shape B (stats_channels self) T s.
Proof.
  unfold forward. rewrite affine_split. cbn [mbind res_bind unpack2].
  intros Hout.
  destruct (statistics self (mk B h T (get x)) x_mask g) as [s|e] eqn:Hs.
  - exists s. split; [done|].
    eapply Hcontract; [apply has_shape_mk|done|done].
  - exfalso. revert Hs Hout. unfold statistics.
    destruct (input_conv self _) as [h0|]; [|done]. cbn [mbind res_bind].
    destruct (torch.mul h0 _) as [h1|]; [|done]. cbn [mbind res_bind].
    destruct (encoder self h1 _ g) as [h2|]; [|done]. cbn [mbind res_bind].
    by intros ->.
Qed.

End affine_layer_shaped.

(** Forward direction of ResidualAffineCouplingLayer: with [x] split
    into [xa] and [xb], and the mean [m] and log-scale [logs] computed from
    [xa], the transformed half is [m + xb * exp(logs) * x_mask], the output
    is the concatenation of [xa] and the transformed half, and the
    log-determinant of each batch element is the sum of [logs * x_mask] over
    channels and time; when only the mean is estimated [logs] is zero and so
    is the log-determinant. *)
Lemma affine_forward_value
    (self : ResidualAffineCouplingLayer.t) (B T : nat) (g : option tensor)
    (x x_mask xa xb s : tensor) :
  let h := ResidualAffineCouplingLayer.half_channels self in
  0 < B → 0 < h →
  has_shape B (2 * h) T x → has_shape B 1 T x_mask → binary_mask B T x_mask →
  torch.split (torch.size1 x / 2) x = Ok [xa; xb] →
  ResidualAffineCouplingLayer.statistics self xa x_mask g = Ok s →
  has_shape B (ResidualAffineCouplingLayer.stats_channels self) T s →
  ∃ stats m logs xb' y logdet,
    torch.mul s x_mask = Ok stats
    ∧ (if negb (ResidualAffineCouplingLayer.use_only_mean self)
       then torch.split (torch.size1 stats / 2) stats ≫= unpack2
       else Ok (stats, torch.zeros_like stats)) = Ok (m, logs)
    ∧ (∀ b c t, b < B → c < h → t < T →
         get xb' b c t
         = (get m b c t + get xb b c t * exp (get logs b c t) * get x_mask b 0 t)%R)
    ∧ has_shape B h T xb'
    ∧ torch.cat xa xb' = Ok y
    ∧ ResidualAffineCouplingLayer.forward self x x_mask g false
      = Ok (WithLogdet y logdet)
    ∧ length logdet = B
    ∧ (∀ b, b < B →
         nth b logdet 0%R
         = sum_ct h T (λ c t, (get logs b c t * get x_mask b 0 t)%R))
    ∧ (ResidualAffineCouplingLayer.use_only_mean self = true →
         logs = torch.zeros_like m ∧ logdet = replicate B 0%R).
Proof.
  intros h HB Hh Hx Hmask Hbin Hsplit Hstats Hs.
  pose proof Hsplit as Hsplit'.
  rewrite (mk_get _ _ _ _ Hx), split_mk in Hsplit' by done.
  injection Hsplit' as <- <-.
  rewrite (mk_get _ _ _ _ Hs), (mk_get _ _ _ _ Hmask) in Hstats.
  pose proof (affine_forward_eval self B T g _ _ _ HB Hh Hstats) as Hfwd.
  cbv beta in Hfwd. fold h in Hfwd.
  rewrite <- (mk_get _ _ _ _ Hx), <- (mk_get _ _ _ _ Hmask) in Hfwd.
  set (fm := get x_mask) in *. set (fs := get s) in *. set (fx := get x) in *.
  set (Mf := λ b c t : nat, (fs b c t * fm b 0%nat t)%R).
  set (Lf := λ b c t : nat,
         if ResidualAffineCouplingLayer.use_only_mean self then 0%R
         else (fs b (h + c)%nat t * fm b 0%nat t)%R).
  exists (mk B (ResidualAffineCouplingLayer.stats_channels self) T
            (λ b c t, fs b c t * fm b 0%nat t)%R),
    (mk B h T Mf), (mk B h T Lf),
    (mk B h T (λ b c t, Mf b c t + fx b (h + c)%nat t * exp (Lf b c t) * fm b 0%nat t)%R).
  eexists _, _.
  split; [|split; [|split; [|split; [|split; [|split; [exact Hfwd|]]]]]].
  - rewrite (mk_get _ _ _ _ Hs) at 1. rewrite (mk_get _ _ _ _ Hmask) at 1.
    apply mul_mk_mask.
  - unfold ResidualAffineCouplingLayer.stats_channels, Lf. fold h.
    destruct (ResidualAffineCouplingLayer.use_only_mean self); cbn [negb].
    + unfold torch.zeros_like. by rewrite tmap_mk.
    + by rewrite split_mk by done.
  - intros b c t Hb Hc Ht. by rewrite !get_mk by done.
  - apply has_shape_mk.
  - by rewrite cat_mk by done.
  - split; [by rewrite length_fmap, length_seq|]. split.
    + intros b Hb. rewrite nth_fmap_seq by done.
      apply sum_ct_ext; intros c t Hc Ht. rewrite get_mk by done.
      unfold Lf. destruct (ResidualAffineCouplingLayer.use_only_mean self); [lra|].
      unfold fm. destruct (Hbin b t Hb Ht) as [-> | ->]; lra.
    + intros Hmean. unfold Lf. rewrite Hmean. split.
      * unfold torch.zeros_like. by rewrite tmap_mk.
      * rewrite <- (const_fmap_seq 0%R B 0).
        apply fmap_seq_ext; intros b _. apply sum_ct_zero.
Qed.

(** Evaluation of a closed tensor expression, the real arithmetic left as
    it stands. *)
Ltac tensor_eval :=
  cbv -[Rplus Rmult Rminus Ropp Rinv Rdiv exp ln PI IZR Rlt_dec].

(** Equality of evaluated tensors, entry by entry. *)
Ltac tensor_eq := repeat first [reflexivity | lra | apply (f_equal2 cons)].

Ltac solve_shape :=
  split; [reflexivity|];
  repeat first [apply Forall_nil_2 | apply Forall_cons_2 | split | reflexivity].

Lemma Example_x_shape : has_shape 2 2 2 Example.x.
Proof. solve_shape. Qed.

Lemma Example_x_mask_shape : has_shape 2 1 2 Example.x_mask.
Proof. solve_shape. Qed.

Lemma Example_x_mask_binary : binary_mask 2 2 Example.x_mask.
Proof.
  intros b t Hb Ht.
  destruct b as [|[|b]]; [| |lia]; (destruct t as [|[|t]]; [| |lia]);
    cbn; auto.
Qed.

Lemma Example_x_masked : masked 2 2 2 Example.x Example.x_mask.
Proof.
  intros b c t Hb Hc Ht.
  destruct b as [|[|b]]; [| |lia]; (destruct c as [|[|c]]; [| |lia]);
    (destruct t as [|[|t]]; [| |lia]); cbn; intros; lra.
Qed.

(** The affine layer leaves [xa] as it is, in both directions: the first
    half of the output is the first half of the input. *)
Lemma affine_passes_xa
    (self : ResidualAffineCouplingLayer.t) (B T : nat) (g : option tensor)
    (x x_mask : tensor) (inverse : bool) (out : flow_out) :
  let h := ResidualAffineCouplingLayer.half_channels self in
  0 < B → 0 < h →
  has_shape B (2 * h) T x → has_shape B 1 T x_mask →
  ResidualAffineCouplingLayer.shape_contract self →
  ResidualAffineCouplingLayer.forward self x x_mask g inverse = Ok out →
  ∃ xa xb y yb ld,
    torch.split (torch.size1 x / 2) x = Ok [xa; xb]
    ∧ (out = WithLogdet y ld ∨ out = Plain y)
    ∧ has_shape B (2 * h) T y
    ∧ torch.split (torch.size1 y / 2) y = Ok [xa; yb].
Proof.
  intros h HB Hh Hx Hmask Hcontract Hout.
  destruct (affine_forward_statistics self B T g x x_mask HB Hh Hx Hmask
              Hcontract inverse out Hout) as (s & Hs & Hshape).
  rewrite (mk_get _ _ _ _ Hshape), (mk_get _ _ _ _ Hmask) in Hs at 1.
  fold h in Hs.
  exists (mk B h T (get x)), (mk B h T (λ b c t, get x b (h + c) t)).
  destruct inverse.
  - pose proof (affine_inverse_eval self B T g _ _ _ HB Hh Hs) as Hev.
    cbv beta in Hev. fold h in Hev.
    rewrite <- (mk_get _ _ _ _ Hx), <- (mk_get _ _ _ _ Hmask), Hout in Hev.
    injection Hev as ->. change (h + (h + 0)) with (2 * h) in *.
    eexists _, _, [].
    split; [by apply affine_split|]. split; [by right|].
    split; [apply has_shape_mk|].
    rewrite split_mk by done. f_equal. apply (f_equal2 cons); [|reflexivity].
    apply mk_ext; intros b c t Hb Hc Ht. by rewrite decide_True.
  - pose proof (affine_forward_eval self B T g _ _ _ HB Hh Hs) as Hev.
    cbv beta in Hev. fold h in Hev.
    rewrite <- (mk_get _ _ _ _ Hx), <- (mk_get _ _ _ _ Hmask), Hout in Hev.
    injection Hev as ->. change (h + (h + 0)) with (2 * h) in *.
    eexists _, _, _.
    split; [by apply affine_split|]. split; [by left|].
    split; [apply has_shape_mk|].
    rewrite split_mk by done. f_equal. apply (f_equal2 cons); [|reflexivity].
    apply mk_ext; intros b c t Hb Hc Ht. by rewrite decide_True.
Qed.

(** The inverse of the affine layer undoes its forward pass: on an input
    that is zero where the mask is, under a mask of zeros and ones. *)
Lemma affine_inverse_forward
    (self : ResidualAffineCouplingLayer.t) (B T : nat) (g : option tensor)
    (x x_mask y : tensor) (logdet : vec) :
  let h := ResidualAffineCouplingLayer.half_channels self in
  0 < B → 0 < h →
  has_shape B (2 * h) T x → has_shape B 1 T x_mask →
  binary_mask B T x_mask → masked B (2 * h) T x x_mask →
  ResidualAffineCouplingLayer.shape_contract self →
  ResidualAffineCouplingLayer.forward self x x_mask g false
    = Ok (WithLogdet y logdet) →
  ResidualAffineCouplingLayer.forward self y x_mask g true = Ok (Plain x)
  ∧ has_shape B (2 * h) T y ∧ masked B (2 * h) T y x_mask.
Proof.
  intros h HB Hh Hx Hmask Hbin Hmasked Hcontract Hout.
  destruct (affine_forward_statistics self B T g x x_mask HB Hh Hx Hmask
              Hcontract false _ Hout) as (s & Hs & Hshape).
  rewrite (mk_get _ _ _ _ Hshape), (mk_get _ _ _ _ Hmask) in Hs at 1.
  fold h in Hs.
  pose proof (affine_forward_eval self B T g _ _ _ HB Hh Hs) as Hev.
  cbv beta in Hev. fold h in Hev.
  rewrite <- (mk_get _ _ _ _ Hx), <- (mk_get _ _ _ _ Hmask), Hout in Hev.
  injection Hev as -> _. change (h + (h + 0)) with (2 * h) in *.
  match goal with |- context [mk B (2 * h) T ?f] => set (fy := f) end.
  assert (mk B h T fy = mk B h T (get x)) as Hya.
  { apply mk_ext; intros b c t Hb Hc Ht. unfold fy. by rewrite decide_True. }
  split; [|split].
  - rewrite <- Hya in Hs.
    pose proof (affine_inverse_eval self B T g _ _ _ HB Hh Hs) as Hinv.
    cbv beta in Hinv. fold h in Hinv.
    rewrite <- (mk_get _ _ _ _ Hmask) in Hinv. rewrite Hinv. do 2 f_equal.
    etrans; [|symmetry; apply (mk_get _ _ _ _ Hx)].
    apply mk_ext; intros b c t Hb Hc Ht. unfold fy.
    destruct (decide (c < h)) as [Hlt|Hge]; [done|].
    rewrite decide_False by lia.
    replace (h + (c - h) - h) with (c - h) by lia.
    replace (h + (c - h)) with c by lia.
    set (l := if ResidualAffineCouplingLayer.use_only_mean self then 0%R else _).
    pose proof (exp_cancel l) as Hl.
    destruct (Hbin b t ltac:(lia) Ht) as [H0|H1].
    + rewrite H0. rewrite (Hmasked b c t Hb Hc Ht H0). lra.
    + rewrite H1.
      transitivity (get x b c t * (exp l * exp (- l)))%R; [ring|].
      rewrite Hl. ring.
  - apply has_shape_mk.
  - intros b c t Hb Hc Ht H0. rewrite get_mk by done. unfold fy.
    destruct (decide (c < h)).
    + by apply Hmasked.
    + rewrite H0. lra.
Qed.

(** ** ResidualCouplingTransformersLayer *)

(** What the transformer layer concatenates is not [xa] but [xa] plus the
    output of the Transformer on it, in both directions. *)
Lemma transformers_concatenates_refined_xa
    (self : ResidualCouplingTransformersLayer.t) (x x_mask : tensor)
    (g : option tensor) (inverse : bool) (out : flow_out) :
  ResidualCouplingTransformersLayer.forward self x x_mask g inverse = Ok out →
  ∃ xa xb xa_trans xa' xb' y,
    (torch.split (torch.size1 x / 2) x ≫= unpack2) = Ok (xa, xb)
    ∧ (torch.transpose
       <$> ResidualCouplingTransformersLayer.pre_transformer self
             (torch.transpose xa) (torch.where_gt0 (torch.squeeze x_mask)))
      = Ok xa_trans
    ∧ torch.add xa xa_trans = Ok xa'
    ∧ torch.cat xa' xb' = Ok y
    ∧ match out with WithLogdet y' _ | Plain y' => y' = y end.
Proof.
  unfold ResidualCouplingTransformersLayer.forward. intros H.
  apply bind_Ok in H as ([xa xb] & Hsplit & H).
  apply bind_Ok in H as (xa_trans & Htrans & H).
  apply bind_Ok in H as (xa' & Hadd & H).
  apply bind_Ok in H as (h0 & _ & H).
  apply bind_Ok in H as (h1 & _ & H).
  apply bind_Ok in H as (h2 & _ & H).
  apply bind_Ok in H as (stats & _ & H).
  apply bind_Ok in H as ([m logs] & _ & H).
  destruct inverse; cbn [negb] in H;
    apply bind_Ok in H as (xb' & _ & H);
    apply bind_Ok in H as (y & Hcat & H);
    injection H as <-;
    by exists xa, xb, xa_trans, xa', xb', y.
Qed.

(** C3.  Forward direction of the coupling layers: with [x] split into
    [xa] and [xb], and the mean [m] and log-scale [logs] computed from [xa],
    the transformed half is [m + xb * exp(logs) * x_mask], the output is the
    concatenation of [xa] and the transformed half, and the log-determinant
    of each batch element is the sum of [logs * x_mask] over channels and
    time, zero when only the mean is estimated.  ResidualAffineCouplingLayer
    does so on every input.  ResidualCouplingTransformersLayer computes the
    transformed half and the log-determinant as specified, but concatenates
    [xa + xa_trans] in place of [xa]: on the example layer and input its
    output is not the concatenation of [xa] and the transformed half. *)
Theorem coupling_layers_forward
    (self : ResidualAffineCouplingLayer.t) (B T : nat) (g : option tensor)
    (x x_mask xa xb s : tensor) :
  let h := ResidualAffineCouplingLayer.half_channels self in
  0 < B → 0 < h →
  has_shape B (2 * h) T x → has_shape B 1 T x_mask → binary_mask B T x_mask →
  torch.split (torch.size1 x / 2) x = Ok [xa; xb] →
  ResidualAffineCouplingLayer.statistics self xa x_mask g = Ok s →
  has_shape B (ResidualAffineCouplingLayer.stats_channels self) T s →
  (∃ stats m logs xb' y logdet,
     torch.mul s x_mask = Ok stats
     ∧ (if negb (ResidualAffineCouplingLayer.use_only_mean self)
        then torch.split (torch.size1 stats / 2) stats ≫= unpack2
        else Ok (stats, torch.zeros_like stats)) = Ok (m, logs)
     ∧ (∀ b c t, b < B → c < h → t < T →
          get xb' b c t
          = (get m b c t + get xb b c t * exp (get logs b c t) * get x_mask b 0 t)%R)
     ∧ has_shape B h T xb'
     ∧ torch.cat xa xb' = Ok y
     ∧ ResidualAffineCouplingLayer.forward self x x_mask g false
       = Ok (WithLogdet y logdet)
     ∧ length logdet = B
     ∧ (∀ b, b < B →
          nth b logdet 0%R
          = sum_ct h T (λ c t, (get logs b c t * get x_mask b 0 t)%R))
     ∧ (ResidualAffineCouplingLayer.use_only_mean self = true →
          logs = torch.zeros_like m ∧ logdet = replicate B 0%R))
  ∧ (torch.split (torch.size1 Example.x / 2) Example.x
       = Ok [Example.xa; Example.xb]
     ∧ ∃ xa' xb' y logdet,
         ResidualCouplingTransformersLayer.forward Example.transformers
           Example.x Example.x_mask None false = Ok (WithLogdet y logdet)
         ∧ torch.cat xa' xb' = Ok y
         ∧ (∀ b t, b < 2 → t < 2 →
              get xb' b 0 t
              = (0 + get Example.xb b 0 t * exp 0 * get Example.x_mask b 0 t)%R)
         ∧ logdet = [0%R; 0%R]
         ∧ get xa' 0 0 0 = (1 + 1)%R
         ∧ get Example.xa 0 0 0 = 1%R
         ∧ torch.cat Example.xa xb' ≠ Ok y).
Proof.
  intros h HB Hh Hx Hmask Hbin Hsplit Hstats Hs. split.
  - by apply (affine_forward_value self B T g x x_mask xa xb s).
  - split; [reflexivity|].
    exists [ [ [(1 + 1)%R; (0 + 0)%R] ]; [ [(3 + 3)%R; (4 + 4)%R] ] ],
      [ [ [(0 * 1 + 2 * exp 0 * 1)%R; (0 * 0 + 0 * exp 0 * 0)%R] ];
        [ [(0 * 1 + 5 * exp 0 * 1)%R; (0 * 1 + 6 * exp 0 * 1)%R] ] ].
    eexists _, _. split; [tensor_eval; reflexivity|].
    split; [reflexivity|]. split.
    { intros b t Hb Ht.
      destruct b as [|[|b]]; [| |lia]; (destruct t as [|[|t]]; [| |lia]);
        cbn; lra. }
    split; [tensor_eval; tensor_eq|].
    split; [reflexivity|]. split; [reflexivity|].
    tensor_eval. intros Heq. injection Heq as Heq _. lra.
Qed.

Lemma coupling_layers_forward_witness :
  ∃ y logdet,
    ResidualAffineCouplingLayer.forward Example.affine Example.x Example.x_mask
      None false = Ok (WithLogdet y logdet)
    ∧ length logdet = 2.
Proof.
  destruct (coupling_layers_forward Example.affine 2 2 None
              Example.x Example.x_mask Example.xa Example.xb
              [ [ [(1 * 1)%R; (0 * 0)%R]; [(1 * 1)%R; (0 * 0)%R] ];
                [ [(3 * 1)%R; (4 * 1)%R]; [(3 * 1)%R; (4 * 1)%R] ] ])
    as [(stats & m & logs & xb' & y & logdet & _ & _ & _ & _ & _ & Hf & Hl & _)
        _].
  - lia.
  - cbn. lia.
  - exact Example_x_shape.
  - exact Example_x_mask_shape.
  - exact Example_x_mask_binary.
  - reflexivity.
  - reflexivity.
  - solve_shape.
  - exists y, logdet. split; [exact Hf|exact Hl].
Defined.

(** C2.  Both coupling layers are specified to return the first half of
    the channels unchanged.  ResidualCouplingTransformersLayer.forward
    overwrites [xa] with [xa + xa_trans] before the concatenation: on the
    example layer and input the first half of the output differs from the
    first half of the input, in the forward and in the inverse direction. *)
Theorem transformers_layer_changes_xa :
  torch.split (torch.size1 Example.x / 2) Example.x
    = Ok [Example.xa; Example.xb]
  ∧ (∃ y logdet ya yb,
       ResidualCouplingTransformersLayer.forward Example.transformers
         Example.x Example.x_mask None false = Ok (WithLogdet y logdet)
       ∧ torch.split (torch.size1 y / 2) y = Ok [ya; yb]
       ∧ get ya 0 0 0 = (1 + 1)%R
       ∧ ya ≠ Example.xa)
  ∧ (∃ y ya yb,
       ResidualCouplingTransformersLayer.forward Example.transformers
         Example.x Example.x_mask None true = Ok (Plain y)
       ∧ torch.split (torch.size1 y / 2) y = Ok [ya; yb]
       ∧ get ya 0 0 0 = (1 + 1)%R
       ∧ ya ≠ Example.xa).
Proof.
  split; [reflexivity|]. split.
  - eexists _, _, _, _. split; [tensor_eval; reflexivity|].
    split; [reflexivity|]. split; [reflexivity|].
    unfold Example.xa. intros Heq. injection Heq as Heq _. lra.
  - eexists _, _, _. split; [tensor_eval; reflexivity|].
    split; [reflexivity|]. split; [reflexivity|].
    unfold Example.xa. intros Heq. injection Heq as Heq _. lra.
Qed.

(** C1.  The inverse of every coupling component is specified to undo
    its forward pass.  For ResidualCouplingTransformersLayer, and for the
    block that [__init__] builds from it, it does not: on the example layer,
    and on an input that is zero where the mask is, the inverse of the
    forward pass returns another tensor, different at a position where the
    mask is one. *)
Theorem transformers_layer_inverse_not_inverse :
  masked 2 2 2 Example.x Example.x_mask
  ∧ get Example.x_mask 0 0 0 = 1%R
  ∧ (∃ y logdet x',
       ResidualCouplingTransformersLayer.forward Example.transformers
         Example.x Example.x_mask None false = Ok (WithLogdet y logdet)
       ∧ ResidualCouplingTransformersLayer.forward Example.transformers
           y Example.x_mask None true = Ok (Plain x')
       ∧ get x' 0 0 0 ≠ get Example.x 0 0 0)
  ∧ (let block :=
       ResidualCouplingBlock.init 1 true
         (λ _, Example.affine) (λ _, Example.transformers) in
     ∃ y x',
       ResidualCouplingBlock.forward block Example.x Example.x_mask None false
         = Ok y
       ∧ ResidualCouplingBlock.forward block y Example.x_mask None true
         = Ok x'
       ∧ get x' 0 0 0 ≠ get Example.x 0 0 0).
Proof.
  split; [exact Example_x_masked|]. split; [reflexivity|]. split.
  - eexists _, _, _. split; [tensor_eval; reflexivity|].
    split; [tensor_eval; reflexivity|]. cbn. lra.
  - cbv zeta. eexists _, _. split; [tensor_eval; reflexivity|].
    split; [tensor_eval; reflexivity|]. cbn. lra.
Qed.

(** ** ResidualCouplingBlock *)

(** C6.  In forward mode the block applies its flows in construction order,
    keeps the tensor of each and drops its log-determinant; in inverse mode
    it applies the reversed sequence, each flow called with [inverse=True].
    The order is fixed by the block of no flow, of one flow, and of two
    lists of flows in a row; [inverse] is a Boolean, so there are the two
    modes only. *)
Theorem block_forward_order
    (flows1 flows2 : list Flow) (flow : Flow) (x x_mask : tensor)
    (g : option tensor) :
  let block (flows : list Flow) := {| ResidualCouplingBlock.flows := flows |} in
  (∀ inverse, ResidualCouplingBlock.forward (block []) x x_mask g inverse = Ok x)
  ∧ ResidualCouplingBlock.forward (block [flow]) x x_mask g false
    = ('(y, _) ← call flow x x_mask g false ≫= unpack_pair; Ok y)
  ∧ ResidualCouplingBlock.forward (block [flow]) x x_mask g true
    = (call flow x x_mask g true ≫= as_tensor)
  ∧ ResidualCouplingBlock.forward (block (flows1 ++ flows2)) x x_mask g false
    = (y ← ResidualCouplingBlock.forward (block flows1) x x_mask g false;
       ResidualCouplingBlock.forward (block flows2) y x_mask g false)
  ∧ ResidualCouplingBlock.forward (block (flows1 ++ flows2)) x x_mask g true
    = (y ← ResidualCouplingBlock.forward (block flows2) x x_mask g true;
       ResidualCouplingBlock.forward (block flows1) y x_mask g true)
  ∧ (∀ inverse : bool, inverse = false ∨ inverse = true).
Proof.
  intros block. unfold ResidualCouplingBlock.forward, block. cbn [negb ResidualCouplingBlock.flows].
  split; [by intros []|].
  split.
  { cbn [for_]. destruct (call flow x x_mask g false ≫= unpack_pair) as [[y ld]|]; done. }
  split.
  { cbn [reverse rev_append for_]. unfold reverse. cbn [rev_append for_].
    destruct (call flow x x_mask g true ≫= as_tensor); done. }
  split; [apply for_app|].
  split; [rewrite reverse_app; apply for_app|].
  intros []; auto.
Qed.

Lemma flip_flip (B C T : nat) (x : tensor) :
  has_shape B C T x → torch.flip (torch.flip x) = x.
Proof.
  intros Hx. rewrite (mk_get _ _ _ _ Hx), !flip_mk.
  apply mk_ext; intros b c t Hb Hc Ht. f_equal. lia.
Qed.

Lemma flip_shape (B C T : nat) (x : tensor) :
  has_shape B C T x → has_shape B C T (torch.flip x).
Proof.
  intros Hx. rewrite (mk_get _ _ _ _ Hx), flip_mk. apply has_shape_mk.
Qed.

Lemma flip_masked (B C T : nat) (x x_mask : tensor) :
  has_shape B C T x → masked B C T x x_mask →
  masked B C T (torch.flip x) x_mask.
Proof.
  intros Hx Hm b c t Hb Hc Ht H0.
  rewrite (mk_get _ _ _ _ Hx), flip_mk, get_mk by done.
  apply Hm; [done|lia|done|done].
Qed.

(** Each flow of an affine block is undone by its own inverse, and keeps
    the shape and the zeros under the mask. *)
Lemma affine_stage_inverse_forward
    (h B T : nat) (g : option tensor) (flow : Flow) (x x_mask y : tensor) (ld : vec) :
  0 < B → 0 < h → affine_stage h flow →
  has_shape B (2 * h) T x → has_shape B 1 T x_mask →
  binary_mask B T x_mask → masked B (2 * h) T x x_mask →
  call flow x x_mask g false = Ok (WithLogdet y ld) →
  call flow y x_mask g true = Ok (Plain x)
  ∧ has_shape B (2 * h) T y ∧ masked B (2 * h) T y x_mask.
Proof.
  intros HB Hh Hstage Hx Hmask Hbin Hmasked Hcall.
  destruct flow as [|layer| | |]; try done; cbn in Hcall |- *.
  - unfold FlipFlow.forward in *. cbn in Hcall |- *.
    injection Hcall as <- _.
    rewrite (flip_flip _ _ _ _ Hx).
    split; [done|]. split; [by apply flip_shape|by apply flip_masked].
  - destruct Hstage as [<- Hcontract].
    by eapply affine_inverse_forward.
Qed.

Lemma affine_stage_returns_pair
    (h : nat) (g : option tensor) (flow : Flow) (x x_mask : tensor) (out : flow_out) :
  affine_stage h flow →
  call flow x x_mask g false = Ok out → ∃ y ld, out = WithLogdet y ld.
Proof.
  intros Hstage. destruct flow as [|layer| | |]; try done; cbn.
  - unfold FlipFlow.forward. cbn. intros [= <-]. eauto.
  - unfold ResidualAffineCouplingLayer.forward. cbn [negb]. intros H.
    inv_bind H. injection H as <-. eauto.
Qed.

(** A block of affine coupling layers and flips: the inverse mode undoes the
    forward mode. *)
Lemma affine_block_inverse_forward
    (h B T : nat) (g : option tensor) (flows : list Flow) (x_mask : tensor) :
  0 < B → 0 < h → Forall (affine_stage h) flows →
  has_shape B 1 T x_mask → binary_mask B T x_mask →
  ∀ x y,
    has_shape B (2 * h) T x → masked B (2 * h) T x x_mask →
    ResidualCouplingBlock.forward {| ResidualCouplingBlock.flows := flows |}
      x x_mask g false = Ok y →
    ResidualCouplingBlock.forward {| ResidualCouplingBlock.flows := flows |}
      y x_mask g true = Ok x.
Proof.
  intros HB Hh Hflows Hmask Hbin.
  unfold ResidualCouplingBlock.forward. cbn [negb ResidualCouplingBlock.flows].
  induction Hflows as [|flow flows Hflow _ IH]; intros x y Hx Hmasked Hfwd.
  - cbn in *. by injection Hfwd as ->.
  - cbn [for_] in Hfwd. apply bind_Ok in Hfwd as (y1 & Hcall & Hrest).
    apply bind_Ok in Hcall as ([y1' ld] & Hcall & Hy1). injection Hy1 as ->.
    apply bind_Ok in Hcall as (out & Hcall & Hout).
    destruct (affine_stage_returns_pair h g flow x x_mask out Hflow Hcall)
      as (y2 & ld2 & ->).
    injection Hout as -> ->.
    destruct (affine_stage_inverse_forward h B T g flow x x_mask y1 ld
                HB Hh Hflow Hx Hmask Hbin Hmasked Hcall)
      as (Hinv & Hy1 & Hmasked1).
    rewrite reverse_cons, for_app, (IH y1 y Hy1 Hmasked1 Hrest).
    cbn. by rewrite Hinv.
Qed.

(** ** StochasticDurationPredictor: the sampling branch *)

(** C4, as stated, fails: with one convolutional flow the chain is
    [affine; conv; flip], and the flows of the sampling branch are
    [flip; affine]: the flow left out is the convolutional flow, not a flip. *)
Lemma sampling_removes_no_flip :
  let self := StochasticDurationPredictor.init Example.modules 1 (-1) in
  ∃ sampled,
    StochasticDurationPredictor.sampling_flows self = Ok sampled
    ∧ ¬ removes_interior_flip (StochasticDurationPredictor.flows self) sampled.
Proof.
  cbv zeta. eexists. split; [reflexivity|].
  intros (before & after & Hb & Ha & Hrev & _).
  cbv in Hrev.
  destruct before as [|f1 [|f2 [|f3 before]]]; [done| | |].
  - cbn in Hrev. discriminate Hrev.
  - cbn in Hrev. injection Hrev as _ _ Hrev.
    destruct after; [done|discriminate Hrev].
  - cbn in Hrev. injection Hrev as _ _ _ Hrev.
    destruct before; discriminate Hrev.
Qed.

(** C4, amended.  The flows of the sampling branch are the reversed main
    chain without its second to last flow, which is the first convolutional
    flow, the one next to the elementwise affine flow (with no convolutional
    flow nothing is left out).  The branch splits what they return from the
    scaled noise into its two channels and returns the first: a tensor of
    shape [(B, 1, T)]. *)
Theorem sampling_drops_first_conv_flow
    (new : StochasticDurationPredictor.modules) (n : nat) (global_channels : Z)
    (randn : nat → nat → nat → tensor)
    (masks : StochasticDurationPredictor.dropout_masks) (x x_mask : tensor)
    (w g : option tensor) (noise_scale : R) :
  let self := StochasticDurationPredictor.init new n global_channels in
  let affine :=
    ElementwiseAffineFlow (StochasticDurationPredictor.new_affine_fwd new)
                          (StochasticDurationPredictor.new_affine_inv new) in
  let conv0 :=
    ConvFlow (StochasticDurationPredictor.new_conv_fwd new 0)
             (StochasticDurationPredictor.new_conv_inv new 0) in
  ∃ sampled,
    StochasticDurationPredictor.sampling_flows self = Ok sampled
    ∧ (n = 0 → sampled = reverse (StochasticDurationPredictor.flows self))
    ∧ (0 < n →
       ∃ before,
         reverse (StochasticDurationPredictor.flows self)
           = before ++ [conv0; affine]
         ∧ sampled = before ++ [affine])
    ∧ (∀ B T h z,
         0 < B →
         StochasticDurationPredictor.condition self masks x x_mask g = Ok h →
         for_ sampled
           (λ z flow, call flow z x_mask (Some h) true ≫= as_tensor)
           (torch.scale noise_scale (randn (torch.size0 h) 2 (torch.size2 h)))
           = Ok z →
         has_shape B 2 T z →
         ∃ logw,
           StochasticDurationPredictor.forward self randn masks x x_mask w g true
             noise_scale = Ok (StochasticDurationPredictor.LogDuration logw)
           ∧ has_shape B 1 T logw
           ∧ ∀ b t, b < B → t < T → get logw b 0 t = get z b 0 t).
Proof.
  intros self affine conv0.
  assert (∃ sampled,
    StochasticDurationPredictor.sampling_flows self = Ok sampled
    ∧ (n = 0 → sampled = reverse (StochasticDurationPredictor.flows self))
    ∧ (0 < n →
       ∃ before,
         reverse (StochasticDurationPredictor.flows self)
           = before ++ [conv0; affine]
         ∧ sampled = before ++ [affine])) as (sampled & Hs & H0 & Hn).
  { unfold StochasticDurationPredictor.sampling_flows, self.
    cbn [StochasticDurationPredictor.init StochasticDurationPredictor.flows].
    fold affine. destruct n as [|m].
    - cbn. eexists. split; [reflexivity|]. split; [done|lia].
    - cbn [seq flat_map app]. fold conv0.
      set (rest := flat_map _ (seq 1 m)).
      rewrite !reverse_cons, <- !(assoc_L app).
      cbn [app]. rewrite last_app. cbn [last].
      rewrite length_app. cbn [length].
      replace (length (reverse rest) + 3 - 2) with (length (reverse rest ++ [FlipFlow]))
        by (rewrite length_app; cbn; lia).
      replace (reverse rest ++ [FlipFlow; conv0; affine])
        with ((reverse rest ++ [FlipFlow]) ++ [conv0; affine])
        by (by rewrite <- (assoc_L app)).
      rewrite take_app_length.
      eexists. split; [reflexivity|]. split; [lia|].
      intros _. by eexists. }
  exists sampled. split; [done|]. split; [done|]. split; [done|].
  intros B T h z HB Hcond Hrun Hz.
  unfold StochasticDurationPredictor.forward. rewrite Hcond.
  cbn [mbind res_bind negb].
  unfold StochasticDurationPredictor.sampling. rewrite Hs.
  cbn [mbind res_bind]. rewrite Hrun. cbn [mbind res_bind].
  rewrite (mk_get _ _ _ _ Hz).
  rewrite (split_mk_size B 1 T) by lia. cbn.
  eexists. split; [reflexivity|]. split; [apply has_shape_mk|].
  intros b t Hb Ht. by rewrite !get_mk by lia.
Qed.

Lemma sampling_drops_first_conv_flow_witness :
  ∃ logw,
    StochasticDurationPredictor.forward
      (StochasticDurationPredictor.init Example.modules 1 (-1))
      Example.randn Example.no_masks Example.text Example.x_mask None None true 1%R
    = Ok (StochasticDurationPredictor.LogDuration logw)
    ∧ has_shape 2 1 2 logw.
Proof.
  destruct (sampling_drops_first_conv_flow Example.modules 1 (-1)
              Example.randn Example.no_masks Example.text Example.x_mask None None 1%R)
    as (sampled & Hs & _ & Hn & Hout).
  destruct (Hn ltac:(lia)) as (before & _ & _).
  cbn in Hs. injection Hs as <-.
  edestruct (Hout 2 2) as (logw & Hf & Hshape & _).
  - lia.
  - tensor_eval. reflexivity.
  - tensor_eval. reflexivity.
  - solve_shape.
  - exists logw. split; [exact Hf|exact Hshape].
Defined.

(** ** StochasticDurationPredictor: the mode branch *)

(** C7.  In likelihood mode without [w] the call never returns a result;
    once the conditioning feature of lines 130-135 is computed it fails on
    the assertion "w must be provided.", an invalid-input error, and
    otherwise with the exception of those lines. *)
Theorem likelihood_requires_w
    (self : StochasticDurationPredictor.t) (randn : nat → nat → nat → tensor)
    (masks : StochasticDurationPredictor.dropout_masks)
    (x x_mask : tensor) (g : option tensor) (noise_scale : R) :
  is_Raise (StochasticDurationPredictor.forward self randn masks x x_mask None g
              false noise_scale)
  ∧ (∀ h, StochasticDurationPredictor.condition self masks x x_mask g = Ok h →
       StochasticDurationPredictor.forward self randn masks x x_mask None g false
         noise_scale = Raise (AssertionError "w must be provided.")
       ∧ InvalidInputError (AssertionError "w must be provided."))
  ∧ (∀ e, StochasticDurationPredictor.condition self masks x x_mask g = Raise e →
       StochasticDurationPredictor.forward self randn masks x x_mask None g false
         noise_scale = Raise e).
Proof.
  unfold StochasticDurationPredictor.forward.
  destruct (StochasticDurationPredictor.condition self masks x x_mask g) as [h|e];
    cbn.
  - split; [by eexists|]. split; [by intros h' [= <-]|]. by intros e.
  - split; [by eexists|]. split; [by intros h'|]. by intros e' [= <-].
Qed.

Lemma likelihood_requires_w_witness :
  StochasticDurationPredictor.forward
    (StochasticDurationPredictor.init Example.modules 1 (-1))
    Example.randn Example.no_masks Example.text Example.x_mask None None false 1%R
  = Raise (AssertionError "w must be provided.").
Proof.
  destruct (likelihood_requires_w
              (StochasticDurationPredictor.init Example.modules 1 (-1))
              Example.randn Example.no_masks Example.text Example.x_mask None 1%R)
    as (_ & Hassert & _).
  eapply Hassert. tensor_eval. reflexivity.
Defined.

Lemma Example_training_keep_all :
  StochasticDurationPredictor.forward
    (StochasticDurationPredictor.init Example.training_modules 2 (-1))
    Example.randn Example.keep_all Example.text Example.x_mask None None true 1%R
  = Ok (StochasticDurationPredictor.LogDuration
          [ [ [22%R; 1%R] ]; [ [25%R; 28%R] ] ]).
Proof.
  tensor_eval. do 2 f_equal. tensor_eq.
Qed.

Lemma Example_training_drop_all :
  StochasticDurationPredictor.forward
    (StochasticDurationPredictor.init Example.training_modules 2 (-1))
    Example.randn Example.drop_all Example.text Example.x_mask None None true 1%R
  = Ok (StochasticDurationPredictor.LogDuration
          [ [ [8%R; 1%R] ]; [ [9%R; 10%R] ] ]).
Proof.
  tensor_eval. do 2 f_equal. tensor_eq.
Qed.

Lemma Example_training_randn_zero :
  StochasticDurationPredictor.forward
    (StochasticDurationPredictor.init Example.training_modules 2 (-1))
    Example.randn_zero Example.keep_all Example.text Example.x_mask None None
    true 1%R
  = Ok (StochasticDurationPredictor.LogDuration
          [ [ [21%R; 0%R] ]; [ [24%R; 27%R] ] ]).
Proof.
  tensor_eval. do 2 f_equal. tensor_eq.
Qed.

(** The claim of C8 as it is written fails in training mode: two runs on the
    same input, mask, [g], [noise_scale], parameters and standard-normal
    draw, whose dropout layers in [self.dds] draw different masks, return
    different log-durations. *)
Lemma sampling_depends_on_dropout :
  ∃ logw1 logw2,
    StochasticDurationPredictor.forward
      (StochasticDurationPredictor.init Example.training_modules 2 (-1))
      Example.randn Example.keep_all Example.text Example.x_mask None None
      true 1%R
    = Ok (StochasticDurationPredictor.LogDuration logw1)
    ∧ StochasticDurationPredictor.forward
        (StochasticDurationPredictor.init Example.training_modules 2 (-1))
        Example.randn Example.drop_all Example.text Example.x_mask None None
        true 1%R
      = Ok (StochasticDurationPredictor.LogDuration logw2)
    ∧ get logw1 0 0 0 = 22%R ∧ get logw2 0 0 0 = 8%R
    ∧ logw1 ≠ logw2.
Proof.
  eexists _, _. split; [exact Example_training_keep_all|].
  split; [exact Example_training_drop_all|].
  split; [reflexivity|]. split; [reflexivity|].
  intros Heq. injection Heq as Heq _. lra.
Qed.

(** C8.  In sampling mode the output is a function of [x], [x_mask], [g],
    [noise_scale], the parameters, the standard-normal draw of shape
    [(B, 2, T)] and the dropout masks of [self.dds]: two runs that agree on
    these (or whose [self.dds] draws no mask, as in evaluation mode) agree on
    the output, whatever [w] they are given and whatever else the generator
    yields, the masks of [self.post_dds] among it.  The noise is needed: on
    the example predictor another draw gives another output. *)
Theorem sampling_deterministic
    (self : StochasticDurationPredictor.t)
    (randn1 randn2 : nat → nat → nat → tensor)
    (masks1 masks2 : StochasticDurationPredictor.dropout_masks)
    (x x_mask : tensor) (w1 w2 g : option tensor) (noise_scale : R) :
  (∀ b t, randn1 b 2 t = randn2 b 2 t) →
  StochasticDurationPredictor.dds_masks masks1
    = StochasticDurationPredictor.dds_masks masks2
  ∨ (∀ m1 m2 h,
       StochasticDurationPredictor.dds self m1 h x_mask
       = StochasticDurationPredictor.dds self m2 h x_mask) →
  StochasticDurationPredictor.forward self randn1 masks1 x x_mask w1 g true
    noise_scale
  = StochasticDurationPredictor.forward self randn2 masks2 x x_mask w2 g true
      noise_scale
  ∧ StochasticDurationPredictor.forward
      (StochasticDurationPredictor.init Example.training_modules 2 (-1))
      Example.randn Example.keep_all Example.text Example.x_mask None None
      true 1%R
    ≠ StochasticDurationPredictor.forward
        (StochasticDurationPredictor.init Example.training_modules 2 (-1))
        Example.randn_zero Example.keep_all Example.text Example.x_mask None
        None true 1%R.
Proof.
  intros Hnoise Hmasks. split.
  - unfold StochasticDurationPredictor.forward.
    assert (StochasticDurationPredictor.condition self masks1 x x_mask g
            = StochasticDurationPredictor.condition self masks2 x x_mask g)
      as ->.
    { unfold StochasticDurationPredictor.condition.
      destruct Hmasks as [->|Hany]; [done|].
      destruct (StochasticDurationPredictor.pre self (torch.detach x))
        as [p|e]; [|done].
      cbn [mbind res_bind].
      destruct (match g with Some _ => _ | None => _ end) as [c|e]; [|done].
      cbn [mbind res_bind]. by rewrite (Hany _ (StochasticDurationPredictor.dds_masks masks2)). }
    destruct (StochasticDurationPredictor.condition self masks2 x x_mask g)
      as [h|e]; [|done].
    cbn [mbind res_bind negb].
    unfold StochasticDurationPredictor.sampling. by rewrite Hnoise.
  - rewrite Example_training_keep_all, Example_training_randn_zero.
    intros Heq. injection Heq as Heq _. lra.
Qed.

Lemma sampling_deterministic_witness :
  StochasticDurationPredictor.forward
    (StochasticDurationPredictor.init Example.training_modules 2 (-1))
    Example.randn Example.keep_all Example.text Example.x_mask None None true 1%R
  = StochasticDurationPredictor.forward
      (StochasticDurationPredictor.init Example.training_modules 2 (-1))
      (λ b c t, if decide (c = 2) then Example.randn b c t else [])
      {| StochasticDurationPredictor.dds_masks :=
           StochasticDurationPredictor.dds_masks Example.keep_all;
         StochasticDurationPredictor.post_dds_masks := [Example.w] |}
      Example.text Example.x_mask (Some Example.w) None true 1%R.
Proof.
  apply (sampling_deterministic
           (StochasticDurationPredictor.init Example.training_modules 2 (-1))
           Example.randn
           (λ b c t, if decide (c = 2) then Example.randn b c t else [])
           Example.keep_all
           {| StochasticDurationPredictor.dds_masks :=
                StochasticDurationPredictor.dds_masks Example.keep_all;
              StochasticDurationPredictor.post_dds_masks := [Example.w] |}).
  - intros b t. reflexivity.
  - left. reflexivity.
Defined.

(** C9.  A predictor built with [global_channels <= 0] has no
    [global_conv]: a call with a tensor [g] fails in both modes, on the
    missing attribute once [pre] has returned.  Built with
    [global_channels > 0], the projection of [g] is added to [pre(x)] in the
    feature that both modes receive, before [inverse] is looked at. *)
Theorem global_conditioning
    (new : StochasticDurationPredictor.modules) (flows : nat)
    (global_channels : Z) (randn : nat → nat → nat → tensor)
    (masks : StochasticDurationPredictor.dropout_masks)
    (x x_mask g : tensor) (w : option tensor) (noise_scale : R) :
  let self := StochasticDurationPredictor.init new flows global_channels in
  ((global_channels ≤ 0)%Z →
     ∀ inverse,
       is_Raise (StochasticDurationPredictor.forward self randn masks x x_mask w
                   (Some g) inverse noise_scale)
       ∧ (∀ p, StochasticDurationPredictor.new_pre new x = Ok p →
            StochasticDurationPredictor.forward self randn masks x x_mask w
              (Some g) inverse noise_scale
            = Raise (AttributeError "global_conv")))
  ∧ ((0 < global_channels)%Z →
       StochasticDurationPredictor.condition self masks x x_mask (Some g)
       = (p ← StochasticDurationPredictor.new_pre new x;
          s ← (gx ← StochasticDurationPredictor.new_global_conv new g;
               torch.add p gx);
          d ← StochasticDurationPredictor.new_dds new
                 (StochasticDurationPredictor.dds_masks masks) s x_mask;
          q ← StochasticDurationPredictor.new_proj new d;
          torch.mul q x_mask)
       ∧ StochasticDurationPredictor.forward self randn masks x x_mask w (Some g)
           false noise_scale
         = (h ← StochasticDurationPredictor.condition self masks x x_mask (Some g);
            StochasticDurationPredictor.Nll
              <$> StochasticDurationPredictor.likelihood self randn masks h x_mask w)
       ∧ StochasticDurationPredictor.forward self randn masks x x_mask w (Some g)
           true noise_scale
         = (h ← StochasticDurationPredictor.condition self masks x x_mask (Some g);
            StochasticDurationPredictor.LogDuration
              <$> StochasticDurationPredictor.sampling self randn h x_mask
                    noise_scale)).
Proof.
  intros self. split.
  - intros Hle inverse.
    unfold StochasticDurationPredictor.forward,
      StochasticDurationPredictor.condition, self, torch.detach.
    cbn [StochasticDurationPredictor.init StochasticDurationPredictor.pre
         StochasticDurationPredictor.global_conv].
    rewrite decide_False by lia.
    destruct (StochasticDurationPredictor.new_pre new x) as [p|e]; cbn.
    + split; [by eexists|]. by intros p' _.
    + split; [by eexists|]. by intros p'.
  - intros Hlt. split; [|done].
    unfold StochasticDurationPredictor.condition, self, torch.detach.
    cbn [StochasticDurationPredictor.init StochasticDurationPredictor.pre
         StochasticDurationPredictor.global_conv StochasticDurationPredictor.dds
         StochasticDurationPredictor.proj].
    rewrite decide_True by lia.
    destruct (StochasticDurationPredictor.new_pre new x) as [p|e]; [|done].
    cbn [mbind res_bind].
    destruct (StochasticDurationPredictor.new_global_conv new g) as [gx|e];
      [|done].
    cbn [mbind res_bind].
    destruct (torch.add p gx) as [s|e]; [|done]. cbn [mbind res_bind].
    destruct (StochasticDurationPredictor.new_dds new
                 (StochasticDurationPredictor.dds_masks masks) s x_mask) as [d|e];
      [|done].
    cbn [mbind res_bind]. done.
Qed.

Lemma global_conditioning_witness :
  (∀ inverse,
     StochasticDurationPredictor.forward
       (StochasticDurationPredictor.init Example.modules 1 (-1))
       Example.randn Example.no_masks Example.text Example.x_mask (Some Example.w)
       (Some Example.text) inverse 1%R
     = Raise (AttributeError "global_conv"))
  ∧ StochasticDurationPredictor.condition
      (StochasticDurationPredictor.init Example.modules 1 1)
      Example.no_masks Example.text Example.x_mask (Some Example.text)
    = Ok [ [ [((7 + 7) * 1)%R; ((0 + 0) * 0)%R] ];
           [ [((8 + 8) * 1)%R; ((9 + 9) * 1)%R] ] ].
Proof.
  split.
  - intros inverse.
    destruct (global_conditioning Example.modules 1 (-1) Example.randn
                Example.no_masks
                Example.text Example.x_mask Example.text (Some Example.w) 1%R)
      as [Hnone _].
    destruct (Hnone ltac:(lia) inverse) as [_ Hattr].
    by eapply Hattr.
  - destruct (global_conditioning Example.modules 1 1 Example.randn
                Example.no_masks
                Example.text Example.x_mask Example.text (Some Example.w) 1%R)
      as [_ Hsome].
    destruct (Hsome ltac:(lia)) as (-> & _).
    reflexivity.
Defined.

(** ** StochasticDurationPredictor: the likelihood branch *)

Lemma vpointwise_spec (op : R → R → R) (B : nat) (u v : vec) :
  length u = B → length v = B →
  ∃ r, torch.vpointwise op u v = Ok r ∧ length r = B
       ∧ ∀ b, b < B → nth b r 0%R = op (nth b u 0%R) (nth b v 0%R).
Proof.
  intros Hu Hv.
  exists ((λ i, op (nth i u 0%R) (nth i v 0%R)) <$> seq 0 B).
  split; [|split].
  - unfold torch.vpointwise.
    rewrite (list_tabulate 0%R u B Hu) at 1.
    rewrite (list_tabulate 0%R v B Hv) at 1.
    by apply broadcast_fmap.
  - by rewrite length_fmap, length_seq.
  - intros b Hb. by rewrite nth_fmap_seq.
Qed.

Lemma nth_fmap_lt {A C} (f : A → C) (l : list A) (d : A) (d' : C) (i : nat) :
  i < length l → nth i (f <$> l) d' = f (nth i l d).
Proof.
  intros Hi. destruct (lookup_lt_is_Some_2 l i Hi) as [a Ha].
  rewrite (nth_lookup_Some _ _ _ _ Ha).
  apply nth_lookup_Some. by rewrite list_lookup_fmap, Ha.
Qed.

Lemma num_add_spec (B : nat) (acc : num) (v : vec) :
  acc_ok B acc → length v = B →
  ∃ r, num_add acc v = Ok (Tensor1 r) ∧ length r = B
       ∧ ∀ b, b < B → nth b r 0%R = (num_at acc b + nth b v 0%R)%R.
Proof.
  intros Hacc Hv. destruct acc as [a|u]; cbn in *.
  - eexists. split; [reflexivity|]. split; [by rewrite length_fmap|].
    intros b Hb. by rewrite (nth_fmap_lt _ _ 0%R) by lia.
  - destruct (vpointwise_spec Rplus B u v Hacc Hv) as (r & Hr & Hlen & Hnth).
    unfold torch.vadd. rewrite Hr. cbn. eauto.
Qed.

Lemma num_rsub_spec (B : nat) (acc : num) (v : vec) :
  acc_ok B acc → length v = B →
  ∃ r, num_rsub v acc = Ok r ∧ length r = B
       ∧ ∀ b, b < B → nth b r 0%R = (nth b v 0%R - num_at acc b)%R.
Proof.
  intros Hacc Hv. destruct acc as [a|u]; cbn in *.
  - eexists. split; [reflexivity|]. split; [by rewrite length_fmap|].
    intros b Hb. by rewrite (nth_fmap_lt _ _ 0%R) by lia.
  - destruct (vpointwise_spec Rminus B v u Hv Hacc) as (r & Hr & Hlen & Hnth).
    unfold torch.vsub. rewrite Hr. eauto.
Qed.

(** A loop that calls each flow and adds its log-determinant to an
    accumulator returns what the chain returns, the accumulator raised by
    the sum of the log-determinants. *)
Lemma for_accumulates (B : nat) (x_mask : tensor) (g : option tensor)
    (body : tensor * num → Flow → res (tensor * num)) :
  (∀ z acc flow,
     body (z, acc) flow
     = ('(z, logdet) ← call flow z x_mask g false ≫= unpack_pair;
        acc ← num_add acc logdet;
        Ok (z, acc))) →
  ∀ flows z acc z' logdets,
    run_chain flows z x_mask g = Ok (z', logdets) →
    Forall (λ logdet : vec, length logdet = B) logdets →
    acc_ok B acc →
    ∃ acc',
      for_ flows body (z, acc) = Ok (z', acc') ∧ acc_ok B acc'
      ∧ ∀ b, b < B → num_at acc' b = (num_at acc b + sum_logdets logdets b)%R.
Proof.
  intros Hbody flows.
  induction flows as [|flow flows IH]; intros z acc z' logdets Hrun Hlen Hacc.
  - cbn in Hrun. injection Hrun as <- <-. exists acc.
    split; [done|]. split; [done|].
    intros b _. unfold sum_logdets, sum_list. cbn. lra.
  - cbn [run_chain] in Hrun.
    apply bind_Ok in Hrun as ([z1 ld] & Hcall & Hrun).
    apply bind_Ok in Hrun as ([z2 lds] & Hrest & Hrun).
    injection Hrun as <- <-.
    apply Forall_cons_1 in Hlen as [Hld Hlds].
    destruct (num_add_spec B acc ld Hacc Hld) as (r & Hadd & Hr & Hnth).
    destruct (IH z1 (Tensor1 r) z2 lds Hrest Hlds Hr) as (acc' & Hfor & Hok & Hsum).
    exists acc'. cbn [for_]. rewrite Hbody, Hcall. cbn [mbind res_bind].
    rewrite Hadd. cbn [mbind res_bind].
    split; [done|]. split; [done|].
    intros b Hb. rewrite (Hsum b Hb). cbn [num_at]. rewrite (Hnth b Hb).
    unfold sum_logdets, sum_list. cbn. lra.
Qed.

(** Replace the shaped tensor [x] by its table. *)
Ltac as_table x H f :=
  let E := fresh in
  let Hx := fresh in
  remember (get x) as f eqn:E;
  assert (x = mk _ _ _ f) as Hx by (subst f; exact (mk_get _ _ _ _ H));
  clear E; subst x.

Lemma size0_shape (B C T : nat) (x : tensor) :
  has_shape B C T x → torch.size0 x = B.
Proof. by intros [? _]. Qed.

Lemma size2_shape (B C T : nat) (x : tensor) :
  0 < B → 0 < C → has_shape B C T x → torch.size2 x = T.
Proof. intros HB HC Hx. rewrite (mk_get _ _ _ _ Hx). by apply size2_mk. Qed.



(** ** compute_fbank_ljspeech.py *)

Ltac no_output :=
  repeat (apply Forall_cons_2; [by intros []|]); apply Forall_nil_2.

(** C10.  When data/fbank/ljspeech_cuts_all.jsonl.gz is a file,
    [compute_spectrogram_ljspeech] leaves every file as it is and makes none
    of the calls that build the output (no cut set from the manifests, no
    features, no cuts file written); when the two manifests load it returns
    right after logging that the file exists. *)
Theorem skip_when_cuts_exist
    (manifest cut_set content executor : Type)
    (os_cpu_count : option Z) (executor_of : option executor)
    (read_manifest : gmap string content → string → res manifest)
    (cuts_from_manifests : manifest → manifest → res cut_set)
    (cuts_resample : cut_set → Z → res cut_set)
    (store_features :
       cut_set → compute_fbank_ljspeech.FbankConfig → string → Z →
       option executor → gmap string content →
       res cut_set * gmap string content)
    (write_cuts :
       cut_set → string → gmap string content →
       res () * gmap string content)
    (w : compute_fbank_ljspeech.world content) :
  let run :=
    compute_fbank_ljspeech.compute_spectrogram_ljspeech
      manifest cut_set content executor os_cpu_count executor_of read_manifest
      cuts_from_manifests cuts_resample store_features write_cuts in
  let files := compute_fbank_ljspeech.files content in
  let events := compute_fbank_ljspeech.events content in
  is_Some (files w !! "data/fbank/ljspeech_cuts_all.jsonl.gz") →
  files (run w).2 = files w
  ∧ (∃ new,
       events (run w).2 = events w ++ new
       ∧ Forall (λ e, ¬ compute_fbank_ljspeech.builds_output e) new)
  ∧ (∀ n recordings supervisions,
       os_cpu_count = Some n →
       read_manifest (files w) "data/manifests/ljspeech_recordings_all.jsonl.gz"
         = Ok recordings →
       read_manifest (files w) "data/manifests/ljspeech_supervisions_all.jsonl.gz"
         = Ok supervisions →
       run w
       = (Ok (),
          {| compute_fbank_ljspeech.files := files w;
             compute_fbank_ljspeech.events :=
               events w ++
               [ compute_fbank_ljspeech.load_manifest
                   "data/manifests/ljspeech_recordings_all.jsonl.gz";
                 compute_fbank_ljspeech.load_manifest
                   "data/manifests/ljspeech_supervisions_all.jsonl.gz";
                 compute_fbank_ljspeech.get_executor;
                 compute_fbank_ljspeech.is_file
                   "data/fbank/ljspeech_cuts_all.jsonl.gz";
                 compute_fbank_ljspeech.logging_info
                   "ljspeech_cuts_all.jsonl.gz already exists - skipping." ] |})).
Proof.
  intros run files events Hfile. subst run files events.
  unfold compute_fbank_ljspeech.compute_spectrogram_ljspeech.
  unfold mbind, compute_fbank_ljspeech.io_bind, mret,
    compute_fbank_ljspeech.io_ret, compute_fbank_ljspeech.emit,
    compute_fbank_ljspeech.lift, compute_fbank_ljspeech.get_files,
    compute_fbank_ljspeech.on_files.
  cbn [compute_fbank_ljspeech.files compute_fbank_ljspeech.events].
  cbv [compute_fbank_ljspeech.path_join String.append].
  destruct os_cpu_count as [n|].
  2: { cbn. split; [done|]. split; [|by intros].
       exists []. by rewrite app_nil_r. }
  destruct (read_manifest _ "data/manifests/ljspeech_recordings_all.jsonl.gz")
    as [recordings|e] eqn:Hrec.
  2: { cbn. split; [done|]. split; [|by intros].
       eexists. split; [reflexivity|]. no_output. }
  destruct (read_manifest _ "data/manifests/ljspeech_supervisions_all.jsonl.gz")
    as [supervisions|e] eqn:Hsup.
  2: { cbn. split; [done|]. split; [|by intros].
       eexists. split; [by rewrite <- (assoc_L app)|]. no_output. }
  rewrite bool_decide_eq_true_2 by exact Hfile.
  cbn. split; [done|]. split.
  - eexists. split; [by rewrite <- !(assoc_L app)|]. no_output.
  - intros n' recordings' supervisions' _ _ _.
    by rewrite <- !(assoc_L app).
Qed.

Lemma skip_when_cuts_exist_witness :
  compute_fbank_ljspeech.compute_spectrogram_ljspeech
    string string string unit (Some 8%Z) None Example.read_manifest
    (λ r s, Ok (r +:+ s)) (λ c _, Ok c) (λ c _ _ _ _ fs, (Ok c, fs))
    (λ c path fs, (Ok (), <[path := c]> fs))
    {| compute_fbank_ljspeech.files :=
         <[ "data/manifests/ljspeech_recordings_all.jsonl.gz" := "recordings" ]>
           (<[ "data/manifests/ljspeech_supervisions_all.jsonl.gz" := "supervisions" ]>
              Example.files);
       compute_fbank_ljspeech.events := [] |}
  = (Ok (),
     {| compute_fbank_ljspeech.files :=
          <[ "data/manifests/ljspeech_recordings_all.jsonl.gz" := "recordings" ]>
            (<[ "data/manifests/ljspeech_supervisions_all.jsonl.gz" := "supervisions" ]>
               Example.files);
        compute_fbank_ljspeech.events :=
          [ compute_fbank_ljspeech.load_manifest
              "data/manifests/ljspeech_recordings_all.jsonl.gz";
            compute_fbank_ljspeech.load_manifest
              "data/manifests/ljspeech_supervisions_all.jsonl.gz";
            compute_fbank_ljspeech.get_executor;
            compute_fbank_ljspeech.is_file
              "data/fbank/ljspeech_cuts_all.jsonl.gz";
            compute_fbank_ljspeech.logging_info
              "ljspeech_cuts_all.jsonl.gz already exists - skipping." ] |}).
Proof.
  destruct (skip_when_cuts_exist string string string unit (Some 8%Z) None
              Example.read_manifest (λ r s, Ok (r +:+ s)) (λ c _, Ok c)
              (λ c _ _ _ _ fs, (Ok c, fs))
              (λ c path fs, (Ok (), <[path := c]> fs))
              {| compute_fbank_ljspeech.files :=
                   <[ "data/manifests/ljspeech_recordings_all.jsonl.gz" := "recordings" ]>
                     (<[ "data/manifests/ljspeech_supervisions_all.jsonl.gz" := "supervisions" ]>
                        Example.files);
                 compute_fbank_ljspeech.events := [] |})
    as (_ & _ & Hrun).
  - cbn. rewrite !lookup_insert_ne by done.
    unfold Example.files. rewrite lookup_singleton_eq. by eexists.
  - apply (Hrun 8%Z "recordings" "supervisions"); [reflexivity| |];
      cbn; unfold Example.read_manifest.
    + by rewrite lookup_insert_eq.
    + rewrite lookup_insert_ne by done. by rewrite lookup_insert_eq.
Defined.

(** * Further properties of the source *)

(** ** ResidualAffineCouplingLayer: both round trips, masking, channel counts *)

(** The forward pass of the affine layer undoes its inverse, on an input
    that is zero where the mask is. *)
Lemma affine_forward_inverse
    (self : ResidualAffineCouplingLayer.t) (B T : nat) (g : option tensor)
    (y x_mask x : tensor) :
  let h := ResidualAffineCouplingLayer.half_channels self in
  0 < B → 0 < h →
  has_shape B (2 * h) T y → has_shape B 1 T x_mask →
  binary_mask B T x_mask → masked B (2 * h) T y x_mask →
  ResidualAffineCouplingLayer.shape_contract self →
  ResidualAffineCouplingLayer.forward self y x_mask g true = Ok (Plain x) →
  (∃ logdet,
     ResidualAffineCouplingLayer.forward self x x_mask g false
     = Ok (WithLogdet y logdet))
  ∧ has_shape B (2 * h) T x ∧ masked B (2 * h) T x x_mask.
Proof.
  intros h HB Hh Hy Hmask Hbin Hmasked Hcontract Hout.
  destruct (affine_forward_statistics self B T g y x_mask HB Hh Hy Hmask
              Hcontract true _ Hout) as (s & Hs & Hshape).
  rewrite (mk_get _ _ _ _ Hshape), (mk_get _ _ _ _ Hmask) in Hs at 1.
  fold h in Hs.
  pose proof (affine_inverse_eval self B T g _ _ _ HB Hh Hs) as Hev.
  cbv beta in Hev. fold h in Hev.
  rewrite <- (mk_get _ _ _ _ Hy), <- (mk_get _ _ _ _ Hmask), Hout in Hev.
  injection Hev as ->. change (h + (h + 0)) with (2 * h) in *.
  match goal with |- context [mk B (2 * h) T ?f] => set (fx := f) end.
  assert (mk B h T fx = mk B h T (get y)) as Hxa.
  { apply mk_ext; intros b c t Hb Hc Ht. unfold fx. by rewrite decide_True. }
  split; [|split].
  - rewrite <- Hxa in Hs.
    pose proof (affine_forward_eval self B T g _ _ _ HB Hh Hs) as Hfwd.
    cbv beta in Hfwd. fold h in Hfwd.
    rewrite <- (mk_get _ _ _ _ Hmask) in Hfwd. rewrite Hfwd.
    eexists. do 2 f_equal.
    etrans; [|symmetry; apply (mk_get _ _ _ _ Hy)].
    apply mk_ext; intros b c t Hb Hc Ht. unfold fx.
    destruct (decide (c < h)) as [Hlt|Hge]; [done|].
    rewrite decide_False by lia.
    replace (h + (c - h) - h) with (c - h) by lia.
    replace (h + (c - h)) with c by lia.
    set (l := if ResidualAffineCouplingLayer.use_only_mean self then 0%R else _).
    pose proof (exp_cancel l) as Hl.
    destruct (Hbin b t ltac:(lia) Ht) as [H0|H1].
    + rewrite H0. rewrite (Hmasked b c t Hb Hc Ht H0). lra.
    + rewrite H1.
      transitivity
        (get s b (c - h) t
         + (get y b c t - get s b (c - h) t) * (exp l * exp (- l)))%R; [ring|].
      rewrite Hl. ring.
  - apply has_shape_mk.
  - intros b c t Hb Hc Ht H0. rewrite get_mk by done. unfold fx.
    destruct (decide (c < h)).
    + by apply Hmasked.
    + rewrite H0. lra.
Qed.

Lemma Example_affine_contract :
  ResidualAffineCouplingLayer.shape_contract Example.affine.
Proof.
  intros B T xa x_mask g s Hxa Hmask.
  unfold ResidualAffineCouplingLayer.statistics. cbn.
  rewrite (mk_get _ _ _ _ Hxa), (mk_get _ _ _ _ Hmask), mul_mk_mask. cbn.
  rewrite cat_mk by lia. intros [= <-]. apply has_shape_mk.
Qed.

(** X1.  ResidualAffineCouplingLayer is a bijection on the tensors that are
    zero where the mask is: the inverse undoes the forward pass and the
    forward pass undoes the inverse. *)
Theorem affine_layer_bijection
    (self : ResidualAffineCouplingLayer.t) (B T : nat) (g : option tensor)
    (x x_mask : tensor) :
  let h := ResidualAffineCouplingLayer.half_channels self in
  0 < B → 0 < h →
  has_shape B (2 * h) T x → has_shape B 1 T x_mask →
  binary_mask B T x_mask → masked B (2 * h) T x x_mask →
  ResidualAffineCouplingLayer.shape_contract self →
  (∀ y logdet,
     ResidualAffineCouplingLayer.forward self x x_mask g false
       = Ok (WithLogdet y logdet) →
     ResidualAffineCouplingLayer.forward self y x_mask g true = Ok (Plain x))
  ∧ (∀ z,
       ResidualAffineCouplingLayer.forward self x x_mask g true = Ok (Plain z) →
       ∃ logdet,
         ResidualAffineCouplingLayer.forward self z x_mask g false
         = Ok (WithLogdet x logdet)).
Proof.
  intros h HB Hh Hx Hmask Hbin Hmasked Hcontract. split.
  - intros y logdet Hfwd.
    by destruct (affine_inverse_forward self B T g x x_mask y logdet
                   HB Hh Hx Hmask Hbin Hmasked Hcontract Hfwd) as [? _].
  - intros z Hinv.
    by destruct (affine_forward_inverse self B T g x x_mask z
                   HB Hh Hx Hmask Hbin Hmasked Hcontract Hinv) as [? _].
Qed.

Lemma affine_layer_bijection_witness :
  ∃ y logdet z,
    ResidualAffineCouplingLayer.forward Example.affine Example.x Example.x_mask
      None false = Ok (WithLogdet y logdet)
    ∧ ResidualAffineCouplingLayer.forward Example.affine y Example.x_mask
        None true = Ok (Plain Example.x)
    ∧ ResidualAffineCouplingLayer.forward Example.affine Example.x
        Example.x_mask None true = Ok (Plain z)
    ∧ ∃ logdet',
        ResidualAffineCouplingLayer.forward Example.affine z Example.x_mask
          None false = Ok (WithLogdet Example.x logdet').
Proof.
  destruct (affine_layer_bijection Example.affine 2 2 None Example.x
              Example.x_mask) as [Hfi Hif].
  - lia.
  - cbn. lia.
  - exact Example_x_shape.
  - exact Example_x_mask_shape.
  - exact Example_x_mask_binary.
  - exact Example_x_masked.
  - exact Example_affine_contract.
  - eexists _, _, _. split; [tensor_eval; reflexivity|].
    split; [eapply Hfi; tensor_eval; reflexivity|].
    split; [tensor_eval; reflexivity|].
    apply Hif. tensor_eval. reflexivity.
Defined.

(** X2.  Whatever the input, a call of ResidualAffineCouplingLayer that
    returns gives a tensor of the shape of the input whose first half is the
    first half of the input and whose second half is zero wherever the mask
    is zero; not inverted, the log-determinant has one entry per batch
    element. *)
Theorem affine_layer_output
    (self : ResidualAffineCouplingLayer.t) (B T : nat) (g : option tensor)
    (x x_mask : tensor) (inverse : bool) (out : flow_out) :
  let h := ResidualAffineCouplingLayer.half_channels self in
  0 < B → 0 < h →
  has_shape B (2 * h) T x → has_shape B 1 T x_mask →
  ResidualAffineCouplingLayer.shape_contract self →
  ResidualAffineCouplingLayer.forward self x x_mask g inverse = Ok out →
  ∃ y,
    (if inverse then out = Plain y
     else ∃ logdet, out = WithLogdet y logdet ∧ length logdet = B)
    ∧ has_shape B (2 * h) T y
    ∧ ∀ b c t, b < B → c < h → t < T →
        get y b c t = get x b c t
        ∧ (get x_mask b 0 t = 0%R → get y b (h + c) t = 0%R).
Proof.
  intros h HB Hh Hx Hmask Hcontract Hout.
  destruct (affine_forward_statistics self B T g x x_mask HB Hh Hx Hmask
              Hcontract inverse out Hout) as (s & Hs & Hshape).
  rewrite (mk_get _ _ _ _ Hshape), (mk_get _ _ _ _ Hmask) in Hs at 1.
  fold h in Hs.
  destruct inverse.
  - pose proof (affine_inverse_eval self B T g _ _ _ HB Hh Hs) as Hev.
    cbv beta in Hev. fold h in Hev.
    rewrite <- (mk_get _ _ _ _ Hx), <- (mk_get _ _ _ _ Hmask), Hout in Hev.
    injection Hev as ->. change (h + (h + 0)) with (2 * h) in *.
    eexists. split; [reflexivity|]. split; [apply has_shape_mk|].
    intros b c t Hb Hc Ht. rewrite !get_mk by lia.
    rewrite decide_True by lia. rewrite decide_False by lia.
    split; [done|]. intros ->. lra.
  - pose proof (affine_forward_eval self B T g _ _ _ HB Hh Hs) as Hev.
    cbv beta in Hev. fold h in Hev.
    rewrite <- (mk_get _ _ _ _ Hx), <- (mk_get _ _ _ _ Hmask), Hout in Hev.
    injection Hev as ->. change (h + (h + 0)) with (2 * h) in *.
    eexists. split.
    { eexists. split; [reflexivity|]. by rewrite length_fmap, length_seq. }
    split; [apply has_shape_mk|].
    intros b c t Hb Hc Ht. rewrite !get_mk by lia.
    rewrite decide_True by lia. rewrite decide_False by lia.
    split; [done|]. intros ->. lra.
Qed.

Lemma affine_layer_output_witness :
  ∃ y,
    ResidualAffineCouplingLayer.forward Example.affine Example.x Example.x_mask
      None true = Ok (Plain y)
    ∧ has_shape 2 2 2 y
    ∧ get y 0 1 1 = 0%R.
Proof.
  edestruct (affine_layer_output Example.affine 2 2 None Example.x
               Example.x_mask true) as (y & Hout & Hshape & Hget).
  - lia.
  - cbn. lia.
  - exact Example_x_shape.
  - exact Example_x_mask_shape.
  - exact Example_affine_contract.
  - tensor_eval. reflexivity.
  - injection Hout as <-. eexists. split; [tensor_eval; reflexivity|].
    split; [exact Hshape|].
    destruct (Hget 0 0 1) as [_ Hzero]; [lia|cbn; lia|lia|].
    apply Hzero. reflexivity.
Defined.

Lemma size1_shape (B C T : nat) (x : tensor) :
  0 < B → has_shape B C T x → torch.size1 x = C.
Proof. intros HB Hx. rewrite (mk_get _ _ _ _ Hx). by apply size1_mk. Qed.

(** The first line of both coupling layers on a channel count that is not
    twice a positive number. *)
Lemma split_halves_raises (B C T : nat) (x : tensor) :
  0 < B → has_shape B C T x → C = 0 ∨ C mod 2 = 1 →
  torch.split (torch.size1 x / 2) x ≫= unpack2
  = Raise (if decide (C = 0)
           then ValueError "not enough values to unpack (expected 2)"
           else if decide (C = 1)
           then RuntimeError "split_size can only be 0 if dimension size is 0"
           else ValueError "too many values to unpack (expected 2)").
Proof.
  intros HB Hx HC. rewrite (size1_shape _ _ _ _ HB Hx).
  destruct (decide (C = 0)) as [->|HC0].
  { unfold torch.split. cbn [Nat.div Nat.divmod fst].
    rewrite decide_True by done.
    rewrite (size1_shape _ _ _ _ HB Hx). by rewrite decide_True. }
  destruct HC as [?|Hodd]; [done|].
  destruct (decide (C = 1)) as [->|HC1].
  { unfold torch.split. cbn [Nat.div Nat.divmod fst].
    rewrite decide_True by done.
    rewrite (size1_shape _ _ _ _ HB Hx). by rewrite decide_False. }
  pose proof (Nat.div_mod_eq C 2) as Hdiv.
  set (k := C / 2) in *.
  assert (0 < k) as Hk by lia.
  unfold torch.split. rewrite decide_False by lia.
  rewrite (size1_shape _ _ _ _ HB Hx).
  replace ((C + k - 1) / k) with 3.
  - done.
  - replace (C + k - 1) with (3 * k) by lia.
    symmetry. apply Nat.div_mul. lia.
Qed.

(** X3.  Both coupling layers split the channels of [x] in two before
    anything else: on an input with no channel or an odd number of channels
    they raise, whatever their modules, the mask, [g] and the direction. *)
Theorem coupling_layers_need_even_channels
    (B C T : nat) (x x_mask : tensor) (g : option tensor) (inverse : bool) :
  0 < B → has_shape B C T x → C = 0 ∨ C mod 2 = 1 →
  let e :=
    if decide (C = 0)
    then ValueError "not enough values to unpack (expected 2)"
    else if decide (C = 1)
    then RuntimeError "split_size can only be 0 if dimension size is 0"
    else ValueError "too many values to unpack (expected 2)" in
  (∀ self, ResidualAffineCouplingLayer.forward self x x_mask g inverse = Raise e)
  ∧ (∀ self,
       ResidualCouplingTransformersLayer.forward self x x_mask g inverse
       = Raise e).
Proof.
  intros HB Hx HC e. split; intros self.
  - unfold ResidualAffineCouplingLayer.forward.
    by rewrite (split_halves_raises B C T x HB Hx HC).
  - unfold ResidualCouplingTransformersLayer.forward.
    by rewrite (split_halves_raises B C T x HB Hx HC).
Qed.

Lemma coupling_layers_need_even_channels_witness :
  ResidualAffineCouplingLayer.forward Example.affine
    [ [ [1%R]; [2%R]; [3%R] ] ] [ [ [1%R] ] ] None false
  = Raise (ValueError "too many values to unpack (expected 2)")
  ∧ ResidualCouplingTransformersLayer.forward Example.transformers
      [ [ [1%R] ] ] [ [ [1%R] ] ] None true
    = Raise (RuntimeError "split_size can only be 0 if dimension size is 0").
Proof.
  split.
  - destruct (coupling_layers_need_even_channels 1 3 1
                [ [ [1%R]; [2%R]; [3%R] ] ] [ [ [1%R] ] ] None false)
      as [Haffine _]; [lia|solve_shape|by right|].
    apply Haffine.
  - destruct (coupling_layers_need_even_channels 1 1 1
                [ [ [1%R] ] ] [ [ [1%R] ] ] None true)
      as [_ Htrans]; [lia|solve_shape|by right|].
    apply Htrans.
Defined.

(** ** ResidualCouplingBlock built from affine layers *)

Lemma affine_stage_forward_inverse
    (h B T : nat) (g : option tensor) (flow : Flow) (y x_mask x : tensor) :
  0 < B → 0 < h → affine_stage h flow →
  has_shape B (2 * h) T y → has_shape B 1 T x_mask →
  binary_mask B T x_mask → masked B (2 * h) T y x_mask →
  call flow y x_mask g true = Ok (Plain x) →
  (∃ ld, call flow x x_mask g false = Ok (WithLogdet y ld))
  ∧ has_shape B (2 * h) T x ∧ masked B (2 * h) T x x_mask.
Proof.
  intros HB Hh Hstage Hy Hmask Hbin Hmasked Hcall.
  destruct flow as [|layer| | |]; try done; cbn in Hcall |- *.
  - unfold FlipFlow.forward in *. cbn in Hcall |- *.
    injection Hcall as <-.
    rewrite (flip_flip _ _ _ _ Hy).
    split; [by eexists|]. split; [by apply flip_shape|by apply flip_masked].
  - destruct Hstage as [<- Hcontract].
    by eapply affine_forward_inverse.
Qed.

Lemma affine_stage_returns_tensor
    (h : nat) (g : option tensor) (flow : Flow) (x x_mask : tensor) (out : flow_out) :
  affine_stage h flow →
  call flow x x_mask g true = Ok out → ∃ y, out = Plain y.
Proof.
  intros Hstage. destruct flow as [|layer| | |]; try done; cbn.
  - unfold FlipFlow.forward. cbn. intros [= <-]. eauto.
  - unfold ResidualAffineCouplingLayer.forward. cbn [negb]. intros H.
    inv_bind H. injection H as <-. eauto.
Qed.

Lemma affine_block_forward_inverse
    (h B T : nat) (g : option tensor) (flows : list Flow) (x_mask : tensor) :
  0 < B → 0 < h → Forall (affine_stage h) flows →
  has_shape B 1 T x_mask → binary_mask B T x_mask →
  ∀ y x,
    has_shape B (2 * h) T y → masked B (2 * h) T y x_mask →
    for_ (reverse flows)
      (λ x flow, call flow x x_mask g true ≫= as_tensor) y = Ok x →
    for_ flows
      (λ x flow, '(x, _) ← call flow x x_mask g false ≫= unpack_pair; Ok x) x
    = Ok y
    ∧ has_shape B (2 * h) T x ∧ masked B (2 * h) T x x_mask.
Proof.
  intros HB Hh Hflows Hmask Hbin.
  induction Hflows as [|flow flows Hflow _ IH]; intros y x Hy Hmasked Hinv.
  - cbn in *. by injection Hinv as ->.
  - rewrite reverse_cons, for_app in Hinv.
    apply bind_Ok in Hinv as (x1 & Hrest & Hlast).
    cbn [for_] in Hlast. apply bind_Ok in Hlast as (x2 & Hcall & Hx2).
    injection Hx2 as ->.
    apply bind_Ok in Hcall as (out & Hcall & Hout).
    destruct (affine_stage_returns_tensor h g flow x1 x_mask out Hflow Hcall)
      as (x3 & ->).
    injection Hout as ->.
    destruct (IH y x1 Hy Hmasked Hrest) as (Hfwd & Hx1 & Hmasked1).
    destruct (affine_stage_forward_inverse h B T g flow x1 x_mask x
                HB Hh Hflow Hx1 Hmask Hbin Hmasked1 Hcall)
      as ((ld & Hstage) & Hx & Hmaskedx).
    split; [|done].
    cbn [for_]. rewrite Hstage. cbn. exact Hfwd.
Qed.

Lemma init_affine_stages
    (n h : nat) (affine : nat → ResidualAffineCouplingLayer.t)
    (transformers : nat → ResidualCouplingTransformersLayer.t) :
  (∀ i, i < n →
     ResidualAffineCouplingLayer.half_channels (affine i) = h
     ∧ ResidualAffineCouplingLayer.shape_contract (affine i)) →
  Forall (affine_stage h)
    (ResidualCouplingBlock.flows
       (ResidualCouplingBlock.init n false affine transformers)).
Proof.
  intros Hlayers. cbn.
  apply Forall_flat_map, Forall_forall. intros i [_ Hi]%elem_of_seq.
  cbn in Hi.
  apply Forall_cons_2; [by apply Hlayers|].
  apply Forall_cons_2; [done|apply Forall_nil_2].
Qed.

(** X4.  A block that [__init__] builds without Transformer flows is a
    bijection on the tensors that are zero where the mask is: its inverse
    mode undoes its forward mode and its forward mode undoes its inverse
    mode. *)
Theorem affine_block_bijection
    (n h B T : nat) (affine : nat → ResidualAffineCouplingLayer.t)
    (transformers : nat → ResidualCouplingTransformersLayer.t)
    (g : option tensor) (x x_mask : tensor) :
  let block := ResidualCouplingBlock.init n false affine transformers in
  0 < B → 0 < h →
  (∀ i, i < n →
     ResidualAffineCouplingLayer.half_channels (affine i) = h
     ∧ ResidualAffineCouplingLayer.shape_contract (affine i)) →
  has_shape B (2 * h) T x → has_shape B 1 T x_mask →
  binary_mask B T x_mask → masked B (2 * h) T x x_mask →
  (∀ y, ResidualCouplingBlock.forward block x x_mask g false = Ok y →
        ResidualCouplingBlock.forward block y x_mask g true = Ok x)
  ∧ (∀ z, ResidualCouplingBlock.forward block x x_mask g true = Ok z →
          ResidualCouplingBlock.forward block z x_mask g false = Ok x).
Proof.
  intros block HB Hh Hlayers Hx Hmask Hbin Hmasked.
  pose proof (init_affine_stages n h affine transformers Hlayers) as Hstages.
  split.
  - intros y Hfwd.
    by eapply (affine_block_inverse_forward h B T g _ x_mask HB Hh Hstages
                 Hmask Hbin x y).
  - intros z Hinv.
    by destruct (affine_block_forward_inverse h B T g _ x_mask HB Hh Hstages
                   Hmask Hbin x z Hx Hmasked Hinv) as [? _].
Qed.

Lemma affine_block_bijection_witness :
  let block :=
    ResidualCouplingBlock.init 2 false (λ _, Example.affine)
      (λ _, Example.transformers) in
  ∃ y,
    ResidualCouplingBlock.forward block Example.x Example.x_mask None false
      = Ok y
    ∧ ResidualCouplingBlock.forward block y Example.x_mask None true
      = Ok Example.x.
Proof.
  destruct (affine_block_bijection 2 1 2 2 (λ _, Example.affine)
              (λ _, Example.transformers) None Example.x Example.x_mask)
    as [Hfi _].
  - lia.
  - lia.
  - intros i _. split; [reflexivity|exact Example_affine_contract].
  - exact Example_x_shape.
  - exact Example_x_mask_shape.
  - exact Example_x_mask_binary.
  - exact Example_x_masked.
  - cbv zeta. eexists. split; [tensor_eval; reflexivity|].
    apply Hfi. tensor_eval. reflexivity.
Defined.

(** ** ResidualAffineCouplingLayer as constructed *)

Lemma zeroed_conv1d_mk (B C K T : nat) (f : nat → nat → nat → R) :
  0 < B → 0 < C →
  torch.conv1d (torch.zeroed_conv1d C K) (mk B C T f)
  = Ok (mk B K T (λ _ _ _, 0%R)).
Proof.
  intros HB HC. unfold torch.conv1d. cbn [torch.zeroed_conv1d torch.in_channels
    torch.weight torch.bias].
  rewrite size1_mk by done. rewrite decide_True by done. f_equal.
  unfold mk. rewrite <- list_fmap_compose. apply fmap_seq_ext; intros b _.
  cbn [compose].
  rewrite zip_with_replicate, fmap_replicate.
  rewrite <- (const_fmap_seq _ K 0). apply fmap_seq_ext; intros c _.
  destruct C as [|C]; [lia|]. cbn [seq fmap list_fmap hd].
  rewrite length_fmap, length_seq.
  apply fmap_seq_ext; intros t _.
  rewrite sum_list_zero; [lra|].
  change (f b 0 <$> seq 0 T :: ((λ c0, f b c0 <$> seq 0 T) <$> seq 1 C))
    with ((λ c0, f b c0 <$> seq 0 T) <$> seq 0 (S C)).
  apply Forall_forall. intros v Hv.
  apply elem_of_lookup_zip_with in Hv as (i & w & row & -> & Hw & _).
  apply lookup_replicate in Hw as [-> _]. lra.
Qed.

(** X5.  [__init__] of ResidualAffineCouplingLayer asserts an even channel
    count and zeroes the projection: the layer it returns starts as the
    identity under the mask.  In both directions it returns [xa] with
    [xb * x_mask], whatever the input convolution and the encoder compute,
    and a log-determinant of zero: on an input that is zero where the mask is,
    the input itself. *)
Theorem fresh_affine_layer_is_identity
    (in_channels hidden_channels : nat) (use_only_mean : bool)
    (input_weight : list (list R)) (input_bias : list R)
    (new_encoder : tensor → tensor → option tensor → res tensor)
    (B T : nat) (g : option tensor) (x x_mask e : tensor) :
  let new :=
    ResidualAffineCouplingLayer.init in_channels hidden_channels use_only_mean
      input_weight input_bias new_encoder in
  let h := in_channels / 2 in
  (in_channels mod 2 ≠ 0 →
     new = Raise (AssertionError "in_channels should be divisible by 2"))
  ∧ (in_channels mod 2 = 0 →
     ∃ self,
       new = Ok self
       ∧ ResidualAffineCouplingLayer.half_channels self = h
       ∧ (0 < B → 0 < h → 0 < hidden_channels →
          has_shape B in_channels T x → has_shape B 1 T x_mask →
          (h0 ← ResidualAffineCouplingLayer.input_conv self (mk B h T (get x))
                 ≫= (λ h0, torch.mul h0 x_mask);
           new_encoder h0 x_mask g) = Ok e →
          has_shape B hidden_channels T e →
          ∃ y,
            ResidualAffineCouplingLayer.forward self x x_mask g false
              = Ok (WithLogdet y (replicate B 0%R))
            ∧ ResidualAffineCouplingLayer.forward self x x_mask g true
              = Ok (Plain y)
            ∧ has_shape B in_channels T y
            ∧ (∀ b c t, b < B → c < h → t < T →
                 get y b c t = get x b c t
                 ∧ get y b (h + c) t
                   = (get x b (h + c) t * get x_mask b 0 t)%R)
            ∧ (binary_mask B T x_mask → masked B in_channels T x x_mask →
               y = x))).
Proof.
  intros new h. subst new. unfold ResidualAffineCouplingLayer.init. split.
  { intros Hodd. by rewrite decide_False. }
  intros Heven. rewrite decide_True by done. fold h.
  eexists. split; [reflexivity|]. split; [reflexivity|].
  intros HB Hh Hhid Hx Hmask Henc He.
  assert (in_channels = 2 * h) as Hin.
  { pose proof (Nat.div_mod_eq in_channels 2). unfold h. lia. }
  rewrite Hin in Hx |- *.
  set (self := {| ResidualAffineCouplingLayer.half_channels := h |}) in *.
  assert (ResidualAffineCouplingLayer.statistics self (mk B h T (get x))
            (mk B 1 T (get x_mask)) g
          = Ok (mk B (ResidualAffineCouplingLayer.stats_channels self) T
                  (λ _ _ _, 0%R))) as Hstats.
  { unfold ResidualAffineCouplingLayer.statistics.
    rewrite <- (mk_get _ _ _ _ Hmask).
    change (ResidualAffineCouplingLayer.encoder self) with new_encoder.
    apply bind_Ok in Henc as (h0 & Hconv & Henc).
    rewrite Hconv. cbn [mbind res_bind]. rewrite Henc. cbn [mbind res_bind].
    rewrite (mk_get _ _ _ _ He).
    unfold self at 1. cbn [ResidualAffineCouplingLayer.proj].
    rewrite zeroed_conv1d_mk by done.
    unfold ResidualAffineCouplingLayer.stats_channels, self.
    cbn [ResidualAffineCouplingLayer.use_only_mean
         ResidualAffineCouplingLayer.half_channels].
    destruct use_only_mean; [done|]. by rewrite (Nat.mul_comm h 2). }
  pose proof (affine_forward_eval self B T g _ _ _ HB Hh Hstats) as Hfwd.
  pose proof (affine_inverse_eval self B T g _ _ _ HB Hh Hstats) as Hinv.
  cbv beta in Hfwd, Hinv.
  change (ResidualAffineCouplingLayer.half_channels self) with h in Hfwd, Hinv.
  rewrite <- (mk_get _ _ _ _ Hx), <- (mk_get _ _ _ _ Hmask) in Hfwd, Hinv.
  assert (∀ b t : nat,
            (if ResidualAffineCouplingLayer.use_only_mean self then 0
             else 0 * get x_mask b 0 t)%R = 0%R) as HL.
  { intros b t. destruct (ResidualAffineCouplingLayer.use_only_mean self); lra. }
  set (Y := mk B (2 * h) T (λ b c t,
              if decide (c < h) then get x b c t
              else (get x b c t * get x_mask b 0 t)%R)).
  exists Y. split; [|split; [|split; [|split]]].
  - rewrite Hfwd. do 2 f_equal.
    + apply mk_ext; intros b c t Hb Hc Ht.
      destruct (decide (c < h)); [done|].
      rewrite HL, exp_0.
      replace (h + (c - h)) with c by lia. lra.
    + rewrite <- (const_fmap_seq 0%R B 0). apply fmap_seq_ext; intros b _.
      etrans; [|apply (sum_ct_zero h T)].
      apply sum_ct_ext; intros c t _ _. apply HL.
  - rewrite Hinv. do 2 f_equal.
    apply mk_ext; intros b c t Hb Hc Ht.
    destruct (decide (c < h)); [done|].
    rewrite HL, Ropp_0, exp_0.
    replace (h + (c - h)) with c by lia. lra.
  - apply has_shape_mk.
  - intros b c t Hb Hc Ht. unfold Y. rewrite !get_mk by lia.
    rewrite decide_True by lia. by rewrite decide_False by lia.
  - intros Hbin Hmasked. etrans; [|symmetry; apply (mk_get _ _ _ _ Hx)].
    apply mk_ext; intros b c t Hb Hc Ht.
    destruct (decide (c < h)); [done|].
    destruct (Hbin b t Hb Ht) as [H0|H1].
    + rewrite H0, (Hmasked b c t Hb Hc Ht H0). lra.
    + rewrite H1. lra.
Qed.

Lemma fresh_affine_layer_is_identity_witness :
  ∃ self,
    ResidualAffineCouplingLayer.init 2 1 false [ [1%R] ] [0%R] (λ h _ _, Ok h)
      = Ok self
    ∧ ResidualAffineCouplingLayer.forward self Example.x Example.x_mask None
        false = Ok (WithLogdet Example.x [0%R; 0%R])
    ∧ ResidualAffineCouplingLayer.forward self Example.x Example.x_mask None
        true = Ok (Plain Example.x).
Proof.
  edestruct (fresh_affine_layer_is_identity 2 1 false [ [1%R] ] [0%R]
               (λ h _ _, Ok h) 2 2 None Example.x Example.x_mask)
    as [_ Heven].
  destruct (Heven eq_refl) as (self & Hnew & _ & Hfresh).
  exists self. split; [exact Hnew|].
  cbv in Hnew. injection Hnew as <-.
  edestruct Hfresh as (y & Hfwd & Hinv & _ & _ & Hid).
  - lia.
  - cbn. lia.
  - lia.
  - exact Example_x_shape.
  - exact Example_x_mask_shape.
  - tensor_eval. reflexivity.
  - solve_shape.
  - rewrite (Hid Example_x_mask_binary Example_x_masked) in Hfwd, Hinv.
    split; [exact Hfwd|exact Hinv].
Defined.

(** ** ResidualCouplingTransformersLayer: refinement, then an affine layer *)

(** X6.  ResidualCouplingTransformersLayer is an affine coupling layer
    applied to the input with its first half refined: with [xa'] the sum of
    [xa] and the output of the pre Transformer on it, a call on [x] is the
    call of the affine layer of the same convolutions and encoder on
    [cat(xa', xb)], in both directions. *)
Theorem transformers_layer_is_affine_on_refined_input
    (self : ResidualCouplingTransformersLayer.t) (B h T : nat)
    (g : option tensor) (x x_mask xa xb xa_trans : tensor) :
  0 < B → 0 < h →
  has_shape B (2 * h) T x →
  torch.split (torch.size1 x / 2) x = Ok [xa; xb] →
  torch.transpose
    <$> ResidualCouplingTransformersLayer.pre_transformer self
          (torch.transpose xa) (torch.where_gt0 (torch.squeeze x_mask))
    = Ok xa_trans →
  has_shape B h T xa_trans →
  ∃ xa' x',
    torch.add xa xa_trans = Ok xa'
    ∧ torch.cat xa' xb = Ok x'
    ∧ has_shape B (2 * h) T x'
    ∧ ∀ inverse,
        ResidualCouplingTransformersLayer.forward self x x_mask g inverse
        = ResidualAffineCouplingLayer.forward
            (ResidualCouplingTransformersLayer.affine_part self)
            x' x_mask g inverse.
Proof.
  intros HB Hh Hx Hsplit Htrans Hshape.
  pose proof Hsplit as Hsplit'.
  rewrite (mk_get _ _ _ _ Hx), split_mk in Hsplit' by done.
  injection Hsplit' as Hxa Hxb.
  assert (torch.add xa xa_trans
          = Ok (mk B h T (λ b c t, get x b c t + get xa_trans b c t)%R)) as Hadd.
  { rewrite <- Hxa. rewrite (mk_get _ _ _ _ Hshape) at 1. apply add_mk. }
  set (xa' := mk B h T (λ b c t, get x b c t + get xa_trans b c t)%R) in *.
  assert (torch.cat xa' xb
          = Ok (mk B (2 * h) T (λ b c t,
                  if decide (c < h)
                  then (get x b c t + get xa_trans b c t)%R
                  else get x b (h + (c - h)) t))) as Hcat.
  { rewrite <- Hxb. unfold xa'. by rewrite cat_mk. }
  set (x' := mk B (2 * h) T _) in Hcat.
  exists xa', x'. split; [done|]. split; [done|].
  split; [apply has_shape_mk|].
  intros inverse.
  unfold ResidualCouplingTransformersLayer.forward,
    ResidualAffineCouplingLayer.forward.
  rewrite Hsplit. cbn [mbind res_bind unpack2].
  rewrite Htrans. cbn [mbind res_bind]. rewrite Hadd. cbn [mbind res_bind].
  unfold x'. rewrite split_mk by done. cbn [mbind res_bind unpack2].
  replace (mk B h T (λ b c t,
             if decide (c < h)
             then (get x b c t + get xa_trans b c t)%R
             else get x b (h + (c - h)) t)) with xa'
    by (apply mk_ext; intros b c t Hb Hc Ht; by rewrite decide_True).
  replace (mk B h T (λ b c t,
             if decide (h + c < h)
             then (get x b (h + c) t + get xa_trans b (h + c) t)%R
             else get x b (h + (h + c - h)) t)) with xb
    by (rewrite <- Hxb; apply mk_ext; intros b c t Hb Hc Ht;
        rewrite decide_False by lia; do 2 f_equal; lia).
  cbn [ResidualCouplingTransformersLayer.affine_part
       ResidualAffineCouplingLayer.input_conv
       ResidualAffineCouplingLayer.encoder
       ResidualAffineCouplingLayer.proj
       ResidualAffineCouplingLayer.use_only_mean].
  destruct (ResidualCouplingTransformersLayer.input_conv self xa'
            ≫= (λ h0, torch.mul h0 x_mask)) as [h0|]; [|done].
  cbn [mbind res_bind].
  destruct (ResidualCouplingTransformersLayer.encoder self h0 x_mask g)
    as [h1|]; [|done].
  cbn [mbind res_bind]. done.
Qed.

Lemma transformers_layer_is_affine_on_refined_input_witness :
  ∃ x',
    torch.cat [ [ [(1 + 1)%R; (0 + 0)%R] ]; [ [(3 + 3)%R; (4 + 4)%R] ] ]
      Example.xb = Ok x'
    ∧ ResidualCouplingTransformersLayer.forward Example.transformers
        Example.x Example.x_mask None false
      = ResidualAffineCouplingLayer.forward
          (ResidualCouplingTransformersLayer.affine_part Example.transformers)
          x' Example.x_mask None false.
Proof.
  destruct (transformers_layer_is_affine_on_refined_input Example.transformers
              2 1 2 None Example.x Example.x_mask Example.xa Example.xb
              Example.xa)
    as (xa' & x' & Hadd & Hcat & _ & Hsame).
  - lia.
  - lia.
  - exact Example_x_shape.
  - reflexivity.
  - reflexivity.
  - solve_shape.
  - exists x'. cbv in Hadd. injection Hadd as <-.
    split; [exact Hcat|apply Hsame].
Defined.

(** ** StochasticDurationPredictor: the dequantised duration *)

Lemma sigmoid_bounds (v : R) : (0 < torch.sigmoid v < 1)%R.
Proof.
  unfold torch.sigmoid. pose proof (exp_pos (- v)) as He. split.
  - apply Rdiv_lt_0_compat; lra.
  - apply (Rmult_lt_reg_r (1 + exp (- v))); [lra|].
    unfold Rdiv. rewrite Rmult_assoc, Rinv_l by lra. lra.
Qed.



(** ** LayerNorm *)

Lemma transpose_mk (B C T : nat) (f : nat → nat → nat → R) :
  0 < C →
  torch.transpose (mk B C T f) = mk B T C (λ b t c, f b c t).
Proof.
  intros HC. unfold torch.transpose, mk.
  rewrite <- list_fmap_compose. apply fmap_seq_ext; intros b _. cbn [compose].
  destruct C as [|C]; [lia|].
  replace (length (hd [] ((λ c, f b c <$> seq 0 T) <$> seq 0 (S C)))) with T
    by (cbn; by rewrite length_fmap, length_seq).
  apply fmap_seq_ext; intros t Ht.
  rewrite <- list_fmap_compose. apply fmap_seq_ext; intros c _. cbn [compose].
  by apply nth_fmap_seq.
Qed.

Lemma layer_norm_mk (B T C : nat) (gamma beta : list R) (eps : R)
    (f : nat → nat → nat → R) :
  length gamma = C → length beta = C →
  torch.layer_norm C gamma beta eps (mk B T C f)
  = Ok (mk B T C (λ b t c,
          let row := f b t <$> seq 0 C in
          let m := torch.mean row in
          let v := torch.mean ((λ a, (a - m) ^ 2)%R <$> row) in
          ((f b t c - m) / sqrt (v + eps) * nth c gamma 0 + nth c beta 0)%R)).
Proof.
  intros Hg Hb. unfold torch.layer_norm, mk.
  apply mapM_fmap_Ok; intros b _.
  apply mapM_fmap_Ok; intros t _.
  rewrite decide_True by (by rewrite length_fmap, length_seq).
  f_equal. unfold torch.layer_norm_row. cbv zeta.
  rewrite (list_tabulate 0%R gamma C Hg) at 1.
  rewrite (list_tabulate 0%R beta C Hb) at 1.
  rewrite !zip_with_fmap_l, !zip_with_fmap_r, zip_with_diag.
  rewrite zip_with_fmap_l, zip_with_diag.
  by apply fmap_seq_ext.
Qed.

(** [LayerNorm.forward] on a table. *)
Lemma LayerNorm_forward_mk (self : LayerNorm.t) (B C T : nat)
    (f : nat → nat → nat → R) :
  0 < C → 0 < T →
  LayerNorm.channels self = C →
  length (LayerNorm.gamma self) = C → length (LayerNorm.beta self) = C →
  LayerNorm.forward self (mk B C T f)
  = Ok (mk B C T (λ b c t,
          let row := (λ c, f b c t) <$> seq 0 C in
          let m := torch.mean row in
          let v := torch.mean ((λ a, (a - m) ^ 2)%R <$> row) in
          ((f b c t - m) / sqrt (v + LayerNorm.eps self)
           * nth c (LayerNorm.gamma self) 0 + nth c (LayerNorm.beta self) 0)%R)).
Proof.
  intros HC HT Hch Hg Hb. unfold LayerNorm.forward.
  rewrite transpose_mk by done. rewrite Hch.
  rewrite layer_norm_mk by done. cbn [mbind res_bind].
  by rewrite transpose_mk by done.
Qed.

Lemma mapM_Raise_head {A C} (k : A → res C) (a : A) (l : list A) (e : exn) :
  k a = Raise e → mapM k (a :: l) = Raise e.
Proof. intros Hk. cbn. by rewrite Hk. Qed.

Lemma sum_list_nonneg (l : list R) :
  Forall (λ v, (0 <= v)%R) l → (0 <= sum_list l)%R.
Proof.
  unfold sum_list. induction 1 as [|v l Hv _ IH]; cbn; lra.
Qed.

(** The variance of a row is not negative. *)
Lemma mean_sq_nonneg (m : R) (row : list R) :
  (0 <= torch.mean ((λ a, (a - m) ^ 2)%R <$> row))%R.
Proof.
  unfold torch.mean. rewrite length_fmap.
  assert (0 <= sum_list ((λ a, (a - m) ^ 2)%R <$> row))%R as Hsum.
  { apply sum_list_nonneg, Forall_fmap, Forall_forall. intros a _. cbn.
    apply pow2_ge_0. }
  destruct row as [|a row].
  - cbn. unfold Rdiv. rewrite Rinv_0. lra.
  - apply Rle_mult_inv_pos; [done|]. apply lt_0_INR. cbn. lia.
Qed.

(** X8.  LayerNorm normalises over the channels, frame by frame: on a
    [(B, C, T)] tensor with [C] its channel count, entry [(b, c, t)] of the
    output is the input entry centred by the mean over the channels at
    [(b, t)], divided by the root of their variance plus [eps], scaled by
    [gamma[c]] and shifted by [beta[c]], the divisor being positive for a
    positive [eps]; with another channel count it raises. *)
Theorem LayerNorm_normalizes_channels
    (self : LayerNorm.t) (B C T : nat) (x : tensor) :
  0 < B → 0 < C → 0 < T → has_shape B C T x →
  (0 < LayerNorm.eps self)%R →
  length (LayerNorm.gamma self) = LayerNorm.channels self →
  length (LayerNorm.beta self) = LayerNorm.channels self →
  (LayerNorm.channels self = C →
     ∃ y,
       LayerNorm.forward self x = Ok y ∧ has_shape B C T y
       ∧ ∀ b c t, b < B → c < C → t < T →
           let row := (λ c, get x b c t) <$> seq 0 C in
           let m := torch.mean row in
           let v := torch.mean ((λ a, (a - m) ^ 2)%R <$> row) in
           (0 < sqrt (v + LayerNorm.eps self))%R
           ∧ get y b c t
             = ((get x b c t - m) / sqrt (v + LayerNorm.eps self)
                * nth c (LayerNorm.gamma self) 0
                + nth c (LayerNorm.beta self) 0)%R)
  ∧ (LayerNorm.channels self ≠ C →
       LayerNorm.forward self x
       = Raise (RuntimeError "Given normalized_shape, expected input with matching shape")).
Proof.
  intros HB HC HT Hx Heps Hg Hb. split.
  - intros Hch. rewrite Hch in Hg, Hb. as_table x Hx fx.
    rewrite (LayerNorm_forward_mk self B C T _ HC HT Hch Hg Hb).
    eexists. split; [reflexivity|]. split; [apply has_shape_mk|].
    intros b c t Hb' Hc Ht. cbv zeta. split; [|by rewrite get_mk].
    apply sqrt_lt_R0.
    pose proof (mean_sq_nonneg
                  (torch.mean ((λ c, fx b c t) <$> seq 0 C))
                  ((λ c, fx b c t) <$> seq 0 C)).
    lra.
  - intros Hch. unfold LayerNorm.forward.
    rewrite (mk_get _ _ _ _ Hx), transpose_mk by done.
    destruct B as [|B]; [lia|]. destruct T as [|T]; [lia|].
    unfold torch.layer_norm, mk. cbn [seq fmap list_fmap].
    erewrite mapM_Raise_head; [done|].
    erewrite mapM_Raise_head; [done|].
    rewrite decide_False; [done|].
    rewrite length_fmap, length_seq. intros [? _]. by apply Hch.
Qed.

Lemma LayerNorm_normalizes_channels_witness :
  (∃ y, LayerNorm.forward (LayerNorm.init 2 LayerNorm.default_eps) Example.x
        = Ok y ∧ has_shape 2 2 2 y)
  ∧ LayerNorm.forward (LayerNorm.init 3 LayerNorm.default_eps) Example.x
    = Raise (RuntimeError "Given normalized_shape, expected input with matching shape").
Proof.
  split.
  - destruct (LayerNorm_normalizes_channels
                (LayerNorm.init 2 LayerNorm.default_eps) 2 2 2 Example.x)
      as [Hsame _];
      [lia|lia|lia|exact Example_x_shape
      |cbn; unfold LayerNorm.default_eps; lra|reflexivity|reflexivity|].
    destruct (Hsame eq_refl) as (y & Hy & Hshape & _). by exists y.
  - destruct (LayerNorm_normalizes_channels
                (LayerNorm.init 3 LayerNorm.default_eps) 2 2 2 Example.x)
      as [_ Hother];
      [lia|lia|lia|exact Example_x_shape
      |cbn; unfold LayerNorm.default_eps; lra|reflexivity|reflexivity|].
    apply Hother. cbn. lia.
Defined.

Lemma nth_replicate_lt {A} (a d : A) (n i : nat) :
  i < n → nth i (replicate n a) d = a.
Proof.
  intros Hi. apply nth_lookup_Some. by apply lookup_replicate_2.
Qed.

Lemma sum_list_centred (a : nat → R) (m k : R) (l : list nat) :
  sum_list ((λ i, (a i - m) * k)%R <$> l)
  = ((sum_list (a <$> l) - INR (length l) * m) * k)%R.
Proof.
  unfold sum_list. induction l as [|i l IH]; [cbn; lra|].
  cbn [fmap list_fmap foldr length]. rewrite IH, S_INR. lra.
Qed.

Lemma sum_list_scaled_sq (a : nat → R) (k : R) (l : list nat) :
  sum_list ((λ i, (a i * k) ^ 2)%R <$> l)
  = (sum_list ((λ i, a i ^ 2)%R <$> l) * k ^ 2)%R.
Proof.
  unfold sum_list. induction l as [|i l IH]; [cbn; lra|].
  cbn [fmap list_fmap foldr]. rewrite IH. lra.
Qed.

(** X9.  A LayerNorm as [__init__] leaves it ([gamma] ones, [beta] zeros),
    with a positive [eps], returns at every frame channel values of mean
    zero and of mean square below one. *)
Theorem fresh_LayerNorm_centres
    (C B T : nat) (eps : R) (x : tensor) :
  0 < B → 0 < C → 0 < T → (0 < eps)%R → has_shape B C T x →
  ∃ y,
    LayerNorm.forward (LayerNorm.init C eps) x = Ok y
    ∧ has_shape B C T y
    ∧ ∀ b t, b < B → t < T →
        sum_list ((λ c, get y b c t) <$> seq 0 C) = 0%R
        ∧ (sum_list ((λ c, get y b c t ^ 2)%R <$> seq 0 C) < INR C)%R.
Proof.
  intros HB HC HT Heps Hx. as_table x Hx fx.
  rewrite (LayerNorm_forward_mk (LayerNorm.init C eps) B C T _ HC HT eq_refl)
    by (cbn; by rewrite length_replicate).
  eexists. split; [reflexivity|]. split; [apply has_shape_mk|].
  intros b t Hb Ht. cbv zeta. cbn [LayerNorm.init LayerNorm.gamma LayerNorm.beta
    LayerNorm.eps].
  set (row := (λ c, fx b c t) <$> seq 0 C).
  set (m := torch.mean row).
  set (v := torch.mean ((λ a, (a - m) ^ 2)%R <$> row)).
  set (s := sqrt (v + eps)).
  assert (∀ c, c < C →
            get (mk B C T (λ b c t,
                   ((fx b c t
                     - torch.mean ((λ c, fx b c t) <$> seq 0 C))
                    / sqrt (torch.mean
                              ((λ a, (a - torch.mean ((λ c, fx b c t) <$> seq 0 C)) ^ 2)%R
                               <$> ((λ c, fx b c t) <$> seq 0 C)) + eps)
                    * nth c (replicate C 1%R) 0 + nth c (replicate C 0%R) 0)%R))
              b c t
            = ((fx b c t - m) * / s)%R) as Hy.
  { intros c Hc. rewrite get_mk by done.
    rewrite !nth_replicate_lt by done.
    fold row. fold m. fold v. fold s. unfold Rdiv. lra. }
  assert (length row = C) as Hrow
    by (unfold row; by rewrite length_fmap, length_seq).
  assert (0 < INR C)%R as HCR by (apply lt_0_INR; lia).
  split.
  - etrans.
    { apply (f_equal sum_list).
      apply (fmap_seq_ext _ (λ c, (fx b c t - m) * / s)%R).
      intros c Hc. by apply Hy. }
    rewrite (sum_list_centred (λ c, fx b c t) m (/ s)).
    fold row. rewrite length_seq.
    unfold m, torch.mean. rewrite Hrow.
    replace (sum_list row - INR C * (sum_list row / INR C))%R with 0%R
      by (field; lra).
    lra.
  - pose proof (mean_sq_nonneg m row) as Hv. fold v in Hv.
    assert (s ^ 2 = v + eps)%R as Hs2.
    { unfold s. rewrite <- Rsqr_pow2. apply Rsqr_sqrt. lra. }
    assert (0 < s)%R as Hs by (apply sqrt_lt_R0; lra).
    replace (sum_list ((λ c, get _ b c t ^ 2)%R <$> seq 0 C))
      with (sum_list ((λ c, ((fx b c t - m) * / s) ^ 2)%R <$> seq 0 C)).
    2: { apply (f_equal sum_list). apply fmap_seq_ext.
         intros c Hc. by rewrite Hy. }
    rewrite (sum_list_scaled_sq (λ c, fx b c t - m)%R (/ s)).
    assert (sum_list ((λ c, (fx b c t - m) ^ 2)%R <$> seq 0 C)
            = (INR C * v)%R) as ->.
    { unfold v, torch.mean. rewrite length_fmap, Hrow. unfold row.
      rewrite <- list_fmap_compose. unfold compose. field. lra. }
    rewrite pow_inv, Hs2.
    apply (Rmult_lt_reg_r (v + eps)); [lra|].
    field_simplify; [|lra]. nra.
Qed.

Lemma fresh_LayerNorm_centres_witness :
  ∃ y,
    LayerNorm.forward (LayerNorm.init 2 LayerNorm.default_eps) Example.x = Ok y
    ∧ (get y 0 0 0 + (get y 0 1 0 + 0))%R = 0%R.
Proof.
  destruct (fresh_LayerNorm_centres 2 2 2 LayerNorm.default_eps Example.x)
    as (y & Hy & _ & Hsum);
    [lia|lia|lia|unfold LayerNorm.default_eps; lra|exact Example_x_shape|].
  exists y. split; [exact Hy|]. apply (Hsum 0 0); lia.
Defined.

(** ** DurationDiscriminator *)

Lemma sigmoid_entries (x : tensor) :
  Forall (Forall (Forall (λ v, (0 < v < 1)%R))) (torch.tmap torch.sigmoid x).
Proof.
  unfold torch.tmap.
  apply Forall_fmap, Forall_forall; intros ch _. cbn.
  apply Forall_fmap, Forall_forall; intros row _. cbn.
  apply Forall_fmap, Forall_forall; intros v _. cbn.
  apply sigmoid_bounds.
Qed.

Lemma forward_probability_entries
    (self : DurationDiscriminator.t) (x x_mask dur p : tensor) :
  DurationDiscriminator.forward_probability self x x_mask dur = Ok p →
  Forall (Forall (Forall (λ v, (0 < v < 1)%R))) p.
Proof.
  unfold DurationDiscriminator.forward_probability,
    DurationDiscriminator.output_layer. intros H.
  do 7 (apply bind_Ok in H as (? & _ & H)).
  apply bind_Ok in H as (q & Hq & H). injection H as <-.
  destruct (DurationDiscriminator.output_linear self _) as [y|e]; [|done].
  injection Hq as <-. apply sigmoid_entries.
Qed.

(** X10.  When DurationDiscriminator.forward returns, it returns two
    one-element lists, the first for [dur_r] and the second for [dur_hat],
    each holding numbers strictly between 0 and 1; the two are computed from
    the same features, so exchanging the durations exchanges the outputs. *)
Theorem discriminator_outputs
    (self : DurationDiscriminator.t) (x x_mask dur_r dur_hat : tensor)
    (output_probs : list (list tensor)) :
  DurationDiscriminator.forward self x x_mask dur_r dur_hat = Ok output_probs →
  ∃ prob_r prob_hat,
    output_probs = [ [prob_r]; [prob_hat] ]
    ∧ Forall (Forall (Forall (λ v, (0 < v < 1)%R))) prob_r
    ∧ Forall (Forall (Forall (λ v, (0 < v < 1)%R))) prob_hat
    ∧ DurationDiscriminator.forward self x x_mask dur_hat dur_r
      = Ok [ [prob_hat]; [prob_r] ].
Proof.
  unfold DurationDiscriminator.forward. intros H.
  apply bind_Ok in H as (x1 & Hx1 & H). rewrite Hx1. cbn [mbind res_bind].
  apply bind_Ok in H as (x2 & Hx2 & H). rewrite Hx2. cbn [mbind res_bind].
  apply bind_Ok in H as (x3 & Hx3 & H). rewrite Hx3. cbn [mbind res_bind].
  apply bind_Ok in H as (x4 & Hx4 & H). rewrite Hx4. cbn [mbind res_bind].
  cbn [for_] in H |- *.
  apply bind_Ok in H as (out1 & Hr & H).
  apply bind_Ok in Hr as (prob_r & Hr & Hout1). injection Hout1 as <-.
  apply bind_Ok in H as (out2 & Hhat & H).
  apply bind_Ok in Hhat as (prob_hat & Hhat & Hout2). injection Hout2 as <-.
  injection H as <-.
  exists prob_r, prob_hat. split; [done|].
  split; [by eapply forward_probability_entries|].
  split; [by eapply forward_probability_entries|].
  rewrite Hhat. cbn [mbind res_bind]. rewrite Hr. done.
Qed.

Lemma mul_mask_shape (B C T : nat) (x x_mask : tensor) :
  has_shape B C T x → has_shape B 1 T x_mask →
  ∃ y, torch.mul x x_mask = Ok y ∧ has_shape B C T y.
Proof.
  intros Hx Hm. as_table x Hx fx. as_table x_mask Hm fm.
  rewrite mul_mk_mask. eexists; split; [done|]. apply has_shape_mk.
Qed.

Lemma tmap_shape (u : R → R) (B C T : nat) (x : tensor) :
  has_shape B C T x → has_shape B C T (torch.tmap u x).
Proof.
  intros Hx. as_table x Hx fx. rewrite tmap_mk. apply has_shape_mk.
Qed.

Lemma transpose_shape (B C T : nat) (x : tensor) :
  0 < C → has_shape B C T x → has_shape B T C (torch.transpose x).
Proof.
  intros HC Hx. as_table x Hx fx. rewrite transpose_mk by done.
  apply has_shape_mk.
Qed.

Lemma cat_shape (B h T : nat) (xa xb : tensor) :
  0 < h → has_shape B h T xa → has_shape B h T xb →
  ∃ y, torch.cat xa xb = Ok y ∧ has_shape B (2 * h) T y.
Proof.
  intros Hh Ha Hb. as_table xa Ha fa. as_table xb Hb fb.
  rewrite cat_mk by done. eexists; split; [done|]. apply has_shape_mk.
Qed.

Lemma LayerNorm_forward_shape (norm : LayerNorm.t) (B C T : nat) (x : tensor) :
  0 < C → 0 < T → norm_over C norm → has_shape B C T x →
  ∃ y, LayerNorm.forward norm x = Ok y ∧ has_shape B C T y.
Proof.
  intros HC HT (Hch & Hg & Hb) Hx. as_table x Hx fx.
  rewrite (LayerNorm_forward_mk norm B C T) by done.
  eexists; split; [done|]. apply has_shape_mk.
Qed.

(** One feature stage of the discriminator: mask, convolve, rectify,
    normalise. *)
Lemma discriminator_stage_shape (conv : tensor → res tensor)
    (norm : LayerNorm.t) (B C F T : nat) (x x_mask : tensor) :
  0 < F → 0 < T →
  maps_shape conv B C T B F T → norm_over F norm →
  has_shape B C T x → has_shape B 1 T x_mask →
  ∃ y, (h ← torch.mul x x_mask ≫= conv;
        LayerNorm.forward norm (torch.relu h)) = Ok y
       ∧ has_shape B F T y.
Proof.
  intros HF HT Hconv Hnorm Hx Hm.
  destruct (mul_mask_shape B C T x x_mask Hx Hm) as (x1 & -> & Hx1).
  cbn [mbind res_bind].
  destruct (Hconv x1 Hx1) as (x2 & -> & Hx2). cbn [mbind res_bind].
  apply LayerNorm_forward_shape; [done..|]. by apply tmap_shape.
Qed.

Lemma forward_probability_shape
    (self : DurationDiscriminator.t) (B Cin F T : nat) (x x_mask dur : tensor) :
  0 < F → 0 < T → discriminator_layers B Cin F T self →
  has_shape B F T x → has_shape B 1 T x_mask → has_shape B 1 T dur →
  ∃ p, DurationDiscriminator.forward_probability self x x_mask dur = Ok p
       ∧ has_shape B T 1 p.
Proof.
  intros HF HT (_ & _ & _ & _ & Hproj & Hc1 & Hn1 & Hc2 & Hn2 & Hlin) Hx Hm Hd.
  unfold DurationDiscriminator.forward_probability.
  destruct (Hproj dur Hd) as (d & -> & Hd'). cbn [mbind res_bind].
  destruct (cat_shape B F T x d HF Hx Hd') as (x1 & -> & Hx1).
  cbn [mbind res_bind].
  destruct (discriminator_stage_shape _ _ B (2 * F) F T x1 x_mask
              HF HT Hc1 Hn1 Hx1 Hm) as (x2 & Hx2e & Hx2).
  apply bind_Ok in Hx2e as (h1 & -> & Hx2e). cbn [mbind res_bind].
  rewrite Hx2e. cbn [mbind res_bind].
  destruct (discriminator_stage_shape _ _ B F F T x2 x_mask
              HF HT Hc2 Hn2 Hx2 Hm) as (x3 & Hx3e & Hx3).
  apply bind_Ok in Hx3e as (h2 & -> & Hx3e). cbn [mbind res_bind].
  rewrite Hx3e. cbn [mbind res_bind].
  destruct (mul_mask_shape B F T x3 x_mask Hx3 Hm) as (x4 & -> & Hx4).
  cbn [mbind res_bind].
  unfold DurationDiscriminator.output_layer.
  destruct (Hlin (torch.transpose x4)) as (y & -> & Hy);
    [by apply transpose_shape|].
  cbn. eexists; split; [done|]. by apply tmap_shape.
Qed.

Lemma discriminator_forward_shape
    (self : DurationDiscriminator.t) (B Cin F T : nat)
    (x x_mask dur_r dur_hat : tensor) :
  0 < F → 0 < T → discriminator_layers B Cin F T self →
  has_shape B Cin T x → has_shape B 1 T x_mask →
  has_shape B 1 T dur_r → has_shape B 1 T dur_hat →
  ∃ prob_r prob_hat,
    DurationDiscriminator.forward self x x_mask dur_r dur_hat
    = Ok [ [prob_r]; [prob_hat] ]
    ∧ has_shape B T 1 prob_r ∧ has_shape B T 1 prob_hat.
Proof.
  intros HF HT Hself Hx Hm Hr Hhat.
  pose proof Hself as (Hc1 & Hn1 & Hc2 & Hn2 & _).
  unfold DurationDiscriminator.forward, torch.detach.
  destruct (discriminator_stage_shape _ _ B Cin F T x x_mask
              HF HT Hc1 Hn1 Hx Hm) as (x1 & Hx1e & Hx1).
  apply bind_Ok in Hx1e as (h1 & -> & Hx1e). cbn [mbind res_bind].
  rewrite Hx1e. cbn [mbind res_bind].
  destruct (discriminator_stage_shape _ _ B F F T x1 x_mask
              HF HT Hc2 Hn2 Hx1 Hm) as (x2 & Hx2e & Hx2).
  apply bind_Ok in Hx2e as (h2 & -> & Hx2e). cbn [mbind res_bind].
  rewrite Hx2e. cbn [mbind res_bind].
  destruct (forward_probability_shape self B Cin F T x2 x_mask dur_r
              HF HT Hself Hx2 Hm Hr) as (pr & Hpr & Hprs).
  destruct (forward_probability_shape self B Cin F T x2 x_mask dur_hat
              HF HT Hself Hx2 Hm Hhat) as (ph & Hph & Hphs).
  exists pr, ph. cbn [for_]. rewrite Hpr. cbn [mbind res_bind].
  rewrite Hph. done.
Qed.

Lemma maps_shape_id (B C T : nat) : maps_shape (λ x, Ok x) B C T B C T.
Proof. intros x Hx. by exists x. Qed.

Lemma maps_shape_zeroed_conv1d (B C K T : nat) :
  0 < B → 0 < C →
  maps_shape (torch.conv1d (torch.zeroed_conv1d C K)) B C T B K T.
Proof.
  intros HB HC x Hx. as_table x Hx fx.
  rewrite zeroed_conv1d_mk by done. eexists; split; [done|].
  apply has_shape_mk.
Qed.

Lemma norm_over_init (C : nat) (eps : R) : norm_over C (LayerNorm.init C eps).
Proof. unfold norm_over. cbn. by rewrite !length_replicate. Qed.

Lemma Example_discriminator_layers :
  discriminator_layers 2 2 2 2 Example.discriminator.
Proof.
  unfold discriminator_layers, Example.discriminator; cbn.
  repeat split;
    try apply maps_shape_id; try apply norm_over_init;
    try (apply maps_shape_zeroed_conv1d; lia).
  intros x Hx.
  destruct (maps_shape_zeroed_conv1d 2 2 1 2 Nat.lt_0_2 Nat.lt_0_2
              (torch.transpose x)) as (y & -> & Hy);
    [apply transpose_shape; [lia|done]|].
  cbn. eexists; split; [done|]. apply transpose_shape; [lia|done].
Qed.

Lemma discriminator_outputs_witness :
  ∃ prob_r prob_hat,
    DurationDiscriminator.forward Example.discriminator
      Example.x Example.x_mask Example.w Example.text
    = Ok [ [prob_r]; [prob_hat] ]
    ∧ Forall (Forall (Forall (λ v, (0 < v < 1)%R))) prob_r
    ∧ DurationDiscriminator.forward Example.discriminator
        Example.x Example.x_mask Example.text Example.w
      = Ok [ [prob_hat]; [prob_r] ].
Proof.
  destruct (discriminator_forward_shape Example.discriminator 2 2 2 2
              Example.x Example.x_mask Example.w Example.text)
    as (pr & ph & Hfwd & _); [lia|lia|exact Example_discriminator_layers
      |solve_shape|solve_shape|solve_shape|solve_shape|].
  destruct (discriminator_outputs Example.discriminator
              Example.x Example.x_mask Example.w Example.text _ Hfwd)
    as (pr' & ph' & Heq & Hr & _ & Hswap).
  injection Heq as -> ->.
  exists pr', ph'. done.
Defined.

(** X11.  A discriminator whose convolutions keep the number of frames (an
    odd kernel size) returns on every input of matching shape: from features
    [(B, in_channels, T)], a mask and two durations [(B, 1, T)] it gives two
    probability tensors of shape [(B, T, 1)], one per duration. *)
Theorem discriminator_output_shape
    (self : DurationDiscriminator.t) (B in_channels filter_channels T : nat)
    (x x_mask dur_r dur_hat : tensor) :
  0 < filter_channels → 0 < T →
  discriminator_layers B in_channels filter_channels T self →
  has_shape B in_channels T x → has_shape B 1 T x_mask →
  has_shape B 1 T dur_r → has_shape B 1 T dur_hat →
  ∃ prob_r prob_hat,
    DurationDiscriminator.forward self x x_mask dur_r dur_hat
    = Ok [ [prob_r]; [prob_hat] ]
    ∧ has_shape B T 1 prob_r ∧ has_shape B T 1 prob_hat.
Proof.
  intros HF HT Hself Hx Hm Hr Hhat.
  by apply (discriminator_forward_shape self B in_channels filter_channels T).
Qed.

Lemma discriminator_output_shape_witness :
  ∃ prob_r prob_hat,
    DurationDiscriminator.forward Example.discriminator
      Example.x Example.x_mask Example.w Example.text
    = Ok [ [prob_r]; [prob_hat] ]
    ∧ has_shape 2 2 1 prob_r ∧ has_shape 2 2 1 prob_hat.
Proof.
  destruct (discriminator_output_shape Example.discriminator 2 2 2 2
              Example.x Example.x_mask Example.w Example.text)
    as (pr & ph & Hfwd & Hr & Hhat); [lia|lia
      |exact Example_discriminator_layers
      |solve_shape|solve_shape|solve_shape|solve_shape|].
  by exists pr, ph.
Defined.

(** ** compute_fbank_ljspeech.py: the run that builds the output, failures,
    and a second run *)

Ltac fbank_unfold :=
  unfold compute_fbank_ljspeech.compute_spectrogram_ljspeech;
  unfold mbind, compute_fbank_ljspeech.io_bind, mret,
    compute_fbank_ljspeech.io_ret, compute_fbank_ljspeech.emit,
    compute_fbank_ljspeech.lift, compute_fbank_ljspeech.get_files,
    compute_fbank_ljspeech.on_files;
  cbn [compute_fbank_ljspeech.files compute_fbank_ljspeech.events];
  cbv [compute_fbank_ljspeech.path_join String.append].

(** With the cuts file in place a run keeps the files and builds nothing. *)
Lemma fbank_skip
    (manifest cut_set content executor : Type)
    (os_cpu_count : option Z) (executor_of : option executor)
    (read_manifest : gmap string content → string → res manifest)
    (cuts_from_manifests : manifest → manifest → res cut_set)
    (cuts_resample : cut_set → Z → res cut_set)
    (store_features :
       cut_set → compute_fbank_ljspeech.FbankConfig → string → Z →
       option executor → gmap string content →
       res cut_set * gmap string content)
    (write_cuts :
       cut_set → string → gmap string content →
       res () * gmap string content)
    (w : compute_fbank_ljspeech.world content) :
  let run :=
    compute_fbank_ljspeech.compute_spectrogram_ljspeech
      manifest cut_set content executor os_cpu_count executor_of read_manifest
      cuts_from_manifests cuts_resample store_features write_cuts in
  let files := compute_fbank_ljspeech.files content in
  let events := compute_fbank_ljspeech.events content in
  is_Some (files w !! "data/fbank/ljspeech_cuts_all.jsonl.gz") →
  files (run w).2 = files w
  ∧ ∃ new,
      events (run w).2 = events w ++ new
      ∧ Forall (λ e, ¬ compute_fbank_ljspeech.builds_output e) new.
Proof.
  intros run files events Hfile. subst run files events. fbank_unfold.
  destruct os_cpu_count as [n|]; cbn [fst snd].
  2: { cbn. split; [done|]. exists []. by rewrite app_nil_r. }
  destruct (read_manifest _ "data/manifests/ljspeech_recordings_all.jsonl.gz")
    as [recordings|e].
  2: { cbn. split; [done|]. eexists. split; [reflexivity|]. no_output. }
  destruct (read_manifest _ "data/manifests/ljspeech_supervisions_all.jsonl.gz")
    as [supervisions|e].
  2: { cbn. split; [done|].
       eexists. split; [by rewrite <- (assoc_L app)|]. no_output. }
  rewrite bool_decide_eq_true_2 by exact Hfile.
  cbn. split; [done|].
  eexists. split; [by rewrite <- !(assoc_L app)|]. no_output.
Qed.

(** A run that returns leaves the cuts file behind, when a [to_file] that
    returns has made the path it writes a file. *)
Lemma fbank_success_leaves_cuts
    (manifest cut_set content executor : Type)
    (os_cpu_count : option Z) (executor_of : option executor)
    (read_manifest : gmap string content → string → res manifest)
    (cuts_from_manifests : manifest → manifest → res cut_set)
    (cuts_resample : cut_set → Z → res cut_set)
    (store_features :
       cut_set → compute_fbank_ljspeech.FbankConfig → string → Z →
       option executor → gmap string content →
       res cut_set * gmap string content)
    (write_cuts :
       cut_set → string → gmap string content →
       res () * gmap string content)
    (w : compute_fbank_ljspeech.world content) :
  let run :=
    compute_fbank_ljspeech.compute_spectrogram_ljspeech
      manifest cut_set content executor os_cpu_count executor_of read_manifest
      cuts_from_manifests cuts_resample store_features write_cuts in
  let files := compute_fbank_ljspeech.files content in
  (∀ cuts path fs fs',
     write_cuts cuts path fs = (Ok (), fs') → is_Some (fs' !! path)) →
  (run w).1 = Ok () →
  is_Some (files (run w).2 !! "data/fbank/ljspeech_cuts_all.jsonl.gz").
Proof.
  intros run files Hwrite. subst run files. fbank_unfold.
  destruct os_cpu_count as [n|]; [|done].
  destruct (read_manifest _ "data/manifests/ljspeech_recordings_all.jsonl.gz")
    as [recordings|e]; [|done].
  destruct (read_manifest _ "data/manifests/ljspeech_supervisions_all.jsonl.gz")
    as [supervisions|e]; [|done].
  case_bool_decide as Hfile; [by intros _|].
  destruct (cuts_from_manifests recordings supervisions) as [cuts0|e]; [|done].
  destruct (cuts_resample cuts0 _) as [cuts1|e]; [|done].
  cbn [compute_fbank_ljspeech.files].
  destruct (store_features _ _ _ _ _ _) as [[cuts|e] fs'] eqn:Hstore; [|done].
  cbn [compute_fbank_ljspeech.files].
  destruct (write_cuts _ _ _) as [[[]|e] fs''] eqn:Hto; [|done].
  intros _. cbn. by eapply Hwrite.
Qed.

(** X12.  Without the cuts file, with both manifests loading, the cut set
    built and resampled, the features stored and the cuts written, the
    script makes its calls in this order: the two manifests, the executor,
    the check for the cuts file, the cut set resampled to 16 kHz, the
    features (80 mel bins, frames of 1024 samples every 256) under
    data/fbank/ljspeech_feats_all with 80 jobs under an executor and
    min(4, cpu count) otherwise, then the cuts file, written over what the
    feature store left. *)
Theorem processing_when_cuts_missing
    (manifest cut_set content executor : Type)
    (os_cpu_count : option Z) (executor_of : option executor)
    (read_manifest : gmap string content → string → res manifest)
    (cuts_from_manifests : manifest → manifest → res cut_set)
    (cuts_resample : cut_set → Z → res cut_set)
    (store_features :
       cut_set → compute_fbank_ljspeech.FbankConfig → string → Z →
       option executor → gmap string content →
       res cut_set * gmap string content)
    (write_cuts :
       cut_set → string → gmap string content →
       res () * gmap string content)
    (w : compute_fbank_ljspeech.world content)
    (n : Z) (recordings supervisions : manifest)
    (cuts0 cuts1 cuts : cut_set) (fs' fs'' : gmap string content) :
  let run :=
    compute_fbank_ljspeech.compute_spectrogram_ljspeech
      manifest cut_set content executor os_cpu_count executor_of read_manifest
      cuts_from_manifests cuts_resample store_features write_cuts in
  let files := compute_fbank_ljspeech.files content in
  let events := compute_fbank_ljspeech.events content in
  let jobs := match executor_of with None => (4 `min` n)%Z | Some _ => 80%Z end in
  let extractor :=
    {| compute_fbank_ljspeech.num_mel_bins := 80%Z;
       compute_fbank_ljspeech.sampling_rate := 16000%Z;
       compute_fbank_ljspeech.frame_length := (1024 / 16000)%R;
       compute_fbank_ljspeech.frame_shift := (256 / 16000)%R |} in
  os_cpu_count = Some n →
  files w !! "data/fbank/ljspeech_cuts_all.jsonl.gz" = None →
  read_manifest (files w) "data/manifests/ljspeech_recordings_all.jsonl.gz"
    = Ok recordings →
  read_manifest (files w) "data/manifests/ljspeech_supervisions_all.jsonl.gz"
    = Ok supervisions →
  cuts_from_manifests recordings supervisions = Ok cuts0 →
  cuts_resample cuts0 16000%Z = Ok cuts1 →
  store_features cuts1 extractor "data/fbank/ljspeech_feats_all" jobs
    executor_of (files w) = (Ok cuts, fs') →
  write_cuts cuts "data/fbank/ljspeech_cuts_all.jsonl.gz" fs' = (Ok (), fs'') →
  run w
  = (Ok (),
     {| compute_fbank_ljspeech.files := fs'';
        compute_fbank_ljspeech.events :=
          events w ++
          [ compute_fbank_ljspeech.load_manifest
              "data/manifests/ljspeech_recordings_all.jsonl.gz";
            compute_fbank_ljspeech.load_manifest
              "data/manifests/ljspeech_supervisions_all.jsonl.gz";
            compute_fbank_ljspeech.get_executor;
            compute_fbank_ljspeech.is_file
              "data/fbank/ljspeech_cuts_all.jsonl.gz";
            compute_fbank_ljspeech.logging_info "Processing all";
            compute_fbank_ljspeech.from_manifests;
            compute_fbank_ljspeech.resample 16000%Z;
            compute_fbank_ljspeech.compute_and_store_features
              "data/fbank/ljspeech_feats_all" jobs;
            compute_fbank_ljspeech.to_file
              "data/fbank/ljspeech_cuts_all.jsonl.gz" ] |}).
Proof.
  intros run files events jobs extractor
    Hcpu Hfile Hrec Hsup Hfrom Hres Hstore Hto.
  subst run files events jobs extractor. fbank_unfold.
  rewrite Hcpu, Hrec, Hsup.
  rewrite bool_decide_eq_false_2
    by (rewrite Hfile; intros [? ?]; discriminate).
  rewrite Hfrom, Hres.
  cbn [compute_fbank_ljspeech.files]. rewrite Hstore.
  cbn [compute_fbank_ljspeech.files]. rewrite Hto.
  cbn. by rewrite <- !(assoc_L app).
Qed.

Lemma Example_manifests_no_cuts :
  Example.manifests !! "data/fbank/ljspeech_cuts_all.jsonl.gz" = None.
Proof.
  unfold Example.manifests.
  rewrite lookup_insert_ne by done. by rewrite lookup_singleton_ne.
Qed.

Lemma Example_manifests_recordings :
  Example.read_manifest Example.manifests
    "data/manifests/ljspeech_recordings_all.jsonl.gz" = Ok "recordings".
Proof.
  unfold Example.read_manifest, Example.manifests.
  by rewrite lookup_insert_eq.
Qed.

Lemma Example_manifests_supervisions :
  Example.read_manifest Example.manifests
    "data/manifests/ljspeech_supervisions_all.jsonl.gz" = Ok "supervisions".
Proof.
  unfold Example.read_manifest, Example.manifests.
  rewrite lookup_insert_ne by done. by rewrite lookup_singleton_eq.
Qed.

Lemma Example_run_returns :
  (Example.compute_spectrogram_ljspeech
     {| compute_fbank_ljspeech.files := Example.manifests;
        compute_fbank_ljspeech.events := [] |}).1 = Ok ().
Proof.
  unfold Example.compute_spectrogram_ljspeech. fbank_unfold.
  rewrite Example_manifests_recordings, Example_manifests_supervisions.
  rewrite bool_decide_eq_false_2
    by (rewrite Example_manifests_no_cuts; intros [? ?]; discriminate).
  reflexivity.
Qed.

Lemma processing_when_cuts_missing_witness :
  Example.compute_spectrogram_ljspeech
    {| compute_fbank_ljspeech.files := Example.manifests;
       compute_fbank_ljspeech.events := [] |}
  = (Ok (),
     {| compute_fbank_ljspeech.files :=
          <[ "data/fbank/ljspeech_cuts_all.jsonl.gz" := "recordingssupervisions" ]>
            (<[ "data/fbank/ljspeech_feats_all" := "features" ]>
               Example.manifests);
        compute_fbank_ljspeech.events :=
          [ compute_fbank_ljspeech.load_manifest
              "data/manifests/ljspeech_recordings_all.jsonl.gz";
            compute_fbank_ljspeech.load_manifest
              "data/manifests/ljspeech_supervisions_all.jsonl.gz";
            compute_fbank_ljspeech.get_executor;
            compute_fbank_ljspeech.is_file
              "data/fbank/ljspeech_cuts_all.jsonl.gz";
            compute_fbank_ljspeech.logging_info "Processing all";
            compute_fbank_ljspeech.from_manifests;
            compute_fbank_ljspeech.resample 16000%Z;
            compute_fbank_ljspeech.compute_and_store_features
              "data/fbank/ljspeech_feats_all" 4%Z;
            compute_fbank_ljspeech.to_file
              "data/fbank/ljspeech_cuts_all.jsonl.gz" ] |}).
Proof.
  apply (processing_when_cuts_missing string string string unit
           (Some 8%Z) None Example.read_manifest
           Example.from_manifests Example.resample
           Example.store_features Example.write_cuts
           {| compute_fbank_ljspeech.files := Example.manifests;
              compute_fbank_ljspeech.events := [] |}
           8%Z "recordings" "supervisions"
           "recordingssupervisions" "recordingssupervisions"
           "recordingssupervisions"
           (<[ "data/fbank/ljspeech_feats_all" := "features" ]>
              Example.manifests)).
  - reflexivity.
  - exact Example_manifests_no_cuts.
  - exact Example_manifests_recordings.
  - exact Example_manifests_supervisions.
  - reflexivity.
  - reflexivity.
  - reflexivity.
  - reflexivity.
Defined.

(** X13.  A run that returns leaves the cuts file behind (it was there, or
    [to_file] has just written it), so a second run changes no file and
    makes none of the calls that build the output. *)
Theorem second_run_changes_nothing
    (manifest cut_set content executor : Type)
    (os_cpu_count : option Z) (executor_of : option executor)
    (read_manifest : gmap string content → string → res manifest)
    (cuts_from_manifests : manifest → manifest → res cut_set)
    (cuts_resample : cut_set → Z → res cut_set)
    (store_features :
       cut_set → compute_fbank_ljspeech.FbankConfig → string → Z →
       option executor → gmap string content →
       res cut_set * gmap string content)
    (write_cuts :
       cut_set → string → gmap string content →
       res () * gmap string content)
    (w : compute_fbank_ljspeech.world content) :
  let run :=
    compute_fbank_ljspeech.compute_spectrogram_ljspeech
      manifest cut_set content executor os_cpu_count executor_of read_manifest
      cuts_from_manifests cuts_resample store_features write_cuts in
  let files := compute_fbank_ljspeech.files content in
  let events := compute_fbank_ljspeech.events content in
  (∀ cuts path fs fs',
     write_cuts cuts path fs = (Ok (), fs') → is_Some (fs' !! path)) →
  (run w).1 = Ok () →
  let w1 := (run w).2 in
  is_Some (files w1 !! "data/fbank/ljspeech_cuts_all.jsonl.gz")
  ∧ files (run w1).2 = files w1
  ∧ ∃ new,
      events (run w1).2 = events w1 ++ new
      ∧ Forall (λ e, ¬ compute_fbank_ljspeech.builds_output e) new.
Proof.
  intros run files events Hwrite Hok w1.
  assert (is_Some (files w1 !! "data/fbank/ljspeech_cuts_all.jsonl.gz"))
    as Hfile.
  { by apply (fbank_success_leaves_cuts manifest cut_set content executor
                os_cpu_count executor_of read_manifest cuts_from_manifests
                cuts_resample store_features write_cuts w). }
  split; [done|].
  by apply (fbank_skip manifest cut_set content executor
              os_cpu_count executor_of read_manifest cuts_from_manifests
              cuts_resample store_features write_cuts w1).
Qed.

Lemma second_run_changes_nothing_witness :
  let w1 :=
    (Example.compute_spectrogram_ljspeech
       {| compute_fbank_ljspeech.files := Example.manifests;
          compute_fbank_ljspeech.events := [] |}).2 in
  compute_fbank_ljspeech.files string
    (Example.compute_spectrogram_ljspeech w1).2
  = compute_fbank_ljspeech.files string w1.
Proof.
  intros w1.
  destruct (second_run_changes_nothing string string string unit
              (Some 8%Z) None Example.read_manifest
              Example.from_manifests Example.resample
              Example.store_features Example.write_cuts
              {| compute_fbank_ljspeech.files := Example.manifests;
                 compute_fbank_ljspeech.events := [] |})
    as (_ & Hfiles & _).
  - intros cuts path fs fs' [= <-].
    rewrite lookup_insert_eq. by eexists.
  - exact Example_run_returns.
  - exact Hfiles.
Defined.

(** X14.  The script looks for the cuts file only after the cpu count and
    both manifests: with no cpu count ([min(4, None)]) or a manifest that
    does not load it raises, whether or not the cuts file is there, having
    changed no file and called nothing but [load_manifest]. *)
Theorem failures_before_skip_check
    (manifest cut_set content executor : Type)
    (os_cpu_count : option Z) (executor_of : option executor)
    (read_manifest : gmap string content → string → res manifest)
    (cuts_from_manifests : manifest → manifest → res cut_set)
    (cuts_resample : cut_set → Z → res cut_set)
    (store_features :
       cut_set → compute_fbank_ljspeech.FbankConfig → string → Z →
       option executor → gmap string content →
       res cut_set * gmap string content)
    (write_cuts :
       cut_set → string → gmap string content →
       res () * gmap string content)
    (w : compute_fbank_ljspeech.world content) (e : exn) :
  let run :=
    compute_fbank_ljspeech.compute_spectrogram_ljspeech
      manifest cut_set content executor os_cpu_count executor_of read_manifest
      cuts_from_manifests cuts_resample store_features write_cuts in
  let files := compute_fbank_ljspeech.files content in
  let events := compute_fbank_ljspeech.events content in
  let recordings_path := "data/manifests/ljspeech_recordings_all.jsonl.gz" in
  let supervisions_path := "data/manifests/ljspeech_supervisions_all.jsonl.gz" in
  (os_cpu_count = None
   ∧ e = TypeError "'<' not supported between instances of 'NoneType' and 'int'")
  ∨ (is_Some os_cpu_count
     ∧ (read_manifest (files w) recordings_path = Raise e
        ∨ (∃ recordings, read_manifest (files w) recordings_path = Ok recordings)
          ∧ read_manifest (files w) supervisions_path = Raise e)) →
  (run w).1 = Raise e
  ∧ files (run w).2 = files w
  ∧ ∃ new,
      events (run w).2 = events w ++ new
      ∧ Forall (λ ev, ∃ path, ev = compute_fbank_ljspeech.load_manifest path) new.
Proof.
  intros run files events recordings_path supervisions_path H.
  subst run files events recordings_path supervisions_path. fbank_unfold.
  destruct H as [[-> ->]|[[n ->] [Hrec|[[recordings Hrec] Hsup]]]].
  - cbn. split; [done|]. split; [done|]. exists []. by rewrite app_nil_r.
  - rewrite Hrec. cbn. split; [done|]. split; [done|].
    eexists. split; [reflexivity|].
    apply Forall_cons_2; [by eexists|]. apply Forall_nil_2.
  - rewrite Hrec, Hsup. cbn. split; [done|]. split; [done|].
    eexists. split; [by rewrite <- (assoc_L app)|].
    apply Forall_cons_2; [by eexists|].
    apply Forall_cons_2; [by eexists|]. apply Forall_nil_2.
Qed.

Lemma failures_before_skip_check_witness :
  (Example.compute_spectrogram_ljspeech
     {| compute_fbank_ljspeech.files := Example.files;
        compute_fbank_ljspeech.events := [] |}).1
  = Raise (AssertionError
             "No such path: data/manifests/ljspeech_recordings_all.jsonl.gz").
Proof.
  apply (failures_before_skip_check string string string unit
           (Some 8%Z) None Example.read_manifest
           Example.from_manifests Example.resample
           Example.store_features Example.write_cuts
           {| compute_fbank_ljspeech.files := Example.files;
              compute_fbank_ljspeech.events := [] |}).
  right. split; [by eexists|]. left.
  cbn. unfold Example.read_manifest, Example.files.
  by rewrite lookup_singleton_ne.
Defined.

(** X15.  A run that raises has not got past [to_file]: either [to_file]
    is not among its calls, or the exception is the one [to_file] raised and
    the files are the ones it left. *)
Theorem failed_run_stops_by_to_file
    (manifest cut_set content executor : Type)
    (os_cpu_count : option Z) (executor_of : option executor)
    (read_manifest : gmap string content → string → res manifest)
    (cuts_from_manifests : manifest → manifest → res cut_set)
    (cuts_resample : cut_set → Z → res cut_set)
    (store_features :
       cut_set → compute_fbank_ljspeech.FbankConfig → string → Z →
       option executor → gmap string content →
       res cut_set * gmap string content)
    (write_cuts :
       cut_set → string → gmap string content →
       res () * gmap string content)
    (w : compute_fbank_ljspeech.world content) (e : exn) :
  let run :=
    compute_fbank_ljspeech.compute_spectrogram_ljspeech
      manifest cut_set content executor os_cpu_count executor_of read_manifest
      cuts_from_manifests cuts_resample store_features write_cuts in
  let files := compute_fbank_ljspeech.files content in
  let events := compute_fbank_ljspeech.events content in
  (run w).1 = Raise e →
  ∃ new,
    events (run w).2 = events w ++ new
    ∧ (Forall (λ ev, ∀ path, ev ≠ compute_fbank_ljspeech.to_file path) new
       ∨ (last new
            = Some (compute_fbank_ljspeech.to_file
                      "data/fbank/ljspeech_cuts_all.jsonl.gz")
          ∧ ∃ cuts fs,
              write_cuts cuts "data/fbank/ljspeech_cuts_all.jsonl.gz" fs
              = (Raise e, files (run w).2))).
Proof.
  intros run files events. subst run files events. fbank_unfold.
  destruct os_cpu_count as [n|].
  2: { intros _. exists []. cbn. split; [by rewrite app_nil_r|].
       left. apply Forall_nil_2. }
  destruct (read_manifest _ "data/manifests/ljspeech_recordings_all.jsonl.gz")
    as [recordings|e1].
  2: { intros _. cbn. eexists. split; [reflexivity|]. left.
       repeat (apply Forall_cons_2; [done|]). apply Forall_nil_2. }
  destruct (read_manifest _ "data/manifests/ljspeech_supervisions_all.jsonl.gz")
    as [supervisions|e2].
  2: { intros _. cbn. eexists. split; [by rewrite <- (assoc_L app)|]. left.
       repeat (apply Forall_cons_2; [done|]). apply Forall_nil_2. }
  case_bool_decide as Hfile; [done|].
  destruct (cuts_from_manifests recordings supervisions) as [cuts0|e3].
  2: { intros _. cbn. eexists. split; [by rewrite <- !(assoc_L app)|]. left.
       repeat (apply Forall_cons_2; [done|]). apply Forall_nil_2. }
  destruct (cuts_resample cuts0 _) as [cuts1|e4].
  2: { intros _. cbn. eexists. split; [by rewrite <- !(assoc_L app)|]. left.
       repeat (apply Forall_cons_2; [done|]). apply Forall_nil_2. }
  cbn [compute_fbank_ljspeech.files].
  destruct (store_features _ _ _ _ _ _) as [[cuts|e5] fs'] eqn:Hstore.
  2: { intros _. cbn. eexists. split; [by rewrite <- !(assoc_L app)|]. left.
       repeat (apply Forall_cons_2; [done|]). apply Forall_nil_2. }
  cbn [compute_fbank_ljspeech.files].
  destruct (write_cuts _ _ _) as [[[]|e6] fs''] eqn:Hto; [done|].
  cbn. intros [= ->]. eexists. split; [by rewrite <- !(assoc_L app)|].
  right. split; [done|]. by exists cuts, fs'.
Qed.

Lemma failed_run_stops_by_to_file_witness :
  ∃ new,
    compute_fbank_ljspeech.events string
      (compute_fbank_ljspeech.compute_spectrogram_ljspeech
         string string string unit (Some 8%Z) None Example.read_manifest
         Example.from_manifests Example.resample
         Example.store_features Example.write_cuts_full
         {| compute_fbank_ljspeech.files := Example.manifests;
            compute_fbank_ljspeech.events := [] |}).2
    = [] ++ new
    ∧ last new
      = Some (compute_fbank_ljspeech.to_file
                "data/fbank/ljspeech_cuts_all.jsonl.gz").
Proof.
  destruct (failed_run_stops_by_to_file string string string unit
              (Some 8%Z) None Example.read_manifest
              Example.from_manifests Example.resample
              Example.store_features Example.write_cuts_full
              {| compute_fbank_ljspeech.files := Example.manifests;
                 compute_fbank_ljspeech.events := [] |}
              (RuntimeError "No space left on device"))
    as (new & Hnew & Hcase).
  - fbank_unfold.
    rewrite Example_manifests_recordings, Example_manifests_supervisions.
    rewrite bool_decide_eq_false_2
      by (rewrite Example_manifests_no_cuts; intros [? ?]; discriminate).
    reflexivity.
  - exists new. split; [exact Hnew|].
    destruct Hcase as [Hnone|[Hlast _]]; [|exact Hlast].
    exfalso. revert Hnew Hnone. fbank_unfold.
    rewrite Example_manifests_recordings, Example_manifests_supervisions.
    rewrite bool_decide_eq_false_2
      by (rewrite Example_manifests_no_cuts; intros [? ?]; discriminate).
    cbn. intros <- Hnone.
    rewrite !Forall_cons in Hnone.
    destruct Hnone as (_ & _ & _ & _ & _ & _ & _ & _ & Hto & _).
    by apply (Hto "data/fbank/ljspeech_cuts_all.jsonl.gz").
Defined.
